(** * Expert-routing layers of mlx_lm ([mlx_lm/models/switch_layers.py])

    A shallow embedding of [_gather_sort], [_scatter_unsort], [SwitchLinear],
    [QuantizedSwitchLinear], [SwitchGLU] and [SwitchMLP], over a model of the
    array primitives of [mlx.core] that these functions call.

    Arrays are a shape together with the row-major list of their elements.
    The element type of the floating-point tensors is abstract: only the
    three operations the layers use on it are named ([Scalar]), and no law
    about them is assumed.  Index tensors hold naturals. *)

From stdpp Require Import base list gmap strings sorting.

Local Open Scope Z_scope.
Local Open Scope nat_scope.

(** ** Arrays *)

Record array (A : Type) := Array { shape : list nat; data : list A }.
Arguments Array {A} _ _.
Arguments shape {A} _.
Arguments data {A} _.

(** The number of elements a shape describes. *)
Definition prod (s : list nat) : nat := foldr Nat.mul 1 s.

(** [a.size] *)
Global Instance array_size {A} : Size (array A) := fun a => prod (shape a).

(** [a.ndim] *)
Definition ndim {A} (a : array A) : nat := length (shape a).

(** The element list of an array has as many elements as its shape says. *)
Definition wf {A} (a : array A) : Prop := length (data a) = size a.

(** The [i]-th block of [r] consecutive elements. *)
Definition row {A} (r i : nat) (d : list A) : list A := take r (drop (i * r) d).

(** The operations the layers use on tensor elements. *)
Class Scalar (R : Type) := {
  s0 : R;
  sadd : R -> R -> R;
  smul : R -> R -> R
}.

Global Instance Z_Scalar : Scalar Z := {| s0 := 0%Z; sadd := Z.add; smul := Z.mul |}.

(** ** The primitives of [mlx.core]

    Each primitive returns [None] where MLX raises (an axis out of range,
    shapes that do not broadcast, a dimension that cannot be squeezed).
    MLX does not check an index against the axis it indexes: a read past
    the end raises nothing and yields whatever the memory holds, which
    differs from run to run.  Such a read has no result that could be
    stated, and [getitem] and [gather_mm] return [None] for it as well; a
    property that speaks of a result therefore assumes the indices in
    range. *)

Module mx.

(** A negative axis counts from the end. *)
Definition norm_axis (n : nat) (ax : Z) : Z :=
  if (ax <? 0)%Z then (ax + Z.of_nat n)%Z else ax.

(** [a.flatten()] *)
Definition flatten {A} (a : array A) : array A := Array [size a] (data a).

(** [a.flatten(start_axis, end_axis)]: the axes are clipped to the array's,
    then the axes from [start_axis] to [end_axis] are merged. *)
Definition flatten_axes {A} (start_axis end_axis : Z) (a : array A) : option (array A) :=
  let n := ndim a in
  let s := Z.max 0 (norm_axis n start_axis) in
  let e := Z.min (Z.of_nat n - 1) (norm_axis n end_axis) in
  if n =? 0 then Some (Array [1] (data a))
  else if (e <? s)%Z then None
  else if (Z.of_nat n <=? s)%Z then None
  else
    let s' := Z.to_nat s in
    let e' := Z.to_nat e in
    Some (Array (take s' (shape a)
                 ++ [prod (take (e' - s' + 1) (drop s' (shape a)))]
                 ++ drop (e' + 1) (shape a))
                (data a)).

(** The output shape of [expand_dims]: position [i] of the output is a new
    axis of size one when [i] is one of [axes], and the next axis of the
    input otherwise; [k] output axes are still to be produced. *)
Fixpoint insert_ones (axes : list nat) (i k : nat) (sh : list nat) : list nat :=
  match k with
  | 0 => []
  | S k' =>
      if bool_decide (i ∈ axes) then 1 :: insert_ones axes (S i) k' sh
      else match sh with
           | d :: sh' => d :: insert_ones axes (S i) k' sh'
           | [] => []
           end
  end.

(** [mx.expand_dims(a, axes)] *)
Definition expand_dims {A} (axes : list Z) (a : array A) : option (array A) :=
  let n := ndim a + length axes in
  let axs := norm_axis n <$> axes in
  if bool_decide (Forall (fun ax => (0 <= ax < Z.of_nat n)%Z) axs /\ NoDup axs)
  then Some (Array (insert_ones (Z.to_nat <$> axs) 0 n (shape a)) (data a))
  else None.

(** [a.squeeze(axis)] *)
Definition squeeze {A} (axis : Z) (a : array A) : option (array A) :=
  let ax := norm_axis (ndim a) axis in
  if bool_decide (0 <= ax < Z.of_nat (ndim a))%Z then
    if bool_decide (shape a !! Z.to_nat ax = Some 1)
    then Some (Array (delete (Z.to_nat ax) (shape a)) (data a))
    else None
  else None.

(** [mx.unflatten(a, axis, shape)] with a fully given [shape]; an empty
    [shape] is refused. *)
Definition unflatten {A} (a : array A) (axis : Z) (sh : list nat) : option (array A) :=
  let ax := norm_axis (ndim a) axis in
  match sh with
  | [] => None
  | _ :: _ =>
      if bool_decide (0 <= ax < Z.of_nat (ndim a))%Z then
        if bool_decide (shape a !! Z.to_nat ax = Some (prod sh))
        then Some (Array (take (Z.to_nat ax) (shape a) ++ sh ++ drop (S (Z.to_nat ax)) (shape a))
                         (data a))
        else None
      else None
  end.

(** [a[idx]] with an integer array [idx]: the blocks of [a] along its first
    axis that [idx] names, in the order of [idx].  An index past the end of
    the axis is not checked by MLX and has no defined result. *)
Definition getitem {A} (a : array A) (idx : array nat) : option (array A) :=
  match shape a with
  | [] => None
  | n :: sh =>
      if forallb (fun i => i <? n) (data idx)
      then Some (Array (shape idx ++ sh)
                       (concat ((fun i => row (prod sh) i (data a)) <$> data idx)))
      else None
  end.

(** [a // m] with an integer [m] *)
Definition floor_divide (a : array nat) (m : nat) : array nat :=
  Array (shape a) ((fun v => v / m) <$> data a).

(** Insertion of position [p] into a list of positions ordered by [key]:
    [p] goes before the first position whose key is not smaller. *)
Fixpoint insert_pos (key : nat -> nat) (p : nat) (l : list nat) : list nat :=
  match l with
  | [] => [p]
  | q :: l' => if key p <=? key q then p :: l else q :: insert_pos key p l'
  end.

(** The positions [0 .. length keys - 1] ordered by key, equal keys by
    position: what a stable sort of the positions returns. *)
Definition argsort_list (keys : list nat) : list nat :=
  foldr (insert_pos (fun i => nth i keys 0)) [] (seq 0 (length keys)).

(** [mx.argsort(a)]: along the last axis. *)
Definition argsort (a : array nat) : option (array nat) :=
  match reverse (shape a) with
  | [] => None
  | d :: _ =>
      Some (Array (shape a)
                  (concat ((fun i => argsort_list (row d i (data a)))
                             <$> seq 0 (length (data a) / d))))
  end.

(** [mx.stop_gradient(a)]: the same values, cut off from differentiation. *)
Definition stop_gradient {A} (a : array A) : array A := a.

(** Broadcasting of two shapes, from the last axis on. *)
Fixpoint broadcast_shapes_rev (s1 s2 : list nat) : option (list nat) :=
  match s1, s2 with
  | [], s | s, [] => Some s
  | d1 :: t1, d2 :: t2 =>
      if d1 =? d2 then cons d1 <$> broadcast_shapes_rev t1 t2
      else if d1 =? 1 then cons d2 <$> broadcast_shapes_rev t1 t2
      else if d2 =? 1 then cons d1 <$> broadcast_shapes_rev t1 t2
      else None
  end.

Definition broadcast_shapes (s1 s2 : list nat) : option (list nat) :=
  reverse <$> broadcast_shapes_rev (reverse s1) (reverse s2).

(** The elements of an array of shape [src] as seen through shape [tgt] of
    the same number of axes: an axis of size one of [src] is repeated. *)
Fixpoint broadcast_aligned {A} (src tgt : list nat) (d : list A) : list A :=
  match src, tgt with
  | ds :: src', dt :: tgt' =>
      if ds =? dt
      then concat ((fun i => broadcast_aligned src' tgt' (row (prod src') i d)) <$> seq 0 dt)
      else concat ((fun _ => broadcast_aligned src' tgt' d) <$> seq 0 dt)
  | _, _ => d
  end.

(** [mx.broadcast_to]: [src] gets leading axes of size one as needed. *)
Definition broadcast_to {A} (src tgt : list nat) (d : list A) : list A :=
  broadcast_aligned (replicate (length tgt - length src) 1 ++ src) tgt d.

Section numeric.
Context {R : Type} `{Scalar R}.

(** [mx.zeros(shape)] *)
Definition zeros (sh : list nat) : array R := Array sh (replicate (prod sh) s0).

(** Elementwise binary operations broadcast their operands. *)
Definition binary (f : R -> R -> R) (a b : array R) : option (array R) :=
  sh ← broadcast_shapes (shape a) (shape b);
  Some (Array sh (zip_with f (broadcast_to (shape a) sh (data a))
                             (broadcast_to (shape b) sh (data b)))).

(** [a + b] *)
Definition add : array R -> array R -> option (array R) := binary sadd.

(** [a * b] *)
Definition multiply : array R -> array R -> option (array R) := binary smul.

(** [a.swapaxes(-1, -2)]: every matrix of the last two axes is transposed. *)
Definition swapaxes_m1_m2 (a : array R) : option (array R) :=
  match reverse (shape a) with
  | c :: r :: b_rev =>
      Some (Array (reverse b_rev ++ [c; r])
                  (concat ((fun e =>
                              concat ((fun j => (fun i => nth (i * c + j) (row (r * c) e (data a)) s0)
                                                  <$> seq 0 r) <$> seq 0 c))
                             <$> seq 0 (prod b_rev))))
  | _ => None
  end.

(** The sum of the products of two vectors, accumulated from the left. *)
Definition dot (u v : list R) : R :=
  foldl (fun acc xy => sadd acc (smul xy.1 xy.2)) s0 (zip u v).

(** The product of an [m] by [k] matrix and a [k] by [n] matrix. *)
Definition matmul (m k n : nat) (a b : list R) : list R :=
  concat ((fun i => (fun j => dot (row k i a) ((fun l => nth (l * n + j) b s0) <$> seq 0 k))
                      <$> seq 0 n) <$> seq 0 m).

(** The indexed product of operands of at least two axes: matrix [p] of
    the result is matrix [p] of the batch of [a] times the matrix of [b]
    that [rhs_indices] names at [p], after the batch axes of [a] and the
    shape of [rhs_indices] are broadcast against each other.  The inner
    dimensions and the broadcast are checked; an index past the last matrix
    of [b] is not, and has no defined result. *)
Definition gather_mm_matrices (a b : array R) (rhs_indices : array nat) : option (array R) :=
  match reverse (shape a), reverse (shape b) with
  | ka :: m :: ba_rev, n :: kb :: bb_rev =>
      if ka =? kb then
        let ba := reverse ba_rev in
        bs ← broadcast_shapes ba (shape rhs_indices);
        let lhs := broadcast_to ba bs (seq 0 (prod ba)) in
        let rhs := broadcast_to (shape rhs_indices) bs (data rhs_indices) in
        if forallb (fun r => r <? prod bb_rev) rhs
        then Some (Array (bs ++ [m; n])
                         (concat (zip_with (fun l r => matmul m ka n (row (m * ka) l (data a))
                                                              (row (kb * n) r (data b)))
                                           lhs rhs)))
        else None
      else None
  | _, _ => None
  end.

(** [mx.gather_mm(a, b, rhs_indices=rhs_indices, sorted_indices=...)]: an
    operand of one axis is taken as a single row ([a]) or a single column
    ([b]) and the axis added for it is removed from the result; an operand
    of no axis is refused.  [sorted_indices] lets MLX choose a faster kernel
    and does not change which product is computed. *)
Definition gather_mm (a b : array R) (rhs_indices : array nat) (sorted_indices : bool)
  : option (array R) :=
  let a2 := if ndim a =? 1 then Array (1 :: shape a) (data a) else a in
  let b2 := if ndim b =? 1 then Array (shape b ++ [1]) (data b) else b in
  out ← gather_mm_matrices a2 b2 rhs_indices;
  out ← (if ndim a =? 1 then squeeze (-2) out else Some out);
  if ndim b =? 1 then squeeze (-1) out else Some out.

End numeric.
End mx.

(** ** The object store

    [mx.array] objects are mutable and Python names refer to them: a module
    attribute holds a reference to an array object, and two attributes may
    hold the same one.  The store lists the array objects created so far, a
    reference is a position in it.  The store also counts the draws made
    from the random generator. *)

Definition loc := nat.

Record world (R : Type) := World { objs : list (array R); draws : nat }.
Arguments World {R} _ _.
Arguments objs {R} _.
Arguments draws {R} _.

(** Computations that read and extend the store and may raise. *)
Definition M (R A : Type) : Type := world R -> option (A * world R).

Global Instance M_ret {R} : MRet (M R) := fun A a w => Some (a, w).
Global Instance M_bind {R} : MBind (M R) :=
  fun A B f m w => match m w with Some (a, w') => f a w' | None => None end.

(** A pure step that may raise. *)
Definition lift {R A} (o : option A) : M R A := fun w => a ← o; Some (a, w).

(** A new array object. *)
Definition new {R} (a : array R) : M R loc :=
  fun w => Some (length (objs w), World (objs w ++ [a]) (draws w)).

(** The array a reference points to. *)
Definition load {R} (l : loc) : M R (array R) := fun w => a ← objs w !! l; Some (a, w).

(** An update in place of the array object at [l] (such as [a[i] = v] or
    [a += b]): every holder of the reference sees the new contents.  None of
    the layers does this. *)
Definition overwrite {R} (l : loc) (a : array R) : M R () :=
  fun w => if bool_decide (l < length (objs w))
           then Some ((), World (<[l := a]> (objs w)) (draws w)) else None.

(** An [nn.Module] is a dictionary from attribute names to the array
    objects they hold. *)
Abbreviation params := (gmap string loc).

(** [self[name]] *)
Definition item {R} (self : params) (name : string) : M R (array R) :=
  l ← lift (self !! name); load l.

(** ** The capabilities taken from MLX as they are

    The random generator, the quantization kernel and the quantized indexed
    product are used through their interface only. *)
Class Kernels (R : Type) := {
  (** the [k]-th draw of the random generator *)
  sample : nat -> R;
  (** whether [mx.quantize] supports this group size and bit width *)
  quantize_supported : nat -> nat -> bool;
  (** the packed words, scales and biases [mx.quantize] computes *)
  quantize_data : nat -> nat -> array R -> list R * list R * list R;
  (** [mx.gather_qmm] *)
  gather_qmm : array R -> array R -> array R -> array R -> array nat ->
               bool -> nat -> nat -> bool -> option (array R)
}.

Section layers.
Context {R : Type} `{Scalar R} `{Kernels R}.

(** [mx.random.uniform(low, high, shape)]: the next [prod shape] draws. *)
Definition random_uniform (sh : list nat) : M R (array R) :=
  fun w => Some (Array sh ((fun k => sample (draws w + k)) <$> seq 0 (prod sh)),
                 World (objs w) (draws w + prod sh)).

(** [mx.quantize(w, group_size, bits)]: the last axis is cut in groups of
    [group_size] elements, each with one scale and one bias, and the
    elements are packed [32 / bits] to a word.  It raises on an array of
    fewer than two axes, on a last axis that [group_size] does not divide
    and on a group size or width it does not support. *)
Definition quantize (w : array R) (group_size bits : nat)
  : option (array R * array R * array R) :=
  match reverse (shape w) with
  | i :: o :: lead_rev =>
      if quantize_supported group_size bits && bool_decide (i `mod` group_size = 0)
      then
        let '(q, s, b) := quantize_data group_size bits w in
        let lead := reverse lead_rev in
        Some (Array (lead ++ [o; i * bits / 32]) q,
              Array (lead ++ [o; i / group_size]) s,
              Array (lead ++ [o; i / group_size]) b)
      else None
  | _ => None
  end.

(** ** [_gather_sort] and [_scatter_unsort] *)

Definition _gather_sort (x : array R) (indices : array nat)
  : option (array R * array nat * array nat) :=
  M ← last (shape indices);
  let indices := mx.flatten indices in
  order ← mx.argsort indices;
  inv_order ← mx.argsort order;
  xf ← mx.flatten_axes 0 (-3) x;
  xs ← mx.getitem xf (mx.floor_divide order M);
  idx ← mx.getitem indices order;
  Some (xs, idx, inv_order).

Definition _scatter_unsort (x : array R) (inv_order : array nat) (shape : option (list nat))
  : option (array R) :=
  x ← mx.getitem x inv_order;
  match shape with
  | Some sh => mx.unflatten x 0 sh
  | None => Some x
  end.

(** ** [QuantizedSwitchLinear] *)

Record QuantizedSwitchLinear := {
  ql_params : params;
  group_size : nat;
  bits : nat
}.

(** [ql.weight, ql.scales, ... = ...]: the unit with its attributes rebound. *)
Definition rebind (ql : QuantizedSwitchLinear) (p : params) : QuantizedSwitchLinear :=
  {| ql_params := p; group_size := group_size ql; bits := bits ql |}.

(** [math.sqrt(1 / input_dims)] raises when [input_dims] is zero; its value
    only bounds the random draws. *)
Definition init_scale (input_dims : nat) : M R () :=
  if input_dims =? 0 then lift None else mret ().

(** [QuantizedSwitchLinear.__init__]; an argument left out is [None] and
    takes its default. *)
Definition QuantizedSwitchLinear_init (input_dims output_dims num_experts : nat)
    (bias : option bool) (group_size bits : option nat) : M R QuantizedSwitchLinear :=
  let bias := default true bias in
  let group_size := default 64 group_size in
  let bits := default 4 bits in
  _ ← init_scale input_dims;
  u ← random_uniform [num_experts; output_dims; input_dims];
  '(q, s, b) ← lift (quantize u group_size bits);
  weight ← new q;
  scales ← new s;
  biases ← new b;
  let self : params := <["biases" := biases]> (<["scales" := scales]> {["weight" := weight]}) in
  self ← (if bias then
            z ← new (mx.zeros [num_experts; output_dims]);
            mret (<["bias" := z]> self)
          else mret self);
  mret {| ql_params := self; group_size := group_size; bits := bits |}.

(** [self.scales.shape[2] * self.group_size] *)
Definition ql_input_dims (self : QuantizedSwitchLinear) : M R nat :=
  s ← item (ql_params self) "scales";
  d ← lift (shape s !! 2);
  mret (d * group_size self).

(** [self.weight.shape[1]] *)
Definition ql_output_dims (self : QuantizedSwitchLinear) : M R nat :=
  w ← item (ql_params self) "weight";
  lift (shape w !! 1).

(** [self.weight.shape[0]] *)
Definition ql_num_experts (self : QuantizedSwitchLinear) : M R nat :=
  w ← item (ql_params self) "weight";
  lift (shape w !! 0).

(** [QuantizedSwitchLinear.__call__] *)
Definition QuantizedSwitchLinear_call (self : QuantizedSwitchLinear) (x : array R)
    (indices : array nat) (sorted_indices : bool) : M R (array R) :=
  w ← item (ql_params self) "weight";
  s ← item (ql_params self) "scales";
  b ← item (ql_params self) "biases";
  x ← lift (gather_qmm x w s b indices true (group_size self) (bits self) sorted_indices);
  if bool_decide (is_Some (ql_params self !! "bias")) then
    bias ← item (ql_params self) "bias";
    bi ← lift (mx.getitem bias indices);
    be ← lift (mx.expand_dims [-2]%Z bi);
    lift (mx.add x be)
  else mret x.

(** ** [SwitchLinear] *)

Record SwitchLinear := { sl_params : params }.

(** [SwitchLinear.__init__] *)
Definition SwitchLinear_init (input_dims output_dims num_experts : nat)
    (bias : option bool) : M R SwitchLinear :=
  let bias := default true bias in
  _ ← init_scale input_dims;
  u ← random_uniform [num_experts; output_dims; input_dims];
  weight ← new u;
  let self : params := {["weight" := weight]} in
  self ← (if bias then
            z ← new (mx.zeros [num_experts; output_dims]);
            mret (<["bias" := z]> self)
          else mret self);
  mret {| sl_params := self |}.

(** [self.weight.shape[2]] *)
Definition input_dims (self : SwitchLinear) : M R nat :=
  w ← item (sl_params self) "weight";
  lift (shape w !! 2).

(** [self.weight.shape[1]] *)
Definition output_dims (self : SwitchLinear) : M R nat :=
  w ← item (sl_params self) "weight";
  lift (shape w !! 1).

(** [self.weight.shape[0]] *)
Definition num_experts (self : SwitchLinear) : M R nat :=
  w ← item (sl_params self) "weight";
  lift (shape w !! 0).

(** [SwitchLinear.__call__] *)
Definition SwitchLinear_call (self : SwitchLinear) (x : array R)
    (indices : array nat) (sorted_indices : bool) : M R (array R) :=
  w ← item (sl_params self) "weight";
  wt ← lift (mx.swapaxes_m1_m2 w);
  x ← lift (mx.gather_mm x wt indices sorted_indices);
  if bool_decide (is_Some (sl_params self !! "bias")) then
    bias ← item (sl_params self) "bias";
    bi ← lift (mx.getitem bias indices);
    be ← lift (mx.expand_dims [-2]%Z bi);
    lift (mx.add x be)
  else mret x.

(** [SwitchLinear.to_quantized] *)
Definition to_quantized (self : SwitchLinear) (group_size bits : option nat)
  : M R QuantizedSwitchLinear :=
  let group_size := default 64 group_size in
  let bits := default 4 bits in
  w ← item (sl_params self) "weight";
  match shape w with
  | [num_experts; output_dims; input_dims] =>
      ql ← QuantizedSwitchLinear_init input_dims output_dims num_experts (Some false)
             (Some group_size) (Some bits);
      w ← item (sl_params self) "weight";
      '(q, s, b) ← lift (quantize w group_size bits);
      weight ← new q;
      scales ← new s;
      biases ← new b;
      let p : params :=
        <["biases" := biases]> (<["scales" := scales]> (<["weight" := weight]> (ql_params ql))) in
      p ← (if bool_decide (is_Some (sl_params self !! "bias")) then
             bias ← lift (sl_params self !! "bias");
             mret (<["bias" := bias]> p)
           else mret p);
      mret (rebind ql p)
  | _ => lift None
  end.

(** ** [SwitchGLU] *)

(** An activation is applied to every element. *)
Definition apply_activation (act : R -> R) (a : array R) : array R :=
  Array (shape a) (act <$> data a).

Record SwitchGLU := {
  gate_proj : SwitchLinear;
  up_proj : SwitchLinear;
  down_proj : SwitchLinear;
  glu_activation : R -> R;
  glu_training : bool
}.

(** [SwitchGLU.__init__]; [bias] defaults to [False].  A module starts in
    training mode. *)
Definition SwitchGLU_init (input_dims hidden_dims num_experts : nat)
    (activation : R -> R) (bias : option bool) : M R SwitchGLU :=
  let bias := default false bias in
  g ← SwitchLinear_init input_dims hidden_dims num_experts (Some bias);
  u ← SwitchLinear_init input_dims hidden_dims num_experts (Some bias);
  d ← SwitchLinear_init hidden_dims input_dims num_experts (Some bias);
  mret {| gate_proj := g; up_proj := u; down_proj := d;
          glu_activation := activation; glu_training := true |}.

(** [do_sort = indices.size >= 64] *)
Definition do_sort (indices : array nat) : bool := bool_decide (64 ≤ size indices).

(** The body of [SwitchGLU.__call__], with the value of [do_sort] as the
    argument [sorted]. *)
Definition SwitchGLU_body (sorted : bool) (self : SwitchGLU) (x : array R)
    (indices : array nat) : M R (array R) :=
  x ← lift (mx.expand_dims [-2; -3]%Z x);
  let idx := indices in
  let inv_order := None in
  '(x, idx, inv_order) ←
    (if sorted then
       '(x, idx, inv_order) ← lift (_gather_sort x indices);
       mret (x, idx, Some inv_order)
     else mret (x, idx, inv_order));
  let idx := if glu_training self then mx.stop_gradient idx else idx in
  x_up ← SwitchLinear_call (up_proj self) x idx sorted;
  x_gate ← SwitchLinear_call (gate_proj self) x idx sorted;
  h ← lift (mx.multiply (apply_activation (glu_activation self) x_gate) x_up);
  x ← SwitchLinear_call (down_proj self) h idx sorted;
  x ← (if sorted then
         inv_order ← lift inv_order;
         lift (_scatter_unsort x inv_order (Some (shape indices)))
       else mret x);
  lift (mx.squeeze (-2) x).

(** [SwitchGLU.__call__] *)
Definition SwitchGLU_call (self : SwitchGLU) (x : array R) (indices : array nat)
  : M R (array R) :=
  SwitchGLU_body (do_sort indices) self x indices.

(** ** [SwitchMLP] *)

Record SwitchMLP := {
  fc1 : SwitchLinear;
  fc2 : SwitchLinear;
  mlp_activation : R -> R;
  mlp_training : bool
}.

(** [SwitchMLP.__init__]; [bias] defaults to [False]. *)
Definition SwitchMLP_init (input_dims hidden_dims num_experts : nat)
    (activation : R -> R) (bias : option bool) : M R SwitchMLP :=
  let bias := default false bias in
  f1 ← SwitchLinear_init input_dims hidden_dims num_experts (Some bias);
  f2 ← SwitchLinear_init hidden_dims input_dims num_experts (Some bias);
  mret {| fc1 := f1; fc2 := f2; mlp_activation := activation; mlp_training := true |}.

(** The body of [SwitchMLP.__call__], with the value of [do_sort] as the
    argument [sorted]. *)
Definition SwitchMLP_body (sorted : bool) (self : SwitchMLP) (x : array R)
    (indices : array nat) : M R (array R) :=
  x ← lift (mx.expand_dims [-2; -3]%Z x);
  let idx := indices in
  let inv_order := None in
  '(x, idx, inv_order) ←
    (if sorted then
       '(x, idx, inv_order) ← lift (_gather_sort x indices);
       mret (x, idx, Some inv_order)
     else mret (x, idx, inv_order));
  let idx := if mlp_training self then mx.stop_gradient idx else idx in
  x ← SwitchLinear_call (fc1 self) x idx sorted;
  let x := apply_activation (mlp_activation self) x in
  x ← SwitchLinear_call (fc2 self) x idx sorted;
  x ← (if sorted then
         inv_order ← lift inv_order;
         lift (_scatter_unsort x inv_order (Some (shape indices)))
       else mret x);
  lift (mx.squeeze (-2) x).

(** [SwitchMLP.__call__] *)
Definition SwitchMLP_call (self : SwitchMLP) (x : array R) (indices : array nat)
  : M R (array R) :=
  SwitchMLP_body (do_sort indices) self x indices.

End layers.

(** ** What the layers are compared with *)

(** The rows [f 0], ..., [f (n - 1)] laid out one after the other. *)
Definition tabulate {A} (f : nat -> list A) (n : nat) : list A := concat (f <$> seq 0 n).

(** The order of a stable sort of positions by key. *)
Definition before (key : nat -> nat) (p q : nat) : Prop :=
  key p < key q \/ (key p = key q /\ p < q).

Section reference.
Context {R : Type} `{Scalar R} `{Kernels R}.

(** One expert of a unit applied to one input vector [v]: component [j] of
    the result is the product of [v] with row [j] of the matrix
    [weight[e]], that is [weight[e]] transposed applied to [v]; then
    [bias[e]] is added when the unit has a bias. *)
Definition expert_linear (w : array R) (b : option (array R)) (e : nat) (v : list R) : list R :=
  match shape w with
  | [_; o; i] =>
      let y := (fun j => mx.dot v (row i j (row (o * i) e (data w)))) <$> seq 0 o in
      match b with
      | Some bias => zip_with sadd y (row o e (data bias))
      | None => y
      end
  | _ => []
  end.

(** [down(act(gate(v, e)) * up(v, e), e)] *)
Definition glu_expert (act : R -> R) (wg : array R) (bg : option (array R))
    (wu : array R) (bu : option (array R)) (wd : array R) (bd : option (array R))
    (e : nat) (v : list R) : list R :=
  expert_linear wd bd e
    (zip_with smul (act <$> expert_linear wg bg e v) (expert_linear wu bu e v)).

(** [fc2(act(fc1(v, e)), e)] *)
Definition mlp_expert (act : R -> R) (w1 : array R) (b1 : option (array R))
    (w2 : array R) (b2 : option (array R)) (e : nat) (v : list R) : list R :=
  expert_linear w2 b2 e (act <$> expert_linear w1 b1 e v).

(** The transposed matrices [swapaxes] lays out for a weight tensor. *)
Definition transposed (o i : nat) (w : list R) (e : nat) : list R :=
  tabulate (fun j => (fun k => nth (k * i + j) (row (o * i) e w) s0) <$> seq 0 o) i.

(** The three arrays [quantize] returns for a weight tensor of shape
    [E; O; I]. *)
Definition quantized (g bt : nat) (w : array R) (E O I : nat) : array R * array R * array R :=
  let '(q, s, b) := quantize_data g bt w in
  (Array [E; O; I * bt / 32] q, Array [E; O; I / g] s, Array [E; O; I / g] b).

(** Attribute [name] of a module holds array [a] in the store [wd]. *)
Definition has_param (wd : world R) (p : params) (name : string) (a : array R) : Prop :=
  exists l, p !! name = Some l /\ objs wd !! l = Some a.

(** The unit [self] holds weight [w] and bias [b] in the store [wd], of the
    shapes a unit of [E] experts from [I] to [O] dimensions has. *)
Definition unit_at (wd : world R) (self : SwitchLinear) (w : array R) (b : option (array R))
    (E O I : nat) : Prop :=
  has_param wd (sl_params self) "weight" w /\ shape w = [E; O; I] /\ wf w /\
  match b with
  | Some bias => has_param wd (sl_params self) "bias" bias /\ shape bias = [E; O] /\ wf bias
  | None => sl_params self !! "bias" = None
  end.

(** [experts] computes [G] row by row: row [p] of its result is [G] of the
    index at [p] and of the row of the input that broadcasting pairs with
    [p]; the store is left as it was. *)
Definition rowwise (wd : world R) (experts : array R -> array nat -> M R (array R))
    (E I O : nat) (G : nat -> list R -> list R) : Prop :=
  (forall e v, e < E -> length v = I -> length (G e v) = O) /\
  (forall (x : array R) (J : array nat) bx,
     shape x = bx ++ [1; I] ->
     mx.broadcast_shapes bx (shape J) = Some (shape J) ->
     wf J -> Forall (fun e => e < E) (data J) ->
     let lhs := mx.broadcast_to bx (shape J) (seq 0 (prod bx)) in
     length lhs = size J ->
     (forall p, p < size J -> length (row I (nth p lhs 0) (data x)) = I) ->
     experts x J wd
     = Some (Array (shape J ++ [1; O])
                   (tabulate (fun p => G (nth p (data J) 0) (row I (nth p lhs 0) (data x)))
                             (size J)), wd)).

(** The steps [SwitchGLU.__call__] and [SwitchMLP.__call__] have in common,
    around the projections [experts] of the block. *)
Definition scaffold (training : bool) (experts : array R -> array nat -> M R (array R))
    (sorted : bool) (x : array R) (indices : array nat) : M R (array R) :=
  x ← lift (mx.expand_dims [-2; -3]%Z x);
  let idx := indices in
  let inv_order := None in
  '(x, idx, inv_order) ←
    (if sorted then
       '(x, idx, inv_order) ← lift (_gather_sort x indices);
       mret (x, idx, Some inv_order)
     else mret (x, idx, inv_order));
  let idx := if training then mx.stop_gradient idx else idx in
  x ← experts x idx;
  x ← (if sorted then
         inv_order ← lift inv_order;
         lift (_scatter_unsort x inv_order (Some (shape indices)))
       else mret x);
  lift (mx.squeeze (-2) x).

(** The projections of [SwitchGLU.__call__]. *)
Definition glu_experts (self : SwitchGLU) (sorted : bool) (x : array R) (idx : array nat)
  : M R (array R) :=
  x_up ← SwitchLinear_call (up_proj self) x idx sorted;
  x_gate ← SwitchLinear_call (gate_proj self) x idx sorted;
  h ← lift (mx.multiply (apply_activation (glu_activation self) x_gate) x_up);
  SwitchLinear_call (down_proj self) h idx sorted.

(** The projections of [SwitchMLP.__call__]. *)
Definition mlp_experts (self : SwitchMLP) (sorted : bool) (x : array R) (idx : array nat)
  : M R (array R) :=
  x ← SwitchLinear_call (fc1 self) x idx sorted;
  let x := apply_activation (mlp_activation self) x in
  SwitchLinear_call (fc2 self) x idx sorted.

(** The block [self] holds units of [E] experts between [D] and [Hd]
    dimensions in the store [wd]. *)
Definition glu_at (wd : world R) (self : @SwitchGLU R)
    (wg : array R) (bg : option (array R)) (wu : array R) (bu : option (array R))
    (wdn : array R) (bd : option (array R)) (E Hd D : nat) : Prop :=
  unit_at wd (gate_proj self) wg bg E Hd D /\
  unit_at wd (up_proj self) wu bu E Hd D /\
  unit_at wd (down_proj self) wdn bd E D Hd.

Definition mlp_at (wd : world R) (self : @SwitchMLP R)
    (w1 : array R) (b1 : option (array R)) (w2 : array R) (b2 : option (array R))
    (E Hd D : nat) : Prop :=
  unit_at wd (fc1 self) w1 b1 E Hd D /\ unit_at wd (fc2 self) w2 b2 E D Hd.





End reference.

(** ** A concrete instance

    Integers as elements, and stand-ins for the capabilities: draw [k] of
    the generator is [k]; the supported group sizes are 32, 64 and 128 and
    the widths 2, 3, 4, 6 and 8; the quantizer returns zero words, unit
    scales and zero biases of the sizes [mx.quantize] returns; the quantized
    product returns zeros of the shape of the result. *)

Definition Z_quantize_data (g bt : nat) (w : array Z) : list Z * list Z * list Z :=
  match reverse (shape w) with
  | i :: lead_rev =>
      (replicate (prod lead_rev * (i * bt / 32)) 0%Z,
       replicate (prod lead_rev * (i / g)) 1%Z,
       replicate (prod lead_rev * (i / g)) 0%Z)
  | [] => ([], [], [])
  end.

Definition Z_gather_qmm (x w s b : array Z) (idx : array nat) (transpose : bool)
    (g bt : nat) (sorted : bool) : option (array Z) :=
  o ← shape w !! 1;
  Some (mx.zeros (shape idx ++ [1; o])).

Global Instance Z_Kernels : Kernels Z := {|
  sample := Z.of_nat;
  quantize_supported := fun g bt =>
    bool_decide (g ∈ [32; 64; 128]) && bool_decide (bt ∈ [2; 3; 4; 6; 8]);
  quantize_data := Z_quantize_data;
  gather_qmm := Z_gather_qmm
|}.

(** The empty store. *)
Definition world0 : world Z := World [] 0.

(** A store with three weights for two experts between two and one
    dimensions, and a bias. *)
Definition ex_world : world Z :=
  World [Array [2; 1; 2] [1; 2; 3; 4]%Z;
         Array [2; 1; 2] [5; 6; 7; 8]%Z;
         Array [2; 2; 1] [1; -1; 2; 3]%Z;
         Array [2; 1] [10; 20]%Z] 0.

Definition ex_gate : SwitchLinear := {| sl_params := {["weight" := 0]} |}.
Definition ex_up : SwitchLinear := {| sl_params := {["weight" := 1]} |}.
Definition ex_down : SwitchLinear := {| sl_params := {["weight" := 2]} |}.
Definition ex_biased : SwitchLinear := {| sl_params := <["bias" := 3]> {["weight" := 0]} |}.

Definition ex_glu : @SwitchGLU Z :=
  {| gate_proj := ex_gate; up_proj := ex_up; down_proj := ex_down;
     glu_activation := fun z => (z * z)%Z; glu_training := true |}.

Definition ex_mlp : @SwitchMLP Z :=
  {| fc1 := ex_gate; fc2 := ex_down;
     mlp_activation := fun z => (z * z)%Z; mlp_training := true |}.

(** Two tokens with two slots each. *)
Definition ex_x : array Z := Array [1; 2; 2] [1; 2; 3; 4]%Z.
Definition ex_indices : array nat := Array [1; 2; 2] [1; 0; 0; 0].

(** The input of the first projections of a block: [ex_x] with its two
    added axes. *)
Definition ex_x5 : array Z := Array [1; 2; 1; 1; 2] [1; 2; 3; 4]%Z.


(** A unit with a bias whose input dimension a group size of 32 divides. *)
Definition ex_world32 : world Z :=
  World [Array [1; 1; 32] (replicate 32 1%Z); Array [1; 1] [5]%Z] 0.
Definition ex_wide : SwitchLinear := {| sl_params := <["bias" := 1]> {["weight" := 0]} |}.


(** ** Stores that grow *)

Section store_relations.
Context {R : Type}.

(** One store extends another: every array object of the first is in the
    second, unchanged. *)
Definition extends (wd wd' : world R) : Prop :=
  forall l a, objs wd !! l = Some a -> objs wd' !! l = Some a.


End store_relations.

(** ** More concrete inputs *)

(** The sorted rows, sorted indices and inverse permutation of [ex_x5] and
    [ex_indices]. *)
Definition ex_sorted_x : array Z := Array [4; 1; 2] [1; 2; 3; 4; 3; 4; 1; 2]%Z.
Definition ex_sorted_indices : array nat := Array [4] [0; 0; 0; 1].
Definition ex_inv_order : array nat := Array [4] [3; 0; 1; 2].

(** Two tokens as a matrix, with two slots each. *)
Definition ex_x_flat : array Z := Array [2; 2] [1; 2; 3; 4]%Z.
Definition ex_indices_flat : array nat := Array [2; 2] [1; 0; 0; 0].

(** Tokens of three features, one too many for the units of [ex_world]. *)
Definition ex_x_wide : array Z := Array [1; 2; 3] [1; 2; 3; 4; 5; 6]%Z.

(** A quantized unit with a bias over [ex_world]. *)
Definition ex_qlb : QuantizedSwitchLinear :=
  {| ql_params := <["bias" := 3]> (<["biases" := 2]> (<["scales" := 1]> {["weight" := 0]}));
     group_size := 32; bits := 4 |}.


(** One token of 32 features and its expert. *)
Definition ex_x32 : array Z := Array [1; 1; 32] (replicate 32 2%Z).
Definition ex_index32 : array nat := Array [1] [0].

(** ** Proof steps used more than once *)

(** Case analysis on every step of a computation in the store. *)
Ltac case_steps :=
  repeat match goal with
         | |- context [match ?m ?w with Some _ => _ | None => _ end] =>
             destruct (m w) as [[? ?]|]; try reflexivity
         | |- context [let '(_, _) := ?p in _] => destruct p
         | |- context [if ?b then _ else _] => destruct b
         end.

(** A module holds the given arrays in a concrete store. *)
Ltac holds :=
  unfold glu_at, mlp_at, unit_at, has_param;
  repeat (first [split | eexists]); try reflexivity.

(** A decidable proposition about concrete data. *)
Ltac decided := apply (bool_decide_unpack _); vm_compute; exact I.

(** * Properties *)

(** ** Rows of a flat element list *)

Lemma prod_app s t : prod (s ++ t) = prod s * prod t.
Proof. induction s as [|a s IH]; simpl; [lia|]. rewrite IH. lia. Qed.

Lemma length_row_le {A} r i (d : list A) : length (row r i d) <= r.
Proof. unfold row. rewrite length_take. lia. Qed.

Lemma length_row {A} r i (d : list A) : (S i) * r <= length d -> length (row r i d) = r.
Proof. intros Hl. unfold row. rewrite length_take, length_drop. lia. Qed.

Lemma row_0 {A} r (d : list A) : length d <= r -> row r 0 d = d.
Proof. intros. unfold row. rewrite Nat.mul_0_l, drop_0. by rewrite take_ge. Qed.

Lemma row_app_S {A} r i (a d : list A) : length a = r -> row r (S i) (a ++ d) = row r i d.
Proof.
  intros Ha. unfold row. f_equal. replace (S i * r) with (length a + i * r) by lia.
  by rewrite drop_app_add.
Qed.

Lemma row_app_0 {A} r (a d : list A) : length a = r -> row r 0 (a ++ d) = a.
Proof. intros Ha. unfold row. rewrite Nat.mul_0_l, drop_0. by rewrite take_app_length'. Qed.

Lemma row_concat {A} r (ls : list (list A)) i :
  Forall (fun l => length l = r) ls -> i < length ls ->
  row r i (concat ls) = nth i ls [].
Proof.
  intros Hall. revert i. induction Hall as [|a ls Ha Hall IH]; intros i Hi; simpl in *; [lia|].
  destruct i as [|i].
  - by apply row_app_0.
  - rewrite row_app_S by done. apply IH. lia.
Qed.

Lemma length_concat_const {A} r (ls : list (list A)) :
  Forall (fun l => length l = r) ls -> length (concat ls) = length ls * r.
Proof.
  induction 1 as [|a ls Ha Hall IH]; simpl; [done|]. rewrite length_app, IH. lia.
Qed.

Lemma length_tabulate {A} (f : nat -> list A) n r :
  (forall p, p < n -> length (f p) = r) -> length (tabulate f n) = n * r.
Proof.
  intros Hf. unfold tabulate. rewrite (length_concat_const r).
  - by rewrite length_fmap, length_seq.
  - apply Forall_fmap, Forall_forall. intros p Hp. apply elem_of_seq in Hp. apply Hf. lia.
Qed.

Lemma row_tabulate {A} (f : nat -> list A) n r p :
  (forall q, q < n -> length (f q) = r) -> p < n -> row r p (tabulate f n) = f p.
Proof.
  intros Hf Hp. unfold tabulate. rewrite row_concat.
  - rewrite nth_lookup, list_lookup_fmap, lookup_seq_lt by done. done.
  - apply Forall_fmap, Forall_forall. intros q Hq. apply elem_of_seq in Hq. apply Hf. lia.
  - by rewrite length_fmap, length_seq.
Qed.

Lemma tabulate_ext {A} (f g : nat -> list A) n :
  (forall p, p < n -> f p = g p) -> tabulate f n = tabulate g n.
Proof.
  intros Hfg. unfold tabulate. f_equal. apply list_fmap_ext.
  intros i x Hx. apply lookup_seq in Hx as [-> Hi]. apply Hfg. lia.
Qed.

Lemma tabulate_rows {A} r n (d : list A) :
  length d = n * r -> tabulate (fun p => row r p d) n = d.
Proof.
  revert d. induction n as [|n IH]; intros d Hd.
  - destruct d; [done|simpl in Hd; lia].
  - unfold tabulate. rewrite seq_S, fmap_app, concat_app. simpl. rewrite app_nil_r.
    fold (tabulate (fun p => row r p d) n).
    rewrite <- (take_drop (n * r) d) at 2. f_equal.
    + rewrite <- (IH (take (n * r) d)) by (rewrite length_take; lia).
      apply tabulate_ext. intros p Hp. unfold row.
      assert (p * r + r <= n * r) by nia.
      rewrite !take_drop_commute. f_equal. rewrite take_take. f_equal. lia.
    + unfold row. apply take_ge. rewrite length_drop. lia.
Qed.

Lemma tabulate_fmap {A B} (g : A -> B) (f : nat -> list A) n :
  g <$> tabulate f n = tabulate (fun p => g <$> f p) n.
Proof.
  unfold tabulate. induction (seq 0 n) as [|a l IH]; [done|].
  rewrite !fmap_cons. cbn [concat]. by rewrite fmap_app, IH.
Qed.

Lemma tabulate_zip_with {A B C} (h : A -> B -> C) (f : nat -> list A) (g : nat -> list B) n :
  (forall p, p < n -> length (f p) = length (g p)) ->
  zip_with h (tabulate f n) (tabulate g n) = tabulate (fun p => zip_with h (f p) (g p)) n.
Proof.
  intros Hl. unfold tabulate.
  assert (Hin : forall p, p ∈ seq 0 n -> length (f p) = length (g p)).
  { intros p Hp. apply elem_of_seq in Hp. apply Hl. lia. }
  clear Hl. induction (seq 0 n) as [|a l IH]; [done|].
  rewrite !fmap_cons. cbn [concat].
  rewrite zip_with_app by (apply Hin; left). f_equal. apply IH.
  intros p Hp. apply Hin. by right.
Qed.

Lemma concat_fmap_tabulate {A} (f : nat -> list A) (l : list nat) :
  concat (f <$> l) = tabulate (fun p => f (nth p l 0)) (length l).
Proof.
  unfold tabulate. f_equal. apply list_eq. intros i.
  rewrite !list_lookup_fmap. destruct (decide (i < length l)) as [Hi|Hi].
  - rewrite lookup_seq_lt by done. simpl.
    destruct (lookup_lt_is_Some_2 l i Hi) as [x Hx]. rewrite Hx. simpl.
    by rewrite (nth_lookup_Some _ _ _ _ Hx).
  - rewrite lookup_seq_ge by lia. rewrite lookup_ge_None_2 by lia. done.
Qed.

Lemma concat_zip_with_tabulate {A} (h : nat -> nat -> list A) (l1 l2 : list nat) n :
  length l1 = n -> length l2 = n ->
  concat (zip_with h l1 l2) = tabulate (fun p => h (nth p l1 0) (nth p l2 0)) n.
Proof.
  intros H1 H2. unfold tabulate. f_equal. apply list_eq. intros i.
  rewrite lookup_zip_with, list_lookup_fmap. destruct (decide (i < n)) as [Hi|Hi].
  - rewrite lookup_seq_lt by done. simpl.
    destruct (lookup_lt_is_Some_2 l1 i) as [x Hx]; [lia|].
    destruct (lookup_lt_is_Some_2 l2 i) as [y Hy]; [lia|].
    rewrite Hx, Hy. simpl.
    by rewrite (nth_lookup_Some _ _ _ _ Hx), (nth_lookup_Some _ _ _ _ Hy).
  - rewrite lookup_seq_ge by lia. rewrite (lookup_ge_None_2 l1) by lia. done.
Qed.

(** ** Sorting positions by key *)

Lemma insert_pos_perm key p l : mx.insert_pos key p l ≡ₚ p :: l.
Proof.
  induction l as [|q l IH]; simpl; [done|].
  destruct (key p <=? key q); [done|]. rewrite IH. apply Permutation_swap.
Qed.

Lemma sort_positions_perm key l : foldr (mx.insert_pos key) [] l ≡ₚ l.
Proof.
  induction l as [|p l IH]; simpl; [done|]. by rewrite insert_pos_perm, IH.
Qed.

Lemma argsort_list_perm keys : mx.argsort_list keys ≡ₚ seq 0 (length keys).
Proof. apply sort_positions_perm. Qed.

Lemma length_argsort_list keys : length (mx.argsort_list keys) = length keys.
Proof. by rewrite argsort_list_perm, length_seq. Qed.

Lemma insert_pos_sorted key p l :
  StronglySorted (before key) l -> Forall (fun q => p < q) l ->
  StronglySorted (before key) (mx.insert_pos key p l).
Proof.
  induction 1 as [|q l Hs IH Hq]; intros Hp; simpl.
  - repeat constructor.
  - apply Forall_cons in Hp as [Hpq Hp].
    destruct (Nat.leb_spec (key p) (key q)) as [Hk|Hk].
    + constructor; [by constructor|]. constructor.
      * unfold before. lia.
      * rewrite Forall_forall in *. intros r Hr.
        specialize (Hq r Hr). specialize (Hp r Hr). unfold before in *. lia.
    + constructor; [by apply IH|].
      rewrite insert_pos_perm. constructor; [|done]. unfold before. lia.
Qed.

Lemma sort_positions_sorted key a n :
  StronglySorted (before key) (foldr (mx.insert_pos key) [] (seq a n)).
Proof.
  revert a. induction n as [|n IH]; intros a; simpl; [constructor|].
  apply insert_pos_sorted; [apply IH|].
  rewrite sort_positions_perm. apply Forall_forall. intros q Hq.
  apply elem_of_seq in Hq. lia.
Qed.

Lemma argsort_list_sorted keys :
  StronglySorted (before (fun i => nth i keys 0)) (mx.argsort_list keys).
Proof. apply sort_positions_sorted. Qed.

Lemma StronglySorted_lookup {A} (Rel : relation A) l i j x y :
  StronglySorted Rel l -> i < j -> l !! i = Some x -> l !! j = Some y -> Rel x y.
Proof.
  intros Hs. revert i j. induction Hs as [|a l Hs IH Ha]; intros i j Hij Hi Hj; [done|].
  destruct j as [|j]; [lia|]. simpl in Hj. destruct i as [|i].
  - simpl in Hi. injection Hi as ->. rewrite Forall_forall in Ha. apply Ha.
    by eapply list_elem_of_lookup_2.
  - simpl in Hi. apply (IH i j); [lia|done..].
Qed.

Lemma fmap_nth_seq (l : list nat) : (fun i => nth i l 0) <$> seq 0 (length l) = l.
Proof.
  apply list_eq. intros i. rewrite list_lookup_fmap.
  destruct (decide (i < length l)) as [Hi|Hi].
  - rewrite lookup_seq_lt by done. simpl.
    destruct (lookup_lt_is_Some_2 l i Hi) as [x Hx]. rewrite Hx.
    by rewrite (nth_lookup_Some _ _ _ _ Hx).
  - rewrite lookup_seq_ge by lia. by rewrite lookup_ge_None_2 by lia.
Qed.

Lemma StronglySorted_fmap {A B} (Ra : relation A) (Rb : relation B) (f : A -> B) l :
  (forall x y, x ∈ l -> y ∈ l -> Ra x y -> Rb (f x) (f y)) ->
  StronglySorted Ra l -> StronglySorted Rb (f <$> l).
Proof.
  intros Hf Hs. induction Hs as [|a l Hs IH Ha]; [constructor|].
  rewrite fmap_cons. constructor.
  - apply IH. intros x y Hx Hy. apply Hf; by right.
  - apply Forall_fmap. rewrite Forall_forall in *. intros y Hy. simpl.
    apply Hf; [by left|by right|by apply Ha].
Qed.

Lemma StronglySorted_seq a n : StronglySorted lt (seq a n).
Proof.
  revert a. induction n as [|n IH]; intros a; simpl; constructor; [apply IH|].
  apply Forall_forall. intros q Hq. apply elem_of_seq in Hq. lia.
Qed.

(** The keys read in sorted order are non-decreasing. *)
Lemma argsort_list_keys_sorted keys :
  StronglySorted le ((fun i => nth i keys 0) <$> mx.argsort_list keys).
Proof.
  eapply StronglySorted_fmap; [|apply argsort_list_sorted].
  intros x y _ _ Hb. unfold before in Hb. simpl. lia.
Qed.

Lemma nth_perm_lt (o : list nat) n i :
  o ≡ₚ seq 0 n -> i < n -> nth i o 0 < n.
Proof.
  intros Hp Hi. assert (Hl : length o = n) by (by rewrite Hp, length_seq).
  destruct (lookup_lt_is_Some_2 o i) as [x Hx]; [lia|].
  rewrite (nth_lookup_Some _ _ _ _ Hx).
  apply list_elem_of_lookup_2 in Hx. rewrite Hp in Hx. apply elem_of_seq in Hx. lia.
Qed.

Lemma nth_perm_inj (o : list nat) n i j :
  o ≡ₚ seq 0 n -> i < n -> j < n -> nth i o 0 = nth j o 0 -> i = j.
Proof.
  intros Hp Hi Hj Heq. assert (Hl : length o = n) by (by rewrite Hp, length_seq).
  assert (Hnd : NoDup o) by (rewrite Hp; apply NoDup_seq).
  destruct (lookup_lt_is_Some_2 o i) as [x Hx]; [lia|].
  destruct (lookup_lt_is_Some_2 o j) as [y Hy]; [lia|].
  rewrite (nth_lookup_Some _ _ _ _ Hx), (nth_lookup_Some _ _ _ _ Hy) in Heq. subst y.
  eapply NoDup_lookup; eauto.
Qed.

(** Sorting a permutation of the positions by value yields the positions of
    its values: reading the permutation at the result gives the identity. *)
Lemma argsort_list_perm_inverse_r (o : list nat) n :
  o ≡ₚ seq 0 n -> (fun i => nth i o 0) <$> mx.argsort_list o = seq 0 n.
Proof.
  intros Hp. assert (Hl : length o = n) by (by rewrite Hp, length_seq).
  apply (StronglySorted_unique_strong lt).
  - intros; lia.
  - eapply StronglySorted_fmap; [|apply argsort_list_sorted].
    intros x y Hx Hy Hb. rewrite argsort_list_perm, Hl in Hx, Hy.
    apply elem_of_seq in Hx, Hy. destruct Hb as [Hb|[Hb Hlt]]; [done|].
    apply (nth_perm_inj o n) in Hb; [lia|done|lia..].
  - apply StronglySorted_seq.
  - rewrite argsort_list_perm, fmap_nth_seq. done.
Qed.

Lemma argsort_list_inverse_r (o : list nat) n j :
  o ≡ₚ seq 0 n -> j < n -> nth (nth j (mx.argsort_list o) 0) o 0 = j.
Proof.
  intros Hp Hj. assert (Hl : length o = n) by (by rewrite Hp, length_seq).
  pose proof (argsort_list_perm_inverse_r o n Hp) as Hs.
  assert (Hlk : ((fun i => nth i o 0) <$> mx.argsort_list o) !! j = Some j).
  { rewrite Hs. by rewrite lookup_seq_lt. }
  rewrite list_lookup_fmap in Hlk.
  destruct (mx.argsort_list o !! j) as [x|] eqn:Hx; [|done].
  rewrite (nth_lookup_Some _ _ _ _ Hx). simpl in Hlk. by injection Hlk.
Qed.

Lemma argsort_list_inverse_l (o : list nat) n i :
  o ≡ₚ seq 0 n -> i < n -> nth (nth i o 0) (mx.argsort_list o) 0 = i.
Proof.
  intros Hp Hi. assert (Hl : length o = n) by (by rewrite Hp, length_seq).
  assert (Hpi : mx.argsort_list o ≡ₚ seq 0 n) by (by rewrite argsort_list_perm, Hl).
  pose proof (nth_perm_lt o n i Hp Hi) as Hoi.
  pose proof (nth_perm_lt _ n _ Hpi Hoi) as Hio.
  apply (nth_perm_inj o n); [done..|].
  by apply (argsort_list_inverse_r o n).
Qed.

(** ** Shapes *)

Lemma insert_ones_two s d i :
  mx.insert_ones [i + length s + 1; i + length s] i (length s + 3) (s ++ [d]) = s ++ [1; 1; d].
Proof.
  revert i. induction s as [|a s IH]; intros i.
  - simpl. rewrite !Nat.add_0_r.
    rewrite bool_decide_eq_true_2 by set_solver.
    rewrite bool_decide_eq_true_2 by (apply list_elem_of_In; simpl; lia).
    rewrite bool_decide_eq_false_2; [done|].
    rewrite list_elem_of_In. simpl. lia.
  - cbn [length app]. replace (S (length s) + 3) with (S (length s + 3)) by lia.
    cbn [mx.insert_ones]. rewrite bool_decide_eq_false_2.
    + f_equal. rewrite <- (IH (S i)). f_equal. f_equal; [lia|]. f_equal. lia.
    + rewrite list_elem_of_In. simpl. lia.
Qed.

Lemma insert_ones_one s d i :
  mx.insert_ones [i + length s] i (length s + 2) (s ++ [d]) = s ++ [1; d].
Proof.
  revert i. induction s as [|a s IH]; intros i.
  - simpl. rewrite !Nat.add_0_r.
    rewrite bool_decide_eq_true_2 by set_solver.
    rewrite bool_decide_eq_false_2; [done|].
    rewrite list_elem_of_In. simpl. lia.
  - cbn [length app]. replace (S (length s) + 2) with (S (length s + 2)) by lia.
    cbn [mx.insert_ones]. rewrite bool_decide_eq_false_2.
    + f_equal. rewrite <- (IH (S i)). f_equal. f_equal. lia.
    + rewrite list_elem_of_In. simpl. lia.
Qed.

Lemma expand_dims_m2_m3 {A} s d (dat : list A) :
  mx.expand_dims [-2; -3]%Z (Array (s ++ [d]) dat) = Some (Array (s ++ [1; 1; d]) dat).
Proof.
  unfold mx.expand_dims, ndim. cbn [shape data length fmap list_fmap].
  rewrite length_app. cbn [length]. unfold mx.norm_axis. cbn [Z.ltb Z.compare].
  rewrite bool_decide_eq_true_2.
  - f_equal. f_equal. rewrite <- (insert_ones_two s d 0). f_equal.
    + f_equal; [lia|]. f_equal. lia.
    + lia.
  - split.
    + repeat constructor; lia.
    + apply NoDup_cons. split; [|apply NoDup_singleton]. rewrite list_elem_of_In. simpl. lia.
Qed.

Lemma expand_dims_m2 {A} s d (dat : list A) :
  mx.expand_dims [-2]%Z (Array (s ++ [d]) dat) = Some (Array (s ++ [1; d]) dat).
Proof.
  unfold mx.expand_dims, ndim. cbn [shape data length fmap list_fmap].
  rewrite length_app. cbn [length]. unfold mx.norm_axis. cbn [Z.ltb Z.compare].
  rewrite bool_decide_eq_true_2.
  - f_equal. f_equal. rewrite <- (insert_ones_one s d 0). f_equal.
    + f_equal. lia.
    + lia.
  - split.
    + repeat constructor; lia.
    + apply NoDup_singleton.
Qed.

Lemma flatten_axes_0_m3 {A} s a b c (dat : list A) :
  mx.flatten_axes 0 (-3) (Array (s ++ [a; b; c]) dat) = Some (Array [prod (s ++ [a]); b; c] dat).
Proof.
  unfold mx.flatten_axes, ndim. cbn [shape data]. rewrite length_app. cbn [length].
  unfold mx.norm_axis. cbn [Z.ltb Z.compare].
  replace (length s + 3 =? 0) with false by (symmetry; apply Nat.eqb_neq; lia).
  replace (Z.max 0 0) with 0%Z by lia.
  replace (Z.min (Z.of_nat (length s + 3) - 1) (-3 + Z.of_nat (length s + 3))) with (Z.of_nat (length s)) by lia.
  replace (Z.of_nat (length s) <? 0)%Z with false by (symmetry; apply Z.ltb_ge; lia).
  replace (Z.of_nat (length s + 3) <=? 0)%Z with false by (symmetry; apply Z.leb_gt; lia).
  rewrite Nat2Z.id. change (Z.to_nat 0) with 0. rewrite Nat.sub_0_r, take_0, drop_0.
  replace (length s + 1) with (length (s ++ [a])) by (rewrite length_app; simpl; lia).
  replace (s ++ [a; b; c]) with ((s ++ [a]) ++ [b; c]) by (by rewrite <- app_assoc).
  by rewrite take_app_length, drop_app_length.
Qed.

Lemma squeeze_m2 {A} s d (dat : list A) :
  mx.squeeze (-2) (Array (s ++ [1; d]) dat) = Some (Array (s ++ [d]) dat).
Proof.
  unfold mx.squeeze, ndim. cbn [shape data]. rewrite length_app. cbn [length].
  unfold mx.norm_axis. cbn [Z.ltb Z.compare].
  replace (-2 + Z.of_nat (length s + 2))%Z with (Z.of_nat (length s)) by lia.
  rewrite bool_decide_eq_true_2 by lia. rewrite Nat2Z.id.
  rewrite bool_decide_eq_true_2.
  - f_equal. f_equal. rewrite delete_middle. done.
  - by rewrite list_lookup_middle.
Qed.

Lemma unflatten_0 {A} n rest sh (dat : list A) :
  sh <> [] -> n = prod sh ->
  mx.unflatten (Array (n :: rest) dat) 0 sh = Some (Array (sh ++ rest) dat).
Proof.
  intros Hne ->. unfold mx.unflatten, ndim. destruct sh as [|d sh]; [done|].
  cbn [shape data length].
  unfold mx.norm_axis. cbn [Z.ltb Z.compare].
  rewrite bool_decide_eq_true_2 by lia. cbn [Z.to_nat lookup list_lookup].
  rewrite bool_decide_eq_true_2 by done. done.
Qed.

Lemma argsort_1d (d : list nat) n :
  length d = n -> mx.argsort (Array [n] d) = Some (Array [n] (mx.argsort_list d)).
Proof.
  intros Hl. unfold mx.argsort. cbn [shape data reverse rev_append]. f_equal. f_equal.
  rewrite Hl. destruct n as [|n].
  - destruct d; [|done]. rewrite Nat.Div0.div_0_l. done.
  - rewrite Nat.div_same by lia. cbn [seq fmap list_fmap concat].
    rewrite row_0 by lia. apply app_nil_r.
Qed.

Lemma getitem_rows {A} n sh (dat : list A) (idx : array nat) :
  Forall (fun i => i < n) (data idx) ->
  mx.getitem (Array (n :: sh) dat) idx
  = Some (Array (shape idx ++ sh) (concat ((fun i => row (prod sh) i dat) <$> data idx))).
Proof.
  intros Hi. unfold mx.getitem. cbn [shape data].
  replace (forallb _ _) with true; [done|].
  symmetry. apply forallb_forall. rewrite Forall_forall in Hi.
  intros x Hx. apply Nat.ltb_lt, Hi. by apply list_elem_of_In.
Qed.

(** ** Broadcasting *)

Lemma broadcast_shapes_rev_same l : mx.broadcast_shapes_rev l l = Some l.
Proof.
  induction l as [|d l IH]; [done|]. cbn [mx.broadcast_shapes_rev].
  rewrite Nat.eqb_refl, IH. done.
Qed.

Lemma broadcast_shapes_same s : mx.broadcast_shapes s s = Some s.
Proof.
  unfold mx.broadcast_shapes. rewrite broadcast_shapes_rev_same. simpl.
  by rewrite reverse_involutive.
Qed.

Lemma broadcast_shapes_slot s k : mx.broadcast_shapes (s ++ [1]) (s ++ [k]) = Some (s ++ [k]).
Proof.
  unfold mx.broadcast_shapes. rewrite !reverse_snoc. cbn [mx.broadcast_shapes_rev].
  rewrite broadcast_shapes_rev_same.
  destruct (Nat.eqb_spec 1 k) as [<-|Hk]; simpl; by rewrite reverse_cons, reverse_involutive.
Qed.

Lemma broadcast_aligned_same {A} s (d : list A) :
  length d = prod s -> mx.broadcast_aligned s s d = d.
Proof.
  revert d. induction s as [|a s IH]; intros d Hd; [done|].
  cbn [mx.broadcast_aligned]. rewrite Nat.eqb_refl.
  change (concat ((fun i => mx.broadcast_aligned s s (row (prod s) i d)) <$> seq 0 a))
    with (tabulate (fun i => mx.broadcast_aligned s s (row (prod s) i d)) a).
  trans (tabulate (fun p => row (prod s) p d) a); [|by apply tabulate_rows].
  apply tabulate_ext. intros p Hp. apply IH. apply length_row.
  rewrite Hd. cbn [prod foldr]. fold (prod s). nia.
Qed.

Lemma broadcast_to_same {A} s (d : list A) :
  length d = prod s -> mx.broadcast_to s s d = d.
Proof.
  intros Hd. unfold mx.broadcast_to. rewrite Nat.sub_diag. by apply broadcast_aligned_same.
Qed.

Lemma concat_replicate_singleton {A} k (t : A) :
  concat ((fun _ : nat => [t]) <$> seq 0 k) = replicate k t.
Proof.
  generalize 0. induction k as [|k IH]; intros a; [done|].
  cbn [seq fmap list_fmap concat replicate app]. f_equal. apply IH.
Qed.

Lemma concat_fmap_concat {A B} (f : A -> list B) (ls : list (list A)) :
  concat (f <$> concat ls) = concat ((fun l => concat (f <$> l)) <$> ls).
Proof.
  induction ls as [|l ls IH]; [done|].
  cbn [concat]. rewrite fmap_app, concat_app, IH. done.
Qed.

Lemma broadcast_aligned_slot {A} s k (d : list A) :
  length d = prod s ->
  mx.broadcast_aligned (s ++ [1]) (s ++ [k]) d = concat (replicate k <$> d).
Proof.
  revert d. induction s as [|a s IH]; intros d Hd.
  - destruct d as [|t [|]]; try done. cbn [app mx.broadcast_aligned].
    destruct (Nat.eqb_spec 1 k) as [<-|Hk].
    + done.
    + rewrite concat_replicate_singleton. cbn. by rewrite app_nil_r.
  - cbn [app mx.broadcast_aligned]. rewrite Nat.eqb_refl.
    rewrite prod_app. cbn [prod foldr]. rewrite Nat.mul_1_r.
    trans (concat (replicate k <$> tabulate (fun p => row (prod s) p d) a));
      [|by rewrite tabulate_rows].
    unfold tabulate. rewrite concat_fmap_concat, <- list_fmap_compose.
    f_equal. apply list_fmap_ext. intros i p Hp. apply lookup_seq in Hp as [-> Hp]. simpl.
    apply IH. apply length_row. rewrite Hd. cbn [prod foldr]. fold (prod s). nia.
Qed.

Lemma broadcast_to_slot {A} s k (d : list A) :
  length d = prod s ->
  mx.broadcast_to (s ++ [1]) (s ++ [k]) d = concat (replicate k <$> d).
Proof.
  intros Hd. unfold mx.broadcast_to. rewrite !length_app. cbn [length].
  rewrite Nat.sub_diag. by apply broadcast_aligned_slot.
Qed.

Lemma nth_row {A} r q j (l : list A) (x : A) :
  j < r -> nth j (row r q l) x = nth (q * r + j) l x.
Proof.
  intros Hj. unfold row. rewrite !nth_lookup, lookup_take_lt, lookup_drop by done. done.
Qed.

Lemma nth_tabulate {A} (f : nat -> list A) n r q j (x : A) :
  (forall p, p < n -> length (f p) = r) -> q < n -> j < r ->
  nth (q * r + j) (tabulate f n) x = nth j (f q) x.
Proof.
  intros Hf Hq Hj. rewrite <- nth_row by done. by rewrite (row_tabulate f n r q).
Qed.

(** Position [p] of the index list of a batch of tokens broadcast over [k]
    slots is token [p / k]. *)
Lemma nth_broadcast_slot n k p :
  p < n * k -> nth p (concat (replicate k <$> seq 0 n)) 0 = p / k.
Proof.
  intros Hp. assert (Hk : k <> 0) by lia.
  rewrite concat_fmap_tabulate, length_seq.
  rewrite (Nat.div_mod_eq p k) at 1. rewrite (Nat.mul_comm k).
  assert (p / k < n) by (apply Nat.Div0.div_lt_upper_bound; lia).
  rewrite (nth_tabulate _ n k).
  - rewrite nth_lookup, lookup_replicate_2 by (apply Nat.mod_upper_bound; lia). simpl.
    by rewrite nth_lookup, lookup_seq_lt.
  - intros q _. by rewrite length_replicate.
  - done.
  - by apply Nat.mod_upper_bound.
Qed.

Lemma length_concat_replicate {A} k (d : list A) :
  length (concat (replicate k <$> d)) = length d * k.
Proof.
  rewrite (length_concat_const k).
  - by rewrite length_fmap.
  - apply Forall_fmap, Forall_forall. intros x _. simpl. by rewrite length_replicate.
Qed.

(** ** The indexed product against a transposed weight *)

Section matmul_facts.
Context {R : Type} `{Scalar R}.

Lemma swapaxes_weight (w : array R) E O I :
  shape w = [E; O; I] ->
  mx.swapaxes_m1_m2 w = Some (Array [E; I; O] (tabulate (transposed O I (data w)) E)).
Proof.
  intros Hs. unfold mx.swapaxes_m1_m2. rewrite Hs. cbn [reverse rev_append app prod foldr].
  by rewrite Nat.mul_1_r.
Qed.

Lemma length_transposed o i w e : length (transposed o i w e) = i * o.
Proof.
  unfold transposed. apply length_tabulate. intros p _. by rewrite length_fmap, length_seq.
Qed.

Lemma row_as_nth {A} r q (l : list A) (x : A) :
  S q * r <= length l -> row r q l = (fun j => nth (q * r + j) l x) <$> seq 0 r.
Proof.
  intros Hl. apply list_eq. intros j. rewrite list_lookup_fmap. unfold row.
  destruct (decide (j < r)) as [Hj|Hj].
  - rewrite lookup_take_lt, lookup_drop, lookup_seq_lt by done. simpl.
    destruct (lookup_lt_is_Some_2 l (q * r + j)) as [y Hy]; [lia|].
    by rewrite Hy, (nth_lookup_Some _ _ _ _ Hy).
  - rewrite lookup_seq_ge by lia. apply lookup_ge_None_2. rewrite length_take. lia.
Qed.

Lemma column_transposed o i (w : list R) e j :
  j < o -> length (row (o * i) e w) = o * i ->
  (fun l => nth (l * o + j) (transposed o i w e) s0) <$> seq 0 i = row i j (row (o * i) e w).
Proof.
  intros Hj Hl. rewrite (row_as_nth i j _ s0) by (rewrite Hl; nia).
  apply list_fmap_ext. intros k l Hk. apply lookup_seq in Hk as [-> Hk]. simpl.
  unfold transposed. rewrite (nth_tabulate _ i o); [|intros p _; by rewrite length_fmap, length_seq|done..].
  rewrite nth_lookup, list_lookup_fmap, lookup_seq_lt by done. done.
Qed.

Lemma matmul_row_vector k n (v b : list R) :
  length v = k ->
  mx.matmul 1 k n v b
  = (fun j => mx.dot v ((fun l => nth (l * n + j) b s0) <$> seq 0 k)) <$> seq 0 n.
Proof.
  intros Hv. unfold mx.matmul. cbn [seq fmap list_fmap concat]. rewrite app_nil_r.
  rewrite row_0 by lia. done.
Qed.

Lemma length_matmul m k n (a b : list R) : length (mx.matmul m k n a b) = m * n.
Proof.
  unfold mx.matmul. rewrite (length_concat_const n).
  - by rewrite length_fmap, length_seq.
  - apply Forall_fmap, Forall_forall. intros x _. simpl. by rewrite length_fmap, length_seq.
Qed.

Lemma matmul_expert (w : array R) E O I e (v : list R) :
  shape w = [E; O; I] -> wf w -> e < E -> length v = I ->
  mx.matmul 1 I O v (row (I * O) e (tabulate (transposed O I (data w)) E))
  = expert_linear w None e v.
Proof.
  intros Hs Hw He Hv. unfold expert_linear. rewrite Hs.
  rewrite (row_tabulate _ E (I * O)) by (done || intros; apply length_transposed).
  rewrite matmul_row_vector by done.
  apply list_fmap_ext. intros k j Hk. apply lookup_seq in Hk as [-> Hk]. simpl.
  rewrite column_transposed; [done..|].
  apply length_row. unfold wf in Hw. rewrite Hw. unfold size, array_size. rewrite Hs.
  cbn [prod foldr]. nia.
Qed.

Lemma length_expert_linear (w : array R) (b : option (array R)) E O I e v :
  shape w = [E; O; I] ->
  match b with Some bias => shape bias = [E; O] /\ wf bias | None => True end ->
  e < E -> length (expert_linear w b e v) = O.
Proof.
  intros Hs Hb He. unfold expert_linear. rewrite Hs. destruct b as [bias|].
  - destruct Hb as [Hbs Hbw]. rewrite length_zip_with, length_fmap, length_seq.
    rewrite length_row; [lia|]. unfold wf in Hbw. rewrite Hbw. unfold size, array_size.
    rewrite Hbs. cbn [prod foldr]. nia.
  - by rewrite length_fmap, length_seq.
Qed.

Lemma forallb_lt n (l : list nat) : Forall (fun i => i < n) l -> forallb (fun i => i <? n) l = true.
Proof.
  intros Hi. apply forallb_forall. rewrite Forall_forall in Hi.
  intros x Hx. apply Nat.ltb_lt, Hi. by apply list_elem_of_In.
Qed.

(** Operands of at least two axes go to the product as they are. *)
Lemma gather_mm_two_axes (a b : array R) (idx : array nat) sorted :
  2 <= ndim a -> 2 <= ndim b ->
  mx.gather_mm a b idx sorted = mx.gather_mm_matrices a b idx.
Proof.
  intros Ha Hb. unfold mx.gather_mm.
  rewrite (proj2 (Nat.eqb_neq (ndim a) 1)) by lia.
  rewrite (proj2 (Nat.eqb_neq (ndim b) 1)) by lia.
  by destruct (mx.gather_mm_matrices a b idx).
Qed.

(** [gather_mm] of row vectors against a transposed weight tensor. *)
Lemma gather_mm_rows (a : array R) (w : array R) (idx : array nat) sorted ba E O I :
  shape a = ba ++ [1; I] -> shape w = [E; O; I] -> wf w ->
  mx.broadcast_shapes ba (shape idx) = Some (shape idx) ->
  wf idx -> Forall (fun e => e < E) (data idx) ->
  let lhs := mx.broadcast_to ba (shape idx) (seq 0 (prod ba)) in
  length lhs = size idx ->
  (forall p, p < size idx -> length (row I (nth p lhs 0) (data a)) = I) ->
  mx.gather_mm a (Array [E; I; O] (tabulate (transposed O I (data w)) E)) idx sorted
  = Some (Array (shape idx ++ [1; O])
                (tabulate (fun p => expert_linear w None (nth p (data idx) 0)
                                                  (row I (nth p lhs 0) (data a)))
                          (size idx))).
Proof.
  intros Ha Hs Hw Hb Hi Hr lhs Hl Hrow.
  rewrite gather_mm_two_axes;
    [|unfold ndim; rewrite Ha, length_app; simpl; lia|unfold ndim; simpl; lia].
  unfold mx.gather_mm_matrices.
  rewrite Ha, reverse_app. cbn [reverse rev_append app shape data].
  rewrite Nat.eqb_refl. change (rev_append ?l []) with (reverse l).
  rewrite reverse_involutive, Hb. cbn [mbind option_bind].
  rewrite broadcast_to_same by done. cbn [prod foldr]. rewrite Nat.mul_1_r.
  rewrite forallb_lt by done. f_equal. f_equal.
  rewrite (concat_zip_with_tabulate _ _ _ (size idx)) by done.
  apply tabulate_ext. intros p Hp. rewrite Nat.mul_1_l.
  apply (matmul_expert w E O I); [done..| |by apply Hrow].
  rewrite Forall_forall in Hr. apply Hr. apply list_elem_of_In, nth_In. by rewrite Hi.
Qed.

End matmul_facts.

(** ** A call of a unit *)

Section unit_calls.
Context {R : Type} `{Scalar R} `{Kernels R}.

Lemma bind_Some {A B} (m : M R A) (f : A -> M R B) wd a wd' :
  m wd = Some (a, wd') -> (m ≫= f) wd = f a wd'.
Proof. intros Hm. unfold mbind, M_bind. by rewrite Hm. Qed.

Lemma lift_Some {A} (o : option A) a (wd : world R) : o = Some a -> lift o wd = Some (a, wd).
Proof. by intros ->. Qed.

Lemma item_has_param (wd : world R) p name a :
  has_param wd p name a -> item p name wd = Some (a, wd).
Proof.
  intros (l & Hl & Ha). unfold item. rewrite (bind_Some _ _ wd l wd) by (by apply lift_Some).
  unfold load. by rewrite Ha.
Qed.

Lemma wf_size {A} (a : array A) sh : shape a = sh -> wf a -> length (data a) = prod sh.
Proof. intros <- Hw. exact Hw. Qed.

Lemma SwitchLinear_call_rows wd self w b E O I (x : array R) (idx : array nat) sorted bx :
  unit_at wd self w b E O I ->
  shape x = bx ++ [1; I] ->
  mx.broadcast_shapes bx (shape idx) = Some (shape idx) ->
  wf idx -> Forall (fun e => e < E) (data idx) ->
  let lhs := mx.broadcast_to bx (shape idx) (seq 0 (prod bx)) in
  length lhs = size idx ->
  (forall p, p < size idx -> length (row I (nth p lhs 0) (data x)) = I) ->
  SwitchLinear_call self x idx sorted wd
  = Some (Array (shape idx ++ [1; O])
                (tabulate (fun p => expert_linear w b (nth p (data idx) 0)
                                                  (row I (nth p lhs 0) (data x)))
                          (size idx)), wd).
Proof.
  intros (Hw & Hws & Hwf & Hb) Hx Hbs Hi Hr lhs Hl Hrow. unfold SwitchLinear_call.
  rewrite (bind_Some _ _ wd w wd) by (by apply item_has_param).
  rewrite (bind_Some _ _ wd _ wd) by (apply lift_Some; by apply (swapaxes_weight w E O I)).
  rewrite (bind_Some _ _ wd _ wd)
    by (apply lift_Some; by apply (gather_mm_rows x w idx sorted bx E O I)).
  destruct b as [bias|].
  - destruct Hb as (Hb & Hbs' & Hbw).
    rewrite bool_decide_eq_true_2 by (destruct Hb as (l & -> & _); eauto).
    rewrite (bind_Some _ _ wd bias wd) by (by apply item_has_param).
    destruct bias as [bsh bdat]. simpl in Hbs'. subst bsh.
    rewrite (bind_Some _ _ wd _ wd) by (apply lift_Some; by apply getitem_rows).
    rewrite (bind_Some _ _ wd _ wd)
      by (apply lift_Some; rewrite (app_assoc _ _ [O]) || idtac; apply (expand_dims_m2 (shape idx) O)).
    apply lift_Some. unfold mx.add, mx.binary. cbn [shape data].
    rewrite broadcast_shapes_same. cbn [mbind option_bind]. f_equal. f_equal.
    assert (Hlen : forall p, p < size idx ->
              length (expert_linear w None (nth p (data idx) 0) (row I (nth p lhs 0) (data x))) = O).
    { intros p Hp. apply (length_expert_linear w None E O I); [done..|].
      rewrite Forall_forall in Hr. apply Hr, list_elem_of_In, nth_In. by rewrite Hi. }
    assert (Hblen : forall p, p < size idx -> length (row O (nth p (data idx) 0) bdat) = O).
    { intros p Hp. apply length_row.
      assert (nth p (data idx) 0 < E).
      { rewrite Forall_forall in Hr. apply Hr, list_elem_of_In, nth_In. by rewrite Hi. }
      unfold wf, size, array_size in Hbw. cbn [shape data prod foldr] in Hbw. nia. }
    rewrite !broadcast_to_same.
    + rewrite concat_fmap_tabulate, Hi. cbn [prod foldr]. rewrite Nat.mul_1_r.
      rewrite tabulate_zip_with by (intros p Hp; by rewrite Hlen, Hblen).
      apply tabulate_ext. intros p Hp. unfold expert_linear. by rewrite Hws.
    + rewrite concat_fmap_tabulate, Hi. rewrite (length_tabulate _ _ O).
      * rewrite prod_app. cbn [prod foldr]. unfold size, array_size. lia.
      * cbn [prod foldr]. rewrite Nat.mul_1_r. done.
    + rewrite (length_tabulate _ _ O) by done.
      rewrite prod_app. cbn [prod foldr]. unfold size, array_size. lia.
  - rewrite bool_decide_eq_false_2 by (rewrite Hb; by intros [? ?]).
    done.
Qed.

End unit_calls.

Lemma concat_rows_1 (di : list nat) (l : list nat) :
  Forall (fun i => i < length di) l ->
  concat ((fun i => row 1 i di) <$> l) = (fun i => nth i di 0) <$> l.
Proof.
  induction 1 as [|i l Hi Hl IH]; [done|].
  rewrite !fmap_cons. cbn [concat]. rewrite IH.
  rewrite (row_as_nth 1 i di 0) by lia. cbn [seq fmap list_fmap app].
  by rewrite Nat.mul_1_r, Nat.add_0_r.
Qed.

Lemma argsort_list_lt keys i :
  i < length keys -> nth i (mx.argsort_list keys) 0 < length keys.
Proof. intros Hi. apply (nth_perm_lt _ (length keys)); [apply argsort_list_perm|done]. Qed.

Lemma Forall_argsort_list keys : Forall (fun i => i < length keys) (mx.argsort_list keys).
Proof.
  apply Forall_forall. intros i Hi. rewrite argsort_list_perm in Hi.
  apply elem_of_seq in Hi. lia.
Qed.

(** ** The sort step *)

Section sort_facts.
Context {R : Type} `{Scalar R} `{Kernels R}.

(** What [_gather_sort] returns on an input of at least three axes whose
    leading axes hold at least as many rows as [indices] has tokens. *)
Lemma gather_sort_rows sx a b c (dx : list R) si K (di : list nat) :
  length di = prod si * K -> prod si <= prod (sx ++ [a]) ->
  let order := mx.argsort_list di in
  let N := prod si * K in
  _gather_sort (Array (sx ++ [a; b; c]) dx) (Array (si ++ [K]) di)
  = Some (Array [N; b; c] (tabulate (fun p => row (b * c) (nth p order 0 / K) dx) N),
          Array [N] ((fun i => nth i di 0) <$> order),
          Array [N] (mx.argsort_list order)).
Proof.
  intros Hdi Hle order N. unfold _gather_sort. cbn [shape data].
  rewrite last_snoc. cbn [mbind option_bind].
  unfold mx.flatten, size, array_size. cbn [shape data]. rewrite prod_app.
  cbn [prod foldr]. rewrite Nat.mul_1_r. fold N.
  rewrite argsort_1d by done. cbn [mbind option_bind]. fold order.
  assert (Hlo : length order = N) by (unfold order; by rewrite length_argsort_list).
  rewrite argsort_1d by done. cbn [mbind option_bind].
  rewrite flatten_axes_0_m3. cbn [mbind option_bind].
  assert (Hord : Forall (fun i => i < N) order).
  { unfold N. rewrite <- Hdi. apply Forall_argsort_list. }
  rewrite (getitem_rows (prod (sx ++ [a])) [b; c] dx); cycle 1.
  { cbn [mx.floor_divide data]. apply Forall_fmap. eapply Forall_impl; [exact Hord|].
    intros o Ho. simpl. assert (K <> 0) by (unfold N in Ho; lia).
    apply Nat.Div0.div_lt_upper_bound. unfold N in Ho. nia. }
  cbn [mbind option_bind]. rewrite (getitem_rows N [] di) by done. cbn [mbind option_bind].
  cbn [shape data mx.floor_divide app prod foldr]. rewrite Nat.mul_1_r.
  f_equal. f_equal. f_equal.
  - f_equal. rewrite concat_fmap_tabulate, length_fmap, Hlo.
    apply tabulate_ext. intros p Hp.
    rewrite (nth_lookup (_ <$> _)), list_lookup_fmap.
    destruct (lookup_lt_is_Some_2 order p) as [o Ho]; [lia|].
    by rewrite Ho, (nth_lookup_Some _ _ _ _ Ho).
  - f_equal. apply concat_rows_1. by rewrite Hdi.
Qed.

End sort_facts.

(** ** Computations that work row by row *)

Section rowwise_facts.
Context {R : Type} `{Scalar R} `{Kernels R}.

Lemma nth_seq_0 n p : p < n -> nth p (seq 0 n) 0 = p.
Proof. intros Hp. by rewrite nth_lookup, lookup_seq_lt. Qed.

Lemma nth_in_range (l : list nat) n p :
  Forall (fun e => e < n) l -> p < length l -> nth p l 0 < n.
Proof.
  intros Hl Hp. rewrite Forall_forall in Hl. apply Hl, list_elem_of_In, nth_In. done.
Qed.

Lemma unit_rowwise wd self w b E O I sorted :
  unit_at wd self w b E O I ->
  rowwise wd (fun x J => SwitchLinear_call self x J sorted) E I O (expert_linear w b).
Proof.
  intros Hu. split.
  - intros e v He _. destruct Hu as (_ & Hs & _ & Hb).
    apply (length_expert_linear w b E O I); [done| |done].
    destruct b; [|done]. by destruct Hb as (_ & ? & ?).
  - intros x J bx Hx Hbs HJ Hr lhs Hl Hrow.
    by apply (SwitchLinear_call_rows wd self w b E O I x J sorted bx).
Qed.

(** One input row per index. *)
Lemma rowwise_same wd experts E I O G (x : array R) (f : nat -> list R) (J : array nat) :
  rowwise wd experts E I O G ->
  wf J -> Forall (fun e => e < E) (data J) ->
  (forall p, p < size J -> length (f p) = I) ->
  shape x = shape J ++ [1; I] -> data x = tabulate f (size J) ->
  experts x J wd
  = Some (Array (shape J ++ [1; O]) (tabulate (fun p => G (nth p (data J) 0) (f p)) (size J)), wd).
Proof.
  intros [_ Hrw] HJ Hr Hf Hx Hd.
  assert (Hlhs : mx.broadcast_to (shape J) (shape J) (seq 0 (prod (shape J))) = seq 0 (size J)).
  { apply broadcast_to_same. by rewrite length_seq. }
  rewrite (Hrw x J (shape J)); try done.
  - f_equal. f_equal. f_equal. apply tabulate_ext. intros p Hp.
    rewrite Hlhs, nth_seq_0, Hd by done. by rewrite (row_tabulate f (size J) I).
  - apply broadcast_shapes_same.
  - by rewrite Hlhs, length_seq.
  - intros p Hp. rewrite Hlhs, nth_seq_0, Hd by done.
    rewrite (row_tabulate f (size J) I) by done. by apply Hf.
Qed.

(** One input row per token, one index per slot of a token. *)
Lemma rowwise_slots wd experts E I O G s K (dx : list R) (J : array nat) :
  rowwise wd experts E I O G ->
  shape J = s ++ [K] -> wf J -> Forall (fun e => e < E) (data J) ->
  length dx = prod s * I ->
  experts (Array (s ++ [1; 1; I]) dx) J wd
  = Some (Array (shape J ++ [1; O])
                (tabulate (fun p => G (nth p (data J) 0) (row I (p / K) dx)) (size J)), wd).
Proof.
  intros [_ Hrw] Hs HJ Hr Hdx.
  assert (Hsz : size J = prod s * K).
  { unfold size, array_size. rewrite Hs, prod_app. cbn [prod foldr]. lia. }
  assert (Hlhs : mx.broadcast_to (s ++ [1]) (shape J) (seq 0 (prod (s ++ [1])))
                 = concat (replicate K <$> seq 0 (prod s))).
  { rewrite Hs, prod_app. cbn [prod foldr]. rewrite Nat.mul_1_r.
    apply broadcast_to_slot. by rewrite length_seq. }
  assert (Hrow : forall p, p < size J -> length (row I (p / K) dx) = I).
  { intros p Hp. apply length_row. rewrite Hdx. rewrite Hsz in Hp.
    assert (p / K < prod s) by (apply Nat.Div0.div_lt_upper_bound; lia). nia. }
  rewrite (Hrw _ J (s ++ [1])); try done.
  - f_equal. f_equal. f_equal. apply tabulate_ext. intros p Hp. cbn [data].
    rewrite Hlhs, nth_broadcast_slot by lia. done.
  - cbn [shape]. by rewrite <- app_assoc.
  - rewrite Hs. apply broadcast_shapes_slot.
  - rewrite Hlhs, length_concat_replicate, length_seq. lia.
  - intros p Hp. cbn [data]. rewrite Hlhs, nth_broadcast_slot by lia. by apply Hrow.
Qed.

Lemma binary_same_shape (f : R -> R -> R) sh (da db : list R) :
  length da = prod sh -> length db = prod sh ->
  mx.binary f (Array sh da) (Array sh db) = Some (Array sh (zip_with f da db)).
Proof.
  intros Ha Hb. unfold mx.binary. cbn [shape data]. rewrite broadcast_shapes_same.
  cbn [mbind option_bind]. by rewrite !broadcast_to_same.
Qed.

Lemma prod_rows sh o : prod (sh ++ [1; o]) = prod sh * o.
Proof. rewrite prod_app. cbn [prod foldr]. lia. Qed.

End rowwise_facts.

(** ** The bodies of the blocks as the shared steps *)

Section scaffold_facts.
Context {R : Type} `{Scalar R} `{Kernels R}.

Lemma SwitchGLU_body_scaffold sorted (self : SwitchGLU) x indices wd :
  SwitchGLU_body sorted self x indices wd
  = scaffold (glu_training self) (glu_experts self sorted) sorted x indices wd.
Proof.
  unfold SwitchGLU_body, scaffold, glu_experts, mbind, M_bind.
  destruct (lift (mx.expand_dims [-2; -3]%Z x) wd) as [[x5 w1]|]; [|done].
  destruct sorted.
  - destruct (lift (_gather_sort x5 indices) w1) as [[[[xs idx] inv] w2]|]; [|done].
    cbn [mret M_ret]. case_steps.
  - cbn [mret M_ret]. case_steps.
Qed.

Lemma SwitchMLP_body_scaffold sorted (self : SwitchMLP) x indices wd :
  SwitchMLP_body sorted self x indices wd
  = scaffold (mlp_training self) (mlp_experts self sorted) sorted x indices wd.
Proof.
  unfold SwitchMLP_body, scaffold, mlp_experts, mbind, M_bind.
  destruct (lift (mx.expand_dims [-2; -3]%Z x) wd) as [[x5 w1]|]; [|done].
  destruct sorted.
  - destruct (lift (_gather_sort x5 indices) w1) as [[[[xs idx] inv] w2]|]; [|done].
    cbn [mret M_ret]. case_steps.
  - cbn [mret M_ret]. case_steps.
Qed.

End scaffold_facts.

(** ** The projections of the blocks *)

Section expert_facts.
Context {R : Type} `{Scalar R} `{Kernels R}.

Lemma glu_rowwise wd (self : SwitchGLU) wg bg wu bu wdn bd E Hd D sorted :
  unit_at wd (gate_proj self) wg bg E Hd D ->
  unit_at wd (up_proj self) wu bu E Hd D ->
  unit_at wd (down_proj self) wdn bd E D Hd ->
  rowwise wd (glu_experts self sorted) E D D
    (glu_expert (glu_activation self) wg bg wu bu wdn bd).
Proof.
  intros Hg Hu Hdn.
  destruct (unit_rowwise wd _ wg bg E Hd D sorted Hg) as [Hgl Hgr].
  destruct (unit_rowwise wd _ wu bu E Hd D sorted Hu) as [Hul Hur].
  pose proof (unit_rowwise wd _ wdn bd E D Hd sorted Hdn) as Hdrw.
  assert (Hlen : forall e v, e < E -> length v = D ->
            length (zip_with smul (glu_activation self <$> expert_linear wg bg e v)
                                  (expert_linear wu bu e v)) = Hd).
  { intros e v He Hv. rewrite length_zip_with, length_fmap, Hgl, Hul by done. lia. }
  split.
  - intros e v He Hv. unfold glu_expert. destruct Hdrw as [Hdl _]. apply Hdl; [done|].
    by apply Hlen.
  - intros x J bx Hx Hbs HJ Hr lhs Hl Hrow. unfold glu_experts.
    erewrite bind_Some; [|apply (Hur x J bx); assumption].
    erewrite bind_Some; [|apply (Hgr x J bx); assumption].
    fold lhs.
    assert (Hin : forall p, p < size J -> nth p (data J) 0 < E).
    { intros p Hp. apply nth_in_range; [done|]. by rewrite HJ. }
    erewrite bind_Some; cycle 1.
    { apply lift_Some. unfold mx.multiply, apply_activation. cbn [shape data].
      apply binary_same_shape.
      - rewrite length_fmap, prod_rows. apply length_tabulate.
        intros p Hp. apply Hgl; [by apply Hin|by apply Hrow].
      - rewrite prod_rows. apply length_tabulate.
        intros p Hp. apply Hul; [by apply Hin|by apply Hrow]. }
    rewrite tabulate_fmap, tabulate_zip_with; cycle 1.
    { intros p Hp. rewrite length_fmap, Hgl, Hul; auto. }
    apply (rowwise_same wd _ E Hd D _ _ _ J Hdrw); try done.
    intros p Hp. apply Hlen; auto.
Qed.

Lemma mlp_rowwise wd (self : SwitchMLP) w1 b1 w2 b2 E Hd D sorted :
  unit_at wd (fc1 self) w1 b1 E Hd D ->
  unit_at wd (fc2 self) w2 b2 E D Hd ->
  rowwise wd (mlp_experts self sorted) E D D (mlp_expert (mlp_activation self) w1 b1 w2 b2).
Proof.
  intros H1 H2.
  destruct (unit_rowwise wd _ w1 b1 E Hd D sorted H1) as [H1l H1r].
  pose proof (unit_rowwise wd _ w2 b2 E D Hd sorted H2) as H2rw.
  split.
  - intros e v He Hv. unfold mlp_expert. destruct H2rw as [H2l _]. apply H2l; [done|].
    rewrite length_fmap. by apply H1l.
  - intros x J bx Hx Hbs HJ Hr lhs Hl Hrow. unfold mlp_experts.
    erewrite bind_Some; [|apply (H1r x J bx); assumption].
    fold lhs. unfold apply_activation. cbn [shape data]. rewrite tabulate_fmap.
    assert (Hin : forall p, p < size J -> nth p (data J) 0 < E).
    { intros p Hp. apply nth_in_range; [done|]. by rewrite HJ. }
    apply (rowwise_same wd _ E Hd D _ _ _ J H2rw); try done.
    intros p Hp. rewrite length_fmap. apply H1l; auto.
Qed.

End expert_facts.

(** ** The no-sort path and the sort path *)

Section path_facts.
Context {R : Type} `{Scalar R} `{Kernels R}.

Lemma ret_Some {A} (a : A) (wd : world R) : (mret a : M R A) wd = Some (a, wd).
Proof. done. Qed.

Lemma size_slots {A} (a : array A) s k : shape a = s ++ [k] -> size a = prod s * k.
Proof. intros Hs. unfold size, array_size. rewrite Hs, prod_app. cbn [prod foldr]. lia. Qed.

Lemma scaffold_direct wd tr experts E D G s K (x : array R) (idx : array nat) :
  rowwise wd experts E D D G ->
  shape x = s ++ [D] -> wf x ->
  shape idx = s ++ [K] -> wf idx -> Forall (fun e => e < E) (data idx) ->
  scaffold tr experts false x idx wd
  = Some (Array (shape idx ++ [D])
                (tabulate (fun p => G (nth p (data idx) 0) (row D (p / K) (data x))) (size idx)),
          wd).
Proof.
  intros Hrw Hx Hwx Hi Hwi Hr. destruct x as [shx dx]. cbn [shape data] in *. subst shx.
  unfold scaffold.
  erewrite bind_Some; [|apply lift_Some, expand_dims_m2_m3].
  cbn zeta. erewrite bind_Some; [|apply ret_Some]. cbn beta iota.
  replace (if tr then mx.stop_gradient idx else idx) with idx by (by destruct tr).
  erewrite bind_Some; cycle 1.
  { apply (rowwise_slots wd experts E D D G s K dx idx); try done.
    unfold wf in Hwx. by rewrite (size_slots _ s D) in Hwx. }
  erewrite bind_Some; [|apply ret_Some].
  apply lift_Some. apply squeeze_m2.
Qed.

(** The sort path reads the first rows of [x]: [x] may hold more rows than
    [indices] has tokens. *)
Lemma scaffold_sorted wd tr experts E D G sx s K (x : array R) (idx : array nat) :
  rowwise wd experts E D D G ->
  shape x = sx ++ [D] -> wf x ->
  shape idx = s ++ [K] -> wf idx -> Forall (fun e => e < E) (data idx) ->
  prod s <= prod sx ->
  scaffold tr experts true x idx wd
  = Some (Array (shape idx ++ [D])
                (tabulate (fun p => G (nth p (data idx) 0) (row D (p / K) (data x))) (size idx)),
          wd).
Proof.
  intros Hrw Hx Hwx Hi Hwi Hr Hle. destruct x as [shx dx]. destruct idx as [shi di].
  cbn [shape data] in *. subst shx shi.
  unfold wf in Hwx, Hwi. rewrite (size_slots _ sx D) in Hwx by done.
  rewrite (size_slots _ s K) in Hwi by done. rewrite (size_slots _ s K) by done.
  cbn [data] in Hwx, Hwi.
  set (N := prod s * K) in *. set (order := mx.argsort_list di).
  assert (Hlo : length order = N) by (unfold order; by rewrite length_argsort_list).
  assert (Hpo : order ≡ₚ seq 0 N) by (unfold order; by rewrite argsort_list_perm, Hwi).
  set (U := fun q => G (nth q di 0) (row D (q / K) dx)).
  assert (HU : forall q, q < N -> length (U q) = D).
  { intros q Hq. destruct Hrw as [Hlen _]. apply Hlen.
    - apply nth_in_range; [done|lia].
    - apply length_row. rewrite Hwx.
      assert (q / K < prod s) by (apply Nat.Div0.div_lt_upper_bound; unfold N in Hq; lia). nia. }
  unfold scaffold.
  erewrite bind_Some; [|apply lift_Some, expand_dims_m2_m3].
  cbn zeta.
  erewrite bind_Some; cycle 1.
  { erewrite bind_Some; cycle 1.
    - apply lift_Some. apply (gather_sort_rows sx 1 1 D dx s K di); [done|].
      rewrite prod_app. cbn [prod foldr]. lia.
    - cbn beta iota. apply ret_Some. }
  cbn beta iota. fold order N. rewrite Nat.mul_1_l.
  set (J := Array [N] ((fun i => nth i di 0) <$> order)).
  replace (if tr then mx.stop_gradient J else J) with J by (by destruct tr).
  assert (HszJ : size J = N) by (unfold size, array_size; simpl; lia).
  assert (HJ : forall p, p < N -> nth p (data J) 0 = nth (nth p order 0) di 0).
  { intros p Hp. cbn [J data]. rewrite (nth_lookup (_ <$> _)), list_lookup_fmap.
    destruct (lookup_lt_is_Some_2 order p) as [o Ho]; [lia|].
    by rewrite Ho, (nth_lookup_Some _ _ _ _ Ho). }
  erewrite bind_Some; cycle 1.
  { apply (rowwise_same wd experts E D D G _
             (fun p => row D (nth p order 0 / K) dx) J Hrw).
    - unfold wf. cbn [J data]. by rewrite length_fmap, Hlo, HszJ.
    - cbn [J data]. apply Forall_fmap, Forall_forall. intros o Ho. simpl.
      rewrite Hpo in Ho. apply elem_of_seq in Ho. apply nth_in_range; [done|lia].
    - intros p Hp. rewrite HszJ in Hp. apply length_row. rewrite Hwx.
      pose proof (nth_perm_lt order N p Hpo Hp) as Ho.
      assert (nth p order 0 / K < prod s)
        by (apply Nat.Div0.div_lt_upper_bound; unfold N in Ho; lia). nia.
    - done.
    - cbn [data]. by rewrite HszJ. }
  rewrite HszJ.
  erewrite bind_Some; cycle 1.
  { erewrite bind_Some; [|by apply lift_Some]. apply lift_Some.
    unfold _scatter_unsort. cbn [J shape app].
    rewrite (getitem_rows N [1; D]); cycle 1.
    { cbn [data]. pose proof (Forall_argsort_list order) as HF. by rewrite Hlo in HF. }
    cbn [mbind option_bind shape data app]. apply unflatten_0; [by destruct s|].
    rewrite prod_app. cbn [prod foldr]. unfold N. lia. }
  erewrite lift_Some; [|apply (squeeze_m2 (s ++ [K]) D)].
  f_equal. f_equal. f_equal.
  rewrite concat_fmap_tabulate, length_argsort_list, Hlo.
  apply tabulate_ext. intros p Hp.
  replace (prod [1; D]) with D by (cbn [prod foldr]; lia).
  assert (Hpi : mx.argsort_list order ≡ₚ seq 0 N) by (by rewrite argsort_list_perm, Hlo).
  pose proof (nth_perm_lt _ N p Hpi Hp) as Hip.
  rewrite (row_tabulate _ N D); [| |done].
  - rewrite HJ by done. rewrite (argsort_list_inverse_r order N p) by done. done.
  - intros q Hq. rewrite HJ by done. apply (HU (nth q order 0)).
    by apply (nth_perm_lt order N).
Qed.

End path_facts.

(** ** Construction *)

Section init_facts.
Context {R : Type} `{Scalar R} `{Kernels R}.

Lemma new_Some (a : array R) wd :
  new a wd = Some (length (objs wd), World (objs wd ++ [a]) (draws wd)).
Proof. done. Qed.

Lemma init_scale_Some (n : nat) (wd : world R) : 0 < n -> init_scale n wd = Some ((), wd).
Proof. intros Hn. unfold init_scale. destruct n; [lia|done]. Qed.

Lemma item_lookup (p : params) name l a (wd : world R) :
  p !! name = Some l -> objs wd !! l = Some a -> item p name wd = Some (a, wd).
Proof. intros Hl Ha. apply item_has_param. by exists l. Qed.

(** What [SwitchLinear.__init__] builds. *)
Lemma SwitchLinear_init_Some (I O E : nat) (bias : option bool) (wd : world R) :
  0 < I ->
  let u := Array [E; O; I] ((fun k => sample (draws wd + k)) <$> seq 0 (prod [E; O; I])) in
  let l := length (objs wd) in
  SwitchLinear_init I O E bias wd
  = Some (if default true bias
          then ({| sl_params := <["bias" := S l]> {["weight" := l]} |},
                World (objs wd ++ [u; mx.zeros [E; O]]) (draws wd + prod [E; O; I]))
          else ({| sl_params := {["weight" := l]} |},
                World (objs wd ++ [u]) (draws wd + prod [E; O; I]))).
Proof.
  intros HI u l. unfold SwitchLinear_init.
  erewrite bind_Some; [|by apply init_scale_Some].
  erewrite bind_Some; [|reflexivity].
  erewrite bind_Some; [|apply new_Some]. cbn [objs draws].
  destruct (default true bias).
  - erewrite bind_Some; cycle 1.
    { erewrite bind_Some; [|apply new_Some]. apply ret_Some. }
    cbn [objs draws]. rewrite length_app. cbn [length].
    rewrite <- app_assoc. cbn [app]. replace (length (objs wd) + 1) with (S l) by (unfold l; lia).
    done.
  - erewrite bind_Some; [|apply ret_Some]. done.
Qed.

Lemma unit_at_init (I O E : nat) (bias : option bool) (wd : world R) self wd' :
  0 < I -> SwitchLinear_init I O E bias wd = Some (self, wd') ->
  exists w, unit_at wd' self w (if default true bias then Some (mx.zeros [E; O]) else None) E O I
            /\ forall l a, objs wd !! l = Some a -> objs wd' !! l = Some a.
Proof.
  intros HI Hinit. rewrite SwitchLinear_init_Some in Hinit by done.
  exists (Array [E; O; I] ((fun k => sample (draws wd + k)) <$> seq 0 (prod [E; O; I]))).
  destruct (default true bias); injection Hinit as <- <-;
    unfold unit_at, has_param; cbn [sl_params objs].
  - split; [|intros l a Hl; by apply lookup_app_l_Some].
    split; [|split; [reflexivity|split]].
    + eexists. split; [by rewrite lookup_insert_ne, lookup_singleton_eq|].
      by rewrite lookup_app_r, Nat.sub_diag.
    + unfold wf. cbn [data]. by rewrite length_fmap, length_seq.
    + split; [|split; [done|]].
      * eexists. split; [by rewrite lookup_insert_eq|].
        rewrite lookup_app_r by lia. by replace (S _ - _) with 1 by lia.
      * unfold wf, mx.zeros. cbn [data]. by rewrite length_replicate.
  - split; [|intros l a Hl; by apply lookup_app_l_Some].
    split; [|split; [reflexivity|split]].
    + eexists. split; [by rewrite lookup_singleton_eq|].
      by rewrite lookup_app_r, Nat.sub_diag.
    + unfold wf. cbn [data]. by rewrite length_fmap, length_seq.
    + done.
Qed.

End init_facts.

(** ** Quantization *)

Section quantize_facts.
Context {R : Type} `{Scalar R} `{Kernels R}.

Lemma quantize_Some (w : array R) g bt E O I :
  shape w = [E; O; I] -> quantize_supported g bt = true -> I `mod` g = 0 ->
  quantize w g bt = Some (quantized g bt w E O I).
Proof.
  intros Hs Hq Hm. unfold quantize, quantized. rewrite Hs. cbn [reverse rev_append].
  rewrite Hq, bool_decide_eq_true_2 by done. cbn [andb].
  by destruct (quantize_data g bt w) as [[q s] b].
Qed.

Lemma QuantizedSwitchLinear_init_Some (I O E : nat) (bias : option bool)
    (gs bits : option nat) (wd : world R) :
  let g := default 64 gs in
  let bt := default 4 bits in
  0 < I -> quantize_supported g bt = true -> I `mod` g = 0 ->
  let u := Array [E; O; I] ((fun k => sample (draws wd + k)) <$> seq 0 (prod [E; O; I])) in
  let l := length (objs wd) in
  let p : params := <["biases" := l + 2]> (<["scales" := l + 1]> {["weight" := l]}) in
  let '(q, s, b) := quantized g bt u E O I in
  QuantizedSwitchLinear_init I O E bias gs bits wd
  = Some (if default true bias
          then ({| ql_params := <["bias" := l + 3]> p; group_size := g; bits := bt |},
                World (objs wd ++ [q; s; b; mx.zeros [E; O]]) (draws wd + prod [E; O; I]))
          else ({| ql_params := p; group_size := g; bits := bt |},
                World (objs wd ++ [q; s; b]) (draws wd + prod [E; O; I]))).
Proof.
  intros g bt HI Hq Hm u l p.
  destruct (quantized g bt u E O I) as [[q s] b] eqn:Hqu.
  unfold QuantizedSwitchLinear_init. fold g bt.
  erewrite bind_Some; [|by apply init_scale_Some].
  erewrite bind_Some; [|reflexivity]. fold u.
  erewrite bind_Some; [|apply lift_Some; rewrite (quantize_Some u g bt E O I) by done; by rewrite Hqu].
  cbn beta iota.
  erewrite bind_Some; [|apply new_Some]. cbn [objs draws].
  erewrite bind_Some; [|apply new_Some]. cbn [objs draws].
  erewrite bind_Some; [|apply new_Some]. cbn [objs draws].
  rewrite !length_app. cbn [length]. rewrite <- !app_assoc. cbn [app].
  fold l. replace (l + 1 + 1) with (l + 2) by lia.
  destruct (default true bias).
  - erewrite bind_Some; cycle 1.
    { erewrite bind_Some; [|apply new_Some]. apply ret_Some. }
    cbn [objs draws]. rewrite !length_app. cbn [length]. rewrite <- !app_assoc. cbn [app].
    done.
  - erewrite bind_Some; [|apply ret_Some]. done.
Qed.

Lemma lookup_fresh {A} (l : list A) (k : list A) i :
  (l ++ k) !! (length l + i) = k !! i.
Proof. rewrite lookup_app_r by lia. f_equal. lia. Qed.

(** What [to_quantized] builds and where. *)
Lemma to_quantized_Some wd (self : SwitchLinear) w b E O I (gs bits : option nat) :
  let g := default 64 gs in
  let bt := default 4 bits in
  unit_at wd self w b E O I ->
  0 < I -> quantize_supported g bt = true -> I `mod` g = 0 ->
  let u := Array [E; O; I] ((fun k => sample (draws wd + k)) <$> seq 0 (prod [E; O; I])) in
  let l := length (objs wd) in
  let p : params := <["biases" := l + 5]> (<["scales" := l + 4]> (<["weight" := l + 3]>
                      (<["biases" := l + 2]> (<["scales" := l + 1]> {["weight" := l]})))) in
  let '(q0, s0, b0) := quantized g bt u E O I in
  let '(q, s, b') := quantized g bt w E O I in
  to_quantized self gs bits wd
  = Some ({| ql_params := match sl_params self !! "bias" with
                          | Some lb => <["bias" := lb]> p
                          | None => p
                          end;
             group_size := g; bits := bt |},
          World (objs wd ++ [q0; s0; b0; q; s; b']) (draws wd + prod [E; O; I])).
Proof.
  intros g bt (Hw & Hws & Hwf & Hb) HI Hq Hm u l p.
  destruct (quantized g bt u E O I) as [[q0 s0] b0] eqn:Hqu.
  destruct (quantized g bt w E O I) as [[q s] b'] eqn:Hqw.
  unfold to_quantized. fold g bt.
  erewrite bind_Some; [|by apply item_has_param]. rewrite Hws.
  pose proof (QuantizedSwitchLinear_init_Some I O E (Some false) (Some g) (Some bt) wd) as Hinit.
  cbn zeta in Hinit. cbn [default from_option id] in Hinit.
  specialize (Hinit HI Hq Hm). fold u l in Hinit. rewrite Hqu in Hinit.
  erewrite bind_Some; [|exact Hinit]. clear Hinit.
  erewrite bind_Some; cycle 1.
  { destruct Hw as (lw & Hlw & Hlo). apply (item_lookup _ _ lw w); [done|].
    cbn [objs]. by apply lookup_app_l_Some. }
  erewrite bind_Some; [|apply lift_Some; rewrite (quantize_Some w g bt E O I) by done; by rewrite Hqw].
  cbn beta iota.
  erewrite bind_Some; [|apply new_Some]. cbn [objs draws].
  erewrite bind_Some; [|apply new_Some]. cbn [objs draws].
  erewrite bind_Some; [|apply new_Some]. cbn [objs draws ql_params].
  rewrite !length_app. cbn [length]. rewrite <- !app_assoc. cbn [app]. fold l.
  replace (l + 3 + 1) with (l + 4) by lia. replace (l + 4 + 1) with (l + 5) by lia.
  destruct (sl_params self !! "bias") as [lb|] eqn:Hlb.
  - rewrite bool_decide_eq_true_2 by eauto.
    erewrite bind_Some; cycle 1.
    { erewrite bind_Some; [|by apply lift_Some]. apply ret_Some. }
    done.
  - rewrite bool_decide_eq_false_2 by (by intros [? ?]).
    erewrite bind_Some; [|apply ret_Some]. done.
Qed.

End quantize_facts.

(** ** Agreement of computations in two stores *)

Section agree_facts.
Context {R : Type} `{Scalar R} `{Kernels R}.















End agree_facts.

(** * The claims *)

Section claims_sort.

(** C3 — permutation inverse law.  For every index tensor, with [N] its
    number of elements, the sort step's [order = argsort(indices.flatten())]
    and [inv_order = argsort(order)] exist, [inv_order] is the permutation
    [_gather_sort] returns, and [inv_order[order[i]] = i] for every
    [i < N]. *)
Theorem permutation_inverse_law (indices : array nat) :
  wf indices ->
  exists order inv_order,
    mx.argsort (mx.flatten indices) = Some order /\
    mx.argsort order = Some inv_order /\
    length (data order) = size indices /\
    (forall (R : Type) (x xs : array R) (js inv : array nat),
        _gather_sort x indices = Some (xs, js, inv) -> inv = inv_order) /\
    forall i, i < size indices ->
      nth (nth i (data order) 0) (data inv_order) 0 = i.
Proof.
  intros Hw. set (N := size indices).
  set (order := mx.argsort_list (data indices)).
  assert (Hlo : length order = N) by (unfold order; by rewrite length_argsort_list).
  assert (Ho : mx.argsort (mx.flatten indices) = Some (Array [N] order)).
  { unfold mx.flatten. fold N. by apply argsort_1d. }
  assert (Hi : mx.argsort (Array [N] order) = Some (Array [N] (mx.argsort_list order))).
  { by apply argsort_1d. }
  exists (Array [N] order), (Array [N] (mx.argsort_list order)).
  split; [done|]. split; [done|]. split; [done|]. split.
  - intros R x xs js inv Hg. unfold _gather_sort in Hg.
    destruct (last (shape indices)) as [K|]; [|done]. cbn [mbind option_bind] in Hg.
    rewrite Ho in Hg. cbn [mbind option_bind] in Hg.
    rewrite Hi in Hg. cbn [mbind option_bind] in Hg.
    destruct (mx.flatten_axes 0 (-3) x) as [xf|]; [|done]. cbn [mbind option_bind] in Hg.
    destruct (mx.getitem xf _) as [xs'|]; [|done]. cbn [mbind option_bind] in Hg.
    destruct (mx.getitem (mx.flatten indices) _) as [js'|]; [|done].
    cbn [mbind option_bind] in Hg. by injection Hg as _ _ <-.
  - intros i Hi'. cbn [data]. apply (argsort_list_inverse_l order N); [|done].
    unfold order. by rewrite argsort_list_perm, Hw.
Qed.

(** C4 — what the sort step returns.  For [x] of at least three axes whose
    leading axes hold at least as many rows as [indices] has tokens, and
    [indices] with last axis [K] and [N] elements, [_gather_sort] returns
    [(xs, js, inv_order)] such that, for a permutation [order] of the
    positions [0 .. N - 1]: [js] is the flattened [indices] read in [order]
    and is non-decreasing; positions of equal index value keep their
    original relative order in [order]; row [i] of [xs] is row
    [order[i] // K] of the flattened [x]; and [inv_order] inverts
    [order]. *)
Theorem gather_sort_postcondition {R : Type} (sx : list nat) (a b c : nat) (x : array R)
    (si : list nat) (K : nat) (indices : array nat) :
  shape x = sx ++ [a; b; c] -> wf x ->
  shape indices = si ++ [K] -> wf indices ->
  prod si <= prod (sx ++ [a]) ->
  exists (order : list nat) (xs : array R) (js inv_order : array nat),
    _gather_sort x indices = Some (xs, js, inv_order) /\
    order ≡ₚ seq 0 (size indices) /\
    shape js = [size indices] /\
    data js = (fun i => nth i (data indices) 0) <$> order /\
    StronglySorted le (data js) /\
    (forall i j, i < j < size indices ->
       nth (nth i order 0) (data indices) 0 = nth (nth j order 0) (data indices) 0 ->
       nth i order 0 < nth j order 0) /\
    shape xs = [size indices; b; c] /\
    (forall i, i < size indices ->
       row (b * c) i (data xs) = row (b * c) (nth i order 0 / K) (data x)) /\
    shape inv_order = [size indices] /\
    (forall i, i < size indices -> nth (nth i order 0) (data inv_order) 0 = i).
Proof.
  intros Hx Hwx Hi Hwi Hle. destruct x as [shx dx]. destruct indices as [shi di].
  cbn [shape data] in *. subst shx shi.
  unfold wf in Hwx, Hwi. rewrite (size_slots _ si K) in Hwi by done.
  rewrite (size_slots _ si K) by done. cbn [data] in Hwx, Hwi.
  unfold size, array_size in Hwx. cbn [shape] in Hwx.
  replace (sx ++ [a; b; c]) with ((sx ++ [a]) ++ [b; c]) in Hwx by (by rewrite <- app_assoc).
  rewrite prod_app in Hwx. cbn [prod foldr] in Hwx.
  set (N := prod si * K) in *. set (order := mx.argsort_list di).
  assert (Hlo : length order = N) by (unfold order; by rewrite length_argsort_list).
  assert (Hpo : order ≡ₚ seq 0 N) by (unfold order; by rewrite argsort_list_perm, Hwi).
  eexists order, _, _, _. split; [by apply gather_sort_rows|]. cbn [shape data].
  split; [done|]. split; [done|]. split; [done|]. split; [apply argsort_list_keys_sorted|].
  split; [|split; [done|split; [|split; [done|]]]].
  - intros i j [Hij Hj] Heq.
    destruct (lookup_lt_is_Some_2 order i) as [oi Hoi]; [lia|].
    destruct (lookup_lt_is_Some_2 order j) as [oj Hoj]; [lia|].
    rewrite (nth_lookup_Some _ _ _ _ Hoi), (nth_lookup_Some _ _ _ _ Hoj) in *.
    pose proof (StronglySorted_lookup _ _ i j oi oj (argsort_list_sorted di) Hij Hoi Hoj) as Hb.
    unfold before in Hb. lia.
  - intros i Hi'.
    rewrite (row_tabulate (fun p => row (b * c) (nth p order 0 / K) dx) N (b * c));
      [done| |done].
    intros q Hq. apply length_row. rewrite Hwx.
    pose proof (nth_perm_lt order N q Hpo Hq) as Ho.
    assert (nth q order 0 / K < prod si)
      by (apply Nat.Div0.div_lt_upper_bound; unfold N in Ho; lia).
    nia.
  - intros i Hi'. by apply (argsort_list_inverse_l order N).
Qed.

End claims_sort.

Section claims_apply.
Context {R : Type} `{Scalar R} `{Kernels R}.

(** C5 — the plain unit's apply.  The unit holds a weight of shape
    [num_experts; output_dims; input_dims] and maybe a bias of shape
    [num_experts; output_dims]; [indices] has shape [s ++ [K]] and values
    below [num_experts]; [x] has one row [1; input_dims] for every index
    ([k = K]) or one for every token, shared by its [K] slots ([k = 1]).
    Then the call returns, without touching the store, an array of shape
    [indices.shape ++ [1; output_dims]] in which the row of position [p] is
    [weight[e]] transposed applied to the input row paired with [p], with
    [e = indices[p]], plus [bias[e]] when the unit has a bias. *)
Theorem SwitchLinear_call_unit (wd : world R) (self : SwitchLinear) (w : array R)
    (b : option (array R)) (E O I : nat) (s : list nat) (K k : nat)
    (x : array R) (indices : array nat) (sorted_indices : bool) :
  unit_at wd self w b E O I ->
  shape indices = s ++ [K] -> wf indices -> Forall (fun e => e < E) (data indices) ->
  shape x = s ++ [k; 1; I] -> wf x -> k = K \/ k = 1 ->
  exists y,
    SwitchLinear_call self x indices sorted_indices wd = Some (y, wd) /\
    shape y = shape indices ++ [1; O] /\
    last (shape y) = Some O /\
    forall p, p < size indices ->
      let e := nth p (data indices) 0 in
      let v := row I (if decide (k = K) then p else p / K) (data x) in
      let mv := (fun j => mx.dot v (row I j (row (O * I) e (data w)))) <$> seq 0 O in
      row O p (data y) = match b with
                         | Some bias => zip_with sadd mv (row O e (data bias))
                         | None => mv
                         end.
Proof.
  intros Hu Hi Hwi Hr Hx Hwx Hk.
  pose proof (unit_rowwise wd self w b E O I sorted_indices Hu) as Hrw.
  assert (Hws : shape w = [E; O; I]) by (by destruct Hu as (_ & ? & _)).
  assert (Hsz : size indices = prod s * K) by (by apply size_slots).
  assert (Hin : forall p, p < size indices -> nth p (data indices) 0 < E).
  { intros p Hp. apply nth_in_range; [done|]. by rewrite Hwi. }
  assert (Hlen : forall f : nat -> list R, (forall p, p < size indices -> length (f p) = I) ->
            forall p, p < size indices ->
              length (expert_linear w b (nth p (data indices) 0) (f p)) = O).
  { intros f Hf p Hp. destruct Hrw as [Hl _]. apply Hl; auto. }
  assert (Hdx : length (data x) = prod s * k * I).
  { unfold wf, size, array_size in Hwx. rewrite Hwx, Hx, prod_app. cbn [prod foldr]. lia. }
  destruct x as [shx dx]. cbn [shape data] in *. subst shx.
  destruct (decide (k = K)) as [->|Hne].
  - assert (Hrow : forall p, p < size indices -> length (row I p dx) = I).
    { intros p Hp. apply length_row. rewrite Hdx. nia. }
    eexists. split.
    { apply (rowwise_same wd _ E I O _ _ (fun p => row I p dx) indices Hrw); try done.
      - cbn [shape]. by rewrite Hi, <- app_assoc.
      - cbn [data]. symmetry. apply tabulate_rows. rewrite Hdx, Hsz. done. }
    cbn [shape data]. split; [done|]. split.
    { by rewrite (app_assoc _ [1] [O]), last_snoc. }
    intros p Hp. cbn zeta. rewrite (row_tabulate _ (size indices) O);
      [|intros q Hq; by apply (Hlen (fun p => row I p dx))|done].
    unfold expert_linear. by rewrite Hws.
  - destruct Hk as [->| ->]; [done|].
    assert (Hrow : forall p, p < size indices -> length (row I (p / K) dx) = I).
    { intros p Hp. apply length_row. rewrite Hdx.
      assert (p / K < prod s) by (apply Nat.Div0.div_lt_upper_bound; lia). nia. }
    eexists. split.
    { apply (rowwise_slots wd _ E I O _ s K dx indices Hrw); try done. lia. }
    cbn [shape data]. split; [done|]. split.
    { by rewrite (app_assoc _ [1] [O]), last_snoc. }
    intros p Hp. cbn zeta. rewrite (row_tabulate _ (size indices) O);
      [|intros q Hq; by apply (Hlen (fun p => row I (p / K) dx))|done].
    unfold expert_linear. by rewrite Hws.
Qed.

(** The result of both blocks on every path: the rows [G] computes for
    each (token, slot) pair, in the order of [indices]. *)
Lemma scaffold_rows (wd : world R) tr experts E D G s K (x : array R) (idx : array nat) sorted :
  rowwise wd (experts sorted) E D D G ->
  shape x = s ++ [D] -> wf x ->
  shape idx = s ++ [K] -> wf idx -> Forall (fun e => e < E) (data idx) ->
  scaffold tr (experts sorted) sorted x idx wd
  = Some (Array (shape idx ++ [D])
                (tabulate (fun p => G (nth p (data idx) 0) (row D (p / K) (data x))) (size idx)),
          wd).
Proof.
  intros. destruct sorted.
  - by apply (scaffold_sorted wd tr _ E D G s s K).
  - by apply (scaffold_direct wd tr _ E D G s K).
Qed.

Lemma SwitchGLU_body_rows (wd : world R) (self : SwitchGLU) wg bg wu bu wdn bd E Hd D s K
    (x : array R) (idx : array nat) sorted :
  glu_at wd self wg bg wu bu wdn bd E Hd D ->
  shape x = s ++ [D] -> wf x ->
  shape idx = s ++ [K] -> wf idx -> Forall (fun e => e < E) (data idx) ->
  SwitchGLU_body sorted self x idx wd
  = Some (Array (shape idx ++ [D])
                (tabulate (fun p => glu_expert (glu_activation self) wg bg wu bu wdn bd
                                      (nth p (data idx) 0) (row D (p / K) (data x)))
                          (size idx)), wd).
Proof.
  intros (Hg & Hu & Hdn) Hx Hwx Hi Hwi Hr. rewrite SwitchGLU_body_scaffold.
  apply (scaffold_rows wd _ (glu_experts self) E D _ s K); try done.
  by apply (glu_rowwise wd self wg bg wu bu wdn bd E Hd D).
Qed.

Lemma SwitchMLP_body_rows (wd : world R) (self : SwitchMLP) w1 b1 w2 b2 E Hd D s K
    (x : array R) (idx : array nat) sorted :
  mlp_at wd self w1 b1 w2 b2 E Hd D ->
  shape x = s ++ [D] -> wf x ->
  shape idx = s ++ [K] -> wf idx -> Forall (fun e => e < E) (data idx) ->
  SwitchMLP_body sorted self x idx wd
  = Some (Array (shape idx ++ [D])
                (tabulate (fun p => mlp_expert (mlp_activation self) w1 b1 w2 b2
                                      (nth p (data idx) 0) (row D (p / K) (data x)))
                          (size idx)), wd).
Proof.
  intros (H1 & H2) Hx Hwx Hi Hwi Hr. rewrite SwitchMLP_body_scaffold.
  apply (scaffold_rows wd _ (mlp_experts self) E D _ s K); try done.
  by apply (mlp_rowwise wd self w1 b1 w2 b2 E Hd D).
Qed.

(** Position [(b, t, k)] of a [B; T; K] tensor, and its token. *)
Lemma slot_position B T K b t k :
  b < B -> t < T -> k < K ->
  (b * T + t) * K + k < prod [B; T] * K /\ ((b * T + t) * K + k) / K = b * T + t.
Proof.
  intros Hb Ht Hk. cbn [prod foldr]. split.
  - assert (b * T + t + 1 <= B * T) by nia.
    assert ((b * T + t + 1) * K <= B * T * K) by (apply Nat.mul_le_mono_r; lia).
    lia.
  - rewrite Nat.div_add_l by lia. rewrite Nat.div_small by done. lia.
Qed.

End claims_apply.

Section claims_blocks.
Context {R : Type} `{Scalar R} `{Kernels R}.

(** C2 — what [SwitchGLU] computes.  For [x] of shape [B; T; input_dims]
    and [indices] of shape [B; T; K] with values below [num_experts], the
    call returns, without touching the store, an array of shape
    [B; T; K; input_dims] whose row at [(b, t, k)] is
    [down(act(gate(v, e)) * up(v, e), e)] for the token's row [v = x[b, t]]
    and the slot's expert [e = indices[b, t, k]]: every slot has its own
    row, whether or not another slot of the token names the same expert. *)
Theorem SwitchGLU_call_per_slot (wd : world R) (self : SwitchGLU)
    (wg : array R) (bg : option (array R)) (wu : array R) (bu : option (array R))
    (wdn : array R) (bd : option (array R)) (E Hd D B T K : nat)
    (x : array R) (indices : array nat) :
  glu_at wd self wg bg wu bu wdn bd E Hd D ->
  shape x = [B; T; D] -> wf x ->
  shape indices = [B; T; K] -> wf indices -> Forall (fun e => e < E) (data indices) ->
  exists y,
    SwitchGLU_call self x indices wd = Some (y, wd) /\
    shape y = [B; T; K; D] /\
    forall b t k, b < B -> t < T -> k < K ->
      let p := (b * T + t) * K + k in
      let e := nth p (data indices) 0 in
      let v := row D (b * T + t) (data x) in
      row D p (data y)
      = expert_linear wdn bd e
          (zip_with smul (glu_activation self <$> expert_linear wg bg e v)
                         (expert_linear wu bu e v)).
Proof.
  intros Hg Hx Hwx Hi Hwi Hr. eexists. split.
  { unfold SwitchGLU_call.
    by apply (SwitchGLU_body_rows wd self wg bg wu bu wdn bd E Hd D [B; T] K). }
  cbn [shape data]. split; [by rewrite Hi|].
  intros b t k Hb Ht Hk. cbn zeta.
  destruct (slot_position B T K b t k Hb Ht Hk) as [Hp Hdiv].
  assert (Hsz : size indices = prod [B; T] * K) by (by apply (size_slots indices [B; T] K)).
  destruct (glu_rowwise wd self wg bg wu bu wdn bd E Hd D false) as [Hlen _];
    [apply Hg..|].
  assert (Hdx : length (data x) = prod [B; T] * D).
  { unfold wf in Hwx. by rewrite (size_slots x [B; T] D) in Hwx. }
  rewrite (row_tabulate _ (size indices) D); [|intros q Hq|by rewrite Hsz].
  - by rewrite Hdiv.
  - apply Hlen; [apply nth_in_range; [done|by rewrite Hwi]|].
    apply length_row. rewrite Hdx. rewrite Hsz in Hq.
    assert (q / K < prod [B; T]) by (apply Nat.Div0.div_lt_upper_bound; lia). nia.
Qed.

(** C6 — what [SwitchMLP] computes.  For [x] of shape [B; T; input_dims]
    and [indices] of shape [B; T; K] with values below [num_experts], the
    call returns, without touching the store, an array of shape
    [B; T; K; input_dims] whose row at [(b, t, k)] is [fc2(act(fc1(v, e)), e)]
    for the token's row [v] and the slot's expert [e]: two units, one
    activation between them, no product of two branches.  On either path the
    body is the steps [scaffold] around the two units, and the body of
    [SwitchGLU] is the same steps around its three. *)
Theorem SwitchMLP_call_per_slot (wd : world R) (self : SwitchMLP)
    (w1 : array R) (b1 : option (array R)) (w2 : array R) (b2 : option (array R))
    (E Hd D B T K : nat) (x : array R) (indices : array nat) :
  mlp_at wd self w1 b1 w2 b2 E Hd D ->
  shape x = [B; T; D] -> wf x ->
  shape indices = [B; T; K] -> wf indices -> Forall (fun e => e < E) (data indices) ->
  (exists y,
     SwitchMLP_call self x indices wd = Some (y, wd) /\
     shape y = [B; T; K; D] /\
     forall b t k, b < B -> t < T -> k < K ->
       let p := (b * T + t) * K + k in
       let e := nth p (data indices) 0 in
       let v := row D (b * T + t) (data x) in
       row D p (data y)
       = expert_linear w2 b2 e (mlp_activation self <$> expert_linear w1 b1 e v)) /\
  (forall sorted,
     SwitchMLP_body sorted self x indices wd
     = scaffold (mlp_training self) (mlp_experts self sorted) sorted x indices wd) /\
  (forall (glu : SwitchGLU) sorted,
     SwitchGLU_body sorted glu x indices wd
     = scaffold (glu_training glu) (glu_experts glu sorted) sorted x indices wd).
Proof.
  intros Hm Hx Hwx Hi Hwi Hr.
  split; [|split; [intros; apply SwitchMLP_body_scaffold
                  |intros; apply SwitchGLU_body_scaffold]].
  eexists. split.
  { unfold SwitchMLP_call.
    by apply (SwitchMLP_body_rows wd self w1 b1 w2 b2 E Hd D [B; T] K). }
  cbn [shape data]. split; [by rewrite Hi|].
  intros b t k Hb Ht Hk. cbn zeta.
  destruct (slot_position B T K b t k Hb Ht Hk) as [Hp Hdiv].
  assert (Hsz : size indices = prod [B; T] * K) by (by apply (size_slots indices [B; T] K)).
  destruct (mlp_rowwise wd self w1 b1 w2 b2 E Hd D false) as [Hlen _]; [apply Hm..|].
  assert (Hdx : length (data x) = prod [B; T] * D).
  { unfold wf in Hwx. by rewrite (size_slots x [B; T] D) in Hwx. }
  rewrite (row_tabulate _ (size indices) D); [|intros q Hq|by rewrite Hsz].
  - by rewrite Hdiv.
  - apply Hlen; [apply nth_in_range; [done|by rewrite Hwi]|].
    apply length_row. rewrite Hdx. rewrite Hsz in Hq.
    assert (q / K < prod [B; T]) by (apply Nat.Div0.div_lt_upper_bound; lia). nia.
Qed.


End claims_blocks.

Section claims_units.
Context {R : Type} `{Scalar R} `{Kernels R}.

Lemma quantized_shapes g bt (w : array R) E O I q s b :
  quantized g bt w E O I = (q, s, b) ->
  shape q = [E; O; I * bt / 32] /\ shape s = [E; O; I / g] /\ shape b = [E; O; I / g].
Proof.
  unfold quantized. destruct (quantize_data g bt w) as [[q' s'] b'].
  by intros [= <- <- <-].
Qed.

(** The properties of a plain unit read the shape of the stored weight. *)
Lemma SwitchLinear_properties (self : SwitchLinear) (wd : world R) w :
  has_param wd (sl_params self) "weight" w ->
  input_dims self wd = lift (shape w !! 2) wd /\
  output_dims self wd = lift (shape w !! 1) wd /\
  num_experts self wd = lift (shape w !! 0) wd.
Proof.
  intros Hw. unfold input_dims, output_dims, num_experts.
  by rewrite !(bind_Some _ _ wd w wd) by (by apply item_has_param).
Qed.

(** The properties of a quantized unit read the shapes of the stored
    weight and scales, and the group size. *)
Lemma QuantizedSwitchLinear_properties (ql : QuantizedSwitchLinear) (wd : world R) w s :
  has_param wd (ql_params ql) "weight" w ->
  has_param wd (ql_params ql) "scales" s ->
  ql_input_dims ql wd = lift ((fun d => d * group_size ql) <$> shape s !! 2) wd /\
  ql_output_dims ql wd = lift (shape w !! 1) wd /\
  ql_num_experts ql wd = lift (shape w !! 0) wd.
Proof.
  intros Hw Hs. unfold ql_input_dims, ql_output_dims, ql_num_experts.
  rewrite (bind_Some (item (ql_params ql) "scales") _ wd s wd) by (by apply item_has_param).
  rewrite !(bind_Some (item (ql_params ql) "weight") _ wd w wd) by (by apply item_has_param).
  split; [|done]. unfold mbind, M_bind, lift. by destruct (shape s !! 2).
Qed.

Lemma div_mul_exact I g : 0 < I -> I `mod` g = 0 -> I / g * g = I.
Proof.
  intros HI Hm. destruct g as [|g]; [simpl in Hm; lia|].
  pose proof (Nat.div_mod_eq I (S g)). lia.
Qed.

(** C8 — introspection.  A unit constructed with [(input_dims, output_dims,
    num_experts)] reports exactly these three values: the plain unit always
    (for a positive [input_dims], which the constructor needs), the
    quantized unit whenever [mx.quantize] accepts the group size and width
    and the group size divides [input_dims].  The values are read from the
    stored arrays, no unit keeps a copy: whatever arrays the attributes
    hold, the plain unit reports [weight.shape], and the quantized unit
    [weight.shape[0]], [weight.shape[1]] and
    [scales.shape[2] * group_size]. *)
Theorem introspection_consistency (wd : world R) (I O E : nat) (bias : option bool)
    (gs bts : option nat) :
  0 < I ->
  (exists self wd',
     SwitchLinear_init I O E bias wd = Some (self, wd') /\
     input_dims self wd' = Some (I, wd') /\
     output_dims self wd' = Some (O, wd') /\
     num_experts self wd' = Some (E, wd')) /\
  (quantize_supported (default 64 gs) (default 4 bts) = true ->
   I `mod` default 64 gs = 0 ->
   exists ql wd',
     QuantizedSwitchLinear_init I O E bias gs bts wd = Some (ql, wd') /\
     ql_input_dims ql wd' = Some (I, wd') /\
     ql_output_dims ql wd' = Some (O, wd') /\
     ql_num_experts ql wd' = Some (E, wd')) /\
  (forall (self : SwitchLinear) (wd : world R) (w : array R),
     has_param wd (sl_params self) "weight" w ->
     input_dims self wd = lift (shape w !! 2) wd /\
     output_dims self wd = lift (shape w !! 1) wd /\
     num_experts self wd = lift (shape w !! 0) wd) /\
  (forall (ql : QuantizedSwitchLinear) (wd : world R) (w s : array R),
     has_param wd (ql_params ql) "weight" w ->
     has_param wd (ql_params ql) "scales" s ->
     ql_input_dims ql wd = lift ((fun d => d * group_size ql) <$> shape s !! 2) wd /\
     ql_output_dims ql wd = lift (shape w !! 1) wd /\
     ql_num_experts ql wd = lift (shape w !! 0) wd).
Proof.
  intros HI. split; [|split; [|split]].
  - destruct (SwitchLinear_init I O E bias wd) as [[self wd']|] eqn:Hinit;
      [|by rewrite SwitchLinear_init_Some in Hinit; [destruct (default true bias)|]].
    destruct (unit_at_init I O E bias wd self wd' HI Hinit) as (w & (Hw & Hs & _) & _).
    exists self, wd'. split; [done|].
    destruct (SwitchLinear_properties self wd' w Hw) as (-> & -> & ->).
    by rewrite Hs.
  - intros Hq Hm.
    pose proof (QuantizedSwitchLinear_init_Some I O E bias gs bts wd HI Hq Hm) as Hinit.
    cbn zeta in Hinit.
    destruct (quantized _ _ _ E O I) as [[q s] b] eqn:Hqu.
    destruct (quantized_shapes _ _ _ _ _ _ _ _ _ Hqu) as (Hsq & Hss & _).
    assert (Hps : forall ql wd' (p : params),
              p !! "weight" = Some (length (objs wd)) ->
              p !! "scales" = Some (length (objs wd) + 1) ->
              ql_params ql = p -> group_size ql = default 64 gs ->
              (exists rest, objs wd' = objs wd ++ q :: s :: rest) ->
              ql_input_dims ql wd' = Some (I, wd') /\
              ql_output_dims ql wd' = Some (O, wd') /\
              ql_num_experts ql wd' = Some (E, wd')).
    { intros ql wd' p Hpw Hpsc Hp Hg [rest Hobjs].
      destruct (QuantizedSwitchLinear_properties ql wd' q s) as (-> & -> & ->).
      - exists (length (objs wd)). rewrite Hp, Hobjs. split; [done|].
        by rewrite lookup_app_r, Nat.sub_diag.
      - exists (length (objs wd) + 1). rewrite Hp, Hobjs. split; [done|].
        rewrite lookup_app_r by lia. by replace (_ + 1 - _) with 1 by lia.
      - rewrite Hsq, Hss, Hg. cbn. by rewrite div_mul_exact. }
    destruct (default true bias); (eexists _, _; split; [exact Hinit|]).
    + eapply Hps; cbn [ql_params group_size objs]; try done.
      * by rewrite !lookup_insert_ne, lookup_singleton_eq.
      * by rewrite lookup_insert_ne, lookup_insert_ne, lookup_insert_eq.
      * eauto.
    + eapply Hps; cbn [ql_params group_size objs]; try done.
      * by rewrite !lookup_insert_ne, lookup_singleton_eq.
      * by rewrite lookup_insert_ne, lookup_insert_eq.
      * eauto.
  - apply SwitchLinear_properties.
  - apply QuantizedSwitchLinear_properties.
Qed.

End claims_units.

Section claims_construction.
Context {R : Type} `{Scalar R} `{Kernels R}.

(** A unit built with [bias] has the attribute exactly when [bias] holds. *)
Lemma SwitchLinear_init_bias (I O E : nat) (bias : bool) (wd : world R) :
  0 < I ->
  exists self wd',
    SwitchLinear_init I O E (Some bias) wd = Some (self, wd') /\
    (is_Some (sl_params self !! "bias") <-> bias = true).
Proof.
  intros HI. rewrite SwitchLinear_init_Some by done. cbn [default from_option id].
  destruct bias; eexists _, _; (split; [reflexivity|]); cbn [sl_params].
  - rewrite lookup_insert_eq. split; eauto.
  - rewrite lookup_singleton_ne by done. split; [by intros [? ?]|done].
Qed.

(** C10 — the bias of the units inside a block.  [SwitchGLU] and
    [SwitchMLP] build each of their units with the block's own [bias]
    argument, which defaults to [False]: a unit inside a block has a bias
    exactly when the block was given [bias = True], so none has one by
    default; a [SwitchLinear] built directly with [bias] left out has
    one. *)
Theorem block_units_bias (wd : world R) (I Hd E : nat) (act : R -> R) (bias : option bool) :
  0 < I -> 0 < Hd ->
  exists (glu : SwitchGLU) (wd1 : world R) (mlp : SwitchMLP) (wd2 : world R)
         (lin : SwitchLinear) (wd3 : world R),
    SwitchGLU_init I Hd E act bias wd = Some (glu, wd1) /\
    SwitchMLP_init I Hd E act bias wd = Some (mlp, wd2) /\
    SwitchLinear_init I Hd E None wd = Some (lin, wd3) /\
    Forall (fun u => is_Some (sl_params u !! "bias") <-> default false bias = true)
           [gate_proj glu; up_proj glu; down_proj glu; fc1 mlp; fc2 mlp] /\
    (bias = None ->
       Forall (fun u => sl_params u !! "bias" = None)
              [gate_proj glu; up_proj glu; down_proj glu; fc1 mlp; fc2 mlp]) /\
    is_Some (sl_params lin !! "bias").
Proof.
  intros HI HHd. set (bv := default false bias).
  destruct (SwitchLinear_init_bias I Hd E bv wd HI) as (g & wg & Hg & Hgb).
  destruct (SwitchLinear_init_bias I Hd E bv wg HI) as (u & wu & Hu & Hub).
  destruct (SwitchLinear_init_bias Hd I E bv wu HHd) as (d & wdn & Hd' & Hdb).
  destruct (SwitchLinear_init_bias Hd I E bv wg HHd) as (f2 & wf2 & Hf2 & Hf2b).
  assert (Hglu : SwitchGLU_init I Hd E act bias wd
                 = Some ({| gate_proj := g; up_proj := u; down_proj := d;
                            glu_activation := act; glu_training := true |}, wdn)).
  { unfold SwitchGLU_init. fold bv.
    erewrite bind_Some; [|exact Hg]. erewrite bind_Some; [|exact Hu].
    erewrite bind_Some; [|exact Hd']. done. }
  assert (Hmlp : SwitchMLP_init I Hd E act bias wd
                 = Some ({| fc1 := g; fc2 := f2; mlp_activation := act;
                            mlp_training := true |}, wf2)).
  { unfold SwitchMLP_init. fold bv.
    erewrite bind_Some; [|exact Hg]. erewrite bind_Some; [|exact Hf2]. done. }
  pose proof (SwitchLinear_init_Some I Hd E None wd HI) as Hlin.
  cbn zeta in Hlin. cbn [default from_option id] in Hlin.
  eexists _, _, _, _, _, _. split; [exact Hglu|]. split; [exact Hmlp|].
  split; [exact Hlin|]. cbn [gate_proj up_proj down_proj fc1 fc2 sl_params].
  split; [repeat (apply Forall_cons_2; [assumption|]); apply Forall_nil_2|]. split.
  - intros ->.
    assert (Hno : forall u : SwitchLinear,
              (is_Some (sl_params u !! "bias") <-> bv = true) -> sl_params u !! "bias" = None).
    { intros x [Hx _]. destruct (sl_params x !! "bias"); [|done].
      by specialize (Hx (ltac:(eauto))). }
    repeat (apply Forall_cons_2; [by apply Hno|]). apply Forall_nil_2.
  - rewrite lookup_insert_eq. eauto.
Qed.

(** What [to_quantized] returns, in the terms of the claim. *)
Lemma to_quantized_result (wd : world R) (self : SwitchLinear) (w : array R)
    (b : option (array R)) (E O I : nat) (gs bts : option nat) :
  unit_at wd self w b E O I ->
  0 < I -> quantize_supported (default 64 gs) (default 4 bts) = true ->
  I `mod` default 64 gs = 0 ->
  exists (p : params) (q0 s0 b0 q s b' : array R),
    let l := length (objs wd) in
    to_quantized self gs bts wd
    = Some ({| ql_params := match sl_params self !! "bias" with
                            | Some lb => <["bias" := lb]> p
                            | None => p
                            end;
               group_size := default 64 gs; bits := default 4 bts |},
            World (objs wd ++ [q0; s0; b0; q; s; b']) (draws wd + prod [E; O; I])) /\
    p = <["biases" := l + 5]> (<["scales" := l + 4]> (<["weight" := l + 3]>
          (<["biases" := l + 2]> (<["scales" := l + 1]> {["weight" := l]})))) /\
    shape q = [E; O; I * default 4 bts / 32] /\ shape s = [E; O; I / default 64 gs].
Proof.
  intros Hu HI Hq Hm.
  pose proof (to_quantized_Some wd self w b E O I gs bts Hu HI Hq Hm) as Hto.
  cbn zeta in Hto.
  destruct (quantized _ _ _ E O I) as [[q0 s0] b0].
  destruct (quantized _ _ w E O I) as [[q s] b'] eqn:Hqw.
  destruct (quantized_shapes _ _ _ _ _ _ _ _ _ Hqw) as (Hsq & Hss & _).
  eexists _, q0, s0, b0, q, s, b'. cbn zeta. split; [exact Hto|]. done.
Qed.

End claims_construction.

Section claims_conversion.
Context {R : Type} `{Scalar R} `{Kernels R}.

(** The attributes of the unit [to_quantized] returns. *)
Lemma to_quantized_params (l : nat) (source : option loc) :
  let p : params :=
    <["biases" := l + 5]> (<["scales" := l + 4]> (<["weight" := l + 3]>
      (<["biases" := l + 2]> (<["scales" := l + 1]> {["weight" := l]})))) in
  let p' : params := match source with Some lb => <["bias" := lb]> p | None => p end in
  p' !! "weight" = Some (l + 3) /\ p' !! "scales" = Some (l + 4) /\
  p' !! "biases" = Some (l + 5) /\ p' !! "bias" = source.
Proof.
  intros p p'. unfold p', p.
  destruct source as [lb|]; repeat split;
    repeat (rewrite lookup_insert_ne by done);
    by rewrite ?lookup_insert_eq, ?lookup_singleton_ne.
Qed.

(** C7, as the code has it — [to_quantized] on a unit of [E] experts from
    [I] to [O] dimensions, for a group size and width [mx.quantize] accepts
    with the group size dividing [I]: it returns a quantized unit that
    reports the same [num_experts], [output_dims] and [input_dims]; its
    weight, scales and biases are new array objects; its bias attribute,
    when the source has one, is the source's bias array object itself (the
    same reference, not a copy), and it has none otherwise; the conversion
    changes no array that existed before, so the source unit still holds
    the same weight and bias. *)
Theorem to_quantized_frame (wd : world R) (self : SwitchLinear) (w : array R)
    (b : option (array R)) (E O I : nat) (gs bts : option nat) :
  unit_at wd self w b E O I ->
  0 < I -> quantize_supported (default 64 gs) (default 4 bts) = true ->
  I `mod` default 64 gs = 0 ->
  exists ql wd',
    to_quantized self gs bts wd = Some (ql, wd') /\
    ql_num_experts ql wd' = Some (E, wd') /\
    ql_output_dims ql wd' = Some (O, wd') /\
    ql_input_dims ql wd' = Some (I, wd') /\
    ql_params ql !! "bias" = sl_params self !! "bias" /\
    (forall bias, b = Some bias -> has_param wd' (ql_params ql) "bias" bias) /\
    (forall name l, name ∈ ["weight"; "scales"; "biases"] ->
       ql_params ql !! name = Some l -> length (objs wd) <= l) /\
    (forall l a, objs wd !! l = Some a -> objs wd' !! l = Some a) /\
    unit_at wd' self w b E O I.
Proof.
  intros Hu HI Hq Hm.
  destruct (to_quantized_result wd self w b E O I gs bts Hu HI Hq Hm)
    as (p & q0 & s0 & b0 & q & s & b' & Hto & Hp & Hsq & Hss).
  cbn zeta in Hto, Hp. subst p.
  destruct (to_quantized_params (length (objs wd)) (sl_params self !! "bias"))
    as (Hpw & Hps & Hpb & Hpbias).
  eexists _, _. split; [exact Hto|]. cbn [objs ql_params].
  assert (Hext : forall l a, objs wd !! l = Some a ->
            (objs wd ++ [q0; s0; b0; q; s; b']) !! l = Some a).
  { intros l a Hl. by apply lookup_app_l_Some. }
  assert (Hpar : forall name a, has_param wd (sl_params self) name a ->
            has_param (World (objs wd ++ [q0; s0; b0; q; s; b']) (draws wd + prod [E; O; I]))
                      (sl_params self) name a).
  { intros name a (l & Hl & Ha). exists l. split; [done|]. by apply Hext. }
  match goal with
  | |- ql_num_experts ?ql ?wd' = _ /\ _ =>
      destruct (QuantizedSwitchLinear_properties ql wd' q s) as (Hin & Hout & Hnum)
  end.
  { eexists. split; [exact Hpw|]. cbn [objs]. by rewrite lookup_fresh. }
  { eexists. split; [exact Hps|]. cbn [objs]. by rewrite lookup_fresh. }
  rewrite Hin, Hout, Hnum, Hsq, Hss. cbn [group_size].
  split; [done|]. split; [done|]. split; [cbn; by rewrite div_mul_exact|].
  split; [exact Hpbias|]. split; [|split; [|split; [exact Hext|]]].
  - intros bias ->. destruct Hu as (_ & _ & _ & (lb & Hlb & Hb) & _).
    exists lb. split; [by rewrite Hpbias|]. by apply Hext.
  - intros name l Hn Hl.
    repeat (apply elem_of_cons in Hn as [->|Hn]); [| | |by apply elem_of_nil in Hn].
    + rewrite Hpw in Hl. injection Hl as <-. lia.
    + rewrite Hps in Hl. injection Hl as <-. lia.
    + rewrite Hpb in Hl. injection Hl as <-. lia.
  - destruct Hu as (Hw & Hs & Hwf & Hb). split; [by apply Hpar|].
    split; [done|]. split; [done|]. destruct b as [bias|]; [|done].
    destruct Hb as (Hb & ? & ?). split; [by apply Hpar|done].
Qed.


End claims_conversion.

(** ** The claims at concrete inputs *)


Lemma SwitchGLU_call_per_slot_witness :
  exists y, SwitchGLU_call ex_glu ex_x ex_indices ex_world = Some (y, ex_world) /\
            shape y = [1; 2; 2; 2].
Proof.
  destruct (SwitchGLU_call_per_slot ex_world ex_glu
              (Array [2; 1; 2] [1; 2; 3; 4]%Z) None (Array [2; 1; 2] [5; 6; 7; 8]%Z) None
              (Array [2; 2; 1] [1; -1; 2; 3]%Z) None 2 1 2 1 2 2 ex_x ex_indices)
    as (y & Hy & Hs & _); [holds|reflexivity|reflexivity|reflexivity|reflexivity|decided|].
  by exists y.
Defined.

Lemma permutation_inverse_law_witness :
  exists order inv_order,
    mx.argsort (mx.flatten ex_indices) = Some order /\
    mx.argsort order = Some inv_order /\
    forall i, i < 4 -> nth (nth i (data order) 0) (data inv_order) 0 = i.
Proof.
  destruct (permutation_inverse_law ex_indices) as (o & i & Ho & Hi & _ & _ & Hinv);
    [reflexivity|].
  by exists o, i.
Defined.

Lemma gather_sort_postcondition_witness :
  exists xs js inv_order,
    _gather_sort ex_x5 ex_indices = Some (xs, js, inv_order) /\
    StronglySorted le (data js).
Proof.
  destruct (gather_sort_postcondition [1; 2] 1 1 2 ex_x5 [1; 2] 2 ex_indices)
    as (order & xs & js & inv & Hg & _ & _ & _ & Hs & _);
    [reflexivity|reflexivity|reflexivity|reflexivity|vm_compute; lia|].
  by exists xs, js, inv.
Defined.

Lemma SwitchLinear_call_unit_witness :
  exists y, SwitchLinear_call ex_biased ex_x5 ex_indices false ex_world = Some (y, ex_world) /\
            shape y = [1; 2; 2; 1; 1].
Proof.
  destruct (SwitchLinear_call_unit ex_world ex_biased
              (Array [2; 1; 2] [1; 2; 3; 4]%Z) (Some (Array [2; 1] [10; 20]%Z))
              2 1 2 [1; 2] 2 1 ex_x5 ex_indices false)
    as (y & Hy & Hs & _);
    [holds|reflexivity|reflexivity|decided|reflexivity|reflexivity|by right|].
  by exists y.
Defined.

Lemma SwitchMLP_call_per_slot_witness :
  exists y, SwitchMLP_call ex_mlp ex_x ex_indices ex_world = Some (y, ex_world) /\
            shape y = [1; 2; 2; 2].
Proof.
  destruct (SwitchMLP_call_per_slot ex_world ex_mlp
              (Array [2; 1; 2] [1; 2; 3; 4]%Z) None (Array [2; 2; 1] [1; -1; 2; 3]%Z) None
              2 1 2 1 2 2 ex_x ex_indices)
    as ((y & Hy & Hs & _) & _);
    [holds|reflexivity|reflexivity|reflexivity|reflexivity|decided|].
  by exists y.
Defined.

Lemma to_quantized_frame_witness :
  exists ql wd',
    to_quantized ex_wide (Some 32) None ex_world32 = Some (ql, wd') /\
    ql_input_dims ql wd' = Some (32, wd') /\
    ql_params ql !! "bias" = sl_params ex_wide !! "bias".
Proof.
  destruct (to_quantized_frame ex_world32 ex_wide
              (Array [1; 1; 32] (replicate 32 1%Z)) (Some (Array [1; 1] [5]%Z))
              1 1 32 (Some 32) None)
    as (ql & wd' & Hto & _ & _ & Hin & Hb & _);
    [holds|vm_compute; lia|reflexivity|reflexivity|].
  by exists ql, wd'.
Defined.

Lemma introspection_consistency_witness :
  (exists self wd',
     SwitchLinear_init 32 3 2 None world0 = Some (self, wd') /\
     input_dims self wd' = Some (32, wd') /\
     output_dims self wd' = Some (3, wd') /\
     num_experts self wd' = Some (2, wd')) /\
  (exists ql wd',
     QuantizedSwitchLinear_init 32 3 2 None (Some 32) None world0 = Some (ql, wd') /\
     ql_input_dims ql wd' = Some (32, wd') /\
     ql_output_dims ql wd' = Some (3, wd') /\
     ql_num_experts ql wd' = Some (2, wd')).
Proof.
  destruct (introspection_consistency world0 32 3 2 None (Some 32) None)
    as (Hp & Hq & _); [vm_compute; lia|].
  split; [exact Hp|]. apply Hq; reflexivity.
Defined.


Lemma block_units_bias_witness :
  exists (glu : @SwitchGLU Z) wd1,
    SwitchGLU_init 2 3 2 (fun z => (z * z)%Z) None world0 = Some (glu, wd1) /\
    sl_params (gate_proj glu) !! "bias" = None /\
    sl_params (up_proj glu) !! "bias" = None /\
    sl_params (down_proj glu) !! "bias" = None.
Proof.
  destruct (block_units_bias world0 2 3 2 (fun z => (z * z)%Z) None)
    as (glu & wd1 & mlp & wd2 & lin & wd3 & Hg & _ & _ & _ & Hn & _);
    [vm_compute; lia|vm_compute; lia|].
  specialize (Hn eq_refl).
  apply Forall_cons in Hn as [Hn1 Hn]. apply Forall_cons in Hn as [Hn2 Hn].
  apply Forall_cons in Hn as [Hn3 _].
  by exists glu, wd1.
Defined.

(** C7, as the claim states it, fails: the bias of the source and the bias
    of the unit [to_quantized] returns are one array object.  An update of
    that array in place through the new unit is an update of the source's
    bias. *)
Lemma to_quantized_shares_bias :
  exists ql wd' l,
    to_quantized ex_wide (Some 32) None ex_world32 = Some (ql, wd') /\
    sl_params ex_wide !! "bias" = Some l /\
    ql_params ql !! "bias" = Some l /\
    fst <$> item (sl_params ex_wide) "bias" wd' = Some (Array [1; 1] [5]%Z) /\
    fst <$> (_ ← overwrite l (Array [1; 1] [7]%Z); item (sl_params ex_wide) "bias") wd'
    = Some (Array [1; 1] [7]%Z).
Proof.
  destruct (to_quantized ex_wide (Some 32) None ex_world32) as [[ql wd']|] eqn:Hto;
    vm_compute in Hto; [|discriminate].
  injection Hto as <- <-. eexists _, _, 1. split; [reflexivity|].
  repeat split; reflexivity.
Qed.

(** * Further properties *)

(** ** Sorting and unsorting *)

Section sort_roundtrip.
Context {R : Type}.

(** What a successful [_gather_sort] returned for the indices. *)
Lemma gather_sort_Some (x : array R) (indices : array nat) xs js inv :
  wf indices ->
  _gather_sort x indices = Some (xs, js, inv) ->
  let order := mx.argsort_list (data indices) in
  let N := size indices in
  js = Array [N] ((fun i => nth i (data indices) 0) <$> order) /\
  inv = Array [N] (mx.argsort_list order) /\
  exists K xf, last (shape indices) = Some K /\
               mx.flatten_axes 0 (-3) x = Some xf /\
               mx.getitem xf (mx.floor_divide (Array [N] order) K) = Some xs.
Proof.
  intros Hw Hg order N. unfold _gather_sort in Hg.
  destruct (last (shape indices)) as [K|]; [|done]. cbn [mbind option_bind] in Hg.
  assert (Hlo : length order = N) by (unfold order; by rewrite length_argsort_list).
  assert (Ho : mx.argsort (mx.flatten indices) = Some (Array [N] order)).
  { unfold mx.flatten. fold N. by apply argsort_1d. }
  rewrite Ho in Hg. cbn [mbind option_bind] in Hg.
  rewrite (argsort_1d order N Hlo) in Hg. cbn [mbind option_bind] in Hg.
  destruct (mx.flatten_axes 0 (-3) x) as [xf|]; [|done]. cbn [mbind option_bind] in Hg.
  destruct (mx.getitem xf _) as [xs'|] eqn:Hxs; [|done]. cbn [mbind option_bind] in Hg.
  unfold mx.flatten in Hg. fold N in Hg.
  rewrite (getitem_rows N [] (data indices)) in Hg; cycle 1.
  { cbn [data]. unfold N. rewrite <- Hw. apply Forall_argsort_list. }
  cbn [mbind option_bind shape data app prod foldr] in Hg.
  injection Hg as <- <- <-. split; [|split; [done|by exists K, xf]].
  f_equal. apply concat_rows_1. apply Forall_argsort_list.
Qed.

(** Rows laid out in sorted order come back in the original order. *)
Lemma unsort_rows (di : list nat) (f : nat -> list R) (sh : list nat) (target : list nat) :
  let order := mx.argsort_list di in
  let N := length di in
  (forall p, p < N -> length (f p) = prod sh) ->
  target <> [] -> prod target = N ->
  _scatter_unsort (Array (N :: sh) (tabulate (fun p => f (nth p order 0)) N))
                  (Array [N] (mx.argsort_list order)) (Some target)
  = Some (Array (target ++ sh) (tabulate f N)).
Proof.
  intros order N Hf Hne Ht.
  assert (Hlo : length order = N) by (unfold order; by rewrite length_argsort_list).
  assert (Hpo : order ≡ₚ seq 0 N) by (unfold order; by rewrite argsort_list_perm).
  assert (Hpi : mx.argsort_list order ≡ₚ seq 0 N) by (by rewrite argsort_list_perm, Hlo).
  unfold _scatter_unsort. rewrite (getitem_rows N sh); cycle 1.
  { cbn [data]. pose proof (Forall_argsort_list order) as HF. by rewrite Hlo in HF. }
  cbn [mbind option_bind shape data app]. rewrite unflatten_0 by done.
  f_equal. f_equal.
  rewrite concat_fmap_tabulate, length_argsort_list, Hlo.
  apply tabulate_ext. intros p Hp.
  pose proof (nth_perm_lt _ N p Hpi Hp) as Hip.
  rewrite (row_tabulate _ N (prod sh)); [| |done].
  - by rewrite (argsort_list_inverse_r order N p).
  - intros q Hq. apply Hf. by apply (nth_perm_lt order N).
Qed.

End sort_roundtrip.

Lemma tabulate_singletons {A} (g : nat -> A) n : tabulate (fun p => [g p]) n = g <$> seq 0 n.
Proof.
  unfold tabulate. induction (seq 0 n) as [|a l IH]; [done|].
  rewrite !fmap_cons. cbn [concat app]. by rewrite IH.
Qed.

Lemma fmap_nth_tabulate (di order : list nat) :
  (fun i => nth i di 0) <$> order
  = tabulate (fun p => [nth (nth p order 0) di 0]) (length order).
Proof.
  rewrite tabulate_singletons. apply list_eq. intros i. rewrite !list_lookup_fmap.
  destruct (decide (i < length order)) as [Hi|Hi].
  - rewrite lookup_seq_lt by done. cbn.
    destruct (lookup_lt_is_Some_2 order i Hi) as [o Ho].
    by rewrite Ho, (nth_lookup_Some _ _ _ _ Ho).
  - rewrite lookup_seq_ge by lia. by rewrite lookup_ge_None_2 by lia.
Qed.

Lemma StronglySorted_le_nth (l : list nat) i j :
  StronglySorted le l -> i <= j -> j < length l -> nth i l 0 <= nth j l 0.
Proof.
  intros Hs Hij Hj. destruct (decide (i = j)) as [->|Hne]; [done|].
  destruct (lookup_lt_is_Some_2 l i) as [a Ha]; [lia|].
  destruct (lookup_lt_is_Some_2 l j) as [b Hb]; [lia|].
  rewrite (nth_lookup_Some _ _ _ _ Ha), (nth_lookup_Some _ _ _ _ Hb).
  apply (StronglySorted_lookup le l i j); [done|lia|done..].
Qed.

Section sort_extras.
Context {R : Type}.

(** X1 — order preservation.  After a successful [_gather_sort], take any
    rows computed in the sorted order: row [p] is [f (order[p])], where
    [order] is the permutation the sorted indices [js] were read in.
    [_scatter_unsort] with the returned [inv_order] and the shape of
    [indices] puts them back in the original order: row [p] of the result
    is [f p], under the leading shape of [indices]. *)
Theorem scatter_unsort_restores_order (x xs : array R) (indices js inv_order : array nat)
    (f : nat -> list R) (sh : list nat) :
  wf indices ->
  _gather_sort x indices = Some (xs, js, inv_order) ->
  (forall p, p < size indices -> length (f p) = prod sh) ->
  exists order : list nat,
    order ≡ₚ seq 0 (size indices) /\
    data js = (fun i => nth i (data indices) 0) <$> order /\
    _scatter_unsort (Array (size indices :: sh)
                           (tabulate (fun p => f (nth p order 0)) (size indices)))
                    inv_order (Some (shape indices))
    = Some (Array (shape indices ++ sh) (tabulate f (size indices))).
Proof.
  intros Hw Hg Hf.
  destruct (gather_sort_Some x indices xs js inv_order Hw Hg) as (-> & -> & K & _ & HK & _).
  exists (mx.argsort_list (data indices)). split; [|split; [done|]].
  - by rewrite argsort_list_perm, Hw.
  - unfold wf in Hw. rewrite <- Hw in *. apply unsort_rows; [done| |done].
    intros Hs. by rewrite Hs in HK.
Qed.

(** X2 — round trip of the indices.  Unsorting the sorted indices that
    [_gather_sort] returned gives back [indices] itself. *)
Theorem gather_sort_indices_round_trip (x xs : array R) (indices js inv_order : array nat) :
  wf indices ->
  _gather_sort x indices = Some (xs, js, inv_order) ->
  _scatter_unsort js inv_order (Some (shape indices)) = Some indices.
Proof.
  intros Hw Hg.
  destruct (gather_sort_Some x indices xs js inv_order Hw Hg) as (-> & -> & K & _ & HK & _).
  unfold wf in Hw. rewrite <- Hw.
  rewrite fmap_nth_tabulate, length_argsort_list.
  rewrite (unsort_rows (data indices) (fun p => [nth p (data indices) 0]) [] (shape indices));
    [|done|intros Hs; by rewrite Hs in HK|by rewrite Hw].
  rewrite app_nil_r, tabulate_singletons, fmap_nth_seq. by destruct indices.
Qed.

(** X3 — round trip of the rows.  For [x] of at least three axes with at
    least as many rows as [indices] has tokens, sorting and then unsorting the
    reordered [x] gives every (token, slot) position the row of its token:
    row [p] of the result is row [p // K] of the flattened [x]. *)
Theorem gather_sort_rows_round_trip (sx : list nat) (a b c : nat) (x : array R)
    (si : list nat) (K : nat) (indices : array nat) :
  shape x = sx ++ [a; b; c] -> wf x ->
  shape indices = si ++ [K] -> wf indices ->
  prod si <= prod (sx ++ [a]) ->
  exists xs js inv_order,
    _gather_sort x indices = Some (xs, js, inv_order) /\
    _scatter_unsort xs inv_order (Some (shape indices))
    = Some (Array (shape indices ++ [b; c])
                  (tabulate (fun p => row (b * c) (p / K) (data x)) (size indices))).
Proof.
  intros Hx Hwx Hi Hwi Hle. destruct x as [shx dx]. destruct indices as [shi di].
  cbn [shape data] in *. subst shx shi.
  unfold wf in Hwx, Hwi. rewrite (size_slots _ si K) in Hwi by done.
  rewrite (size_slots _ si K) by done. cbn [data] in Hwx, Hwi.
  unfold size, array_size in Hwx. cbn [shape] in Hwx.
  replace (sx ++ [a; b; c]) with ((sx ++ [a]) ++ [b; c]) in Hwx by (by rewrite <- app_assoc).
  rewrite prod_app in Hwx. cbn [prod foldr] in Hwx.
  eexists _, _, _. split; [by apply gather_sort_rows|].
  rewrite <- Hwi.
  rewrite (unsort_rows di (fun p => row (b * c) (p / K) dx) [b; c] (si ++ [K])); [done| | |].
  - intros p Hp. cbn [prod foldr]. rewrite length_row; [lia|]. rewrite Hwx.
    assert (p / K < prod si) by (apply Nat.Div0.div_lt_upper_bound; lia). nia.
  - by destruct si.
  - rewrite prod_app. cbn [prod foldr]. lia.
Qed.


(** X5 — what the sort does to the indices.  The sorted indices that
    [_gather_sort] returns are a rearrangement of the flattened [indices]
    (no (token, slot) pair is lost or repeated), and the positions of one
    expert are contiguous: between two positions of the same expert every
    position holds that expert. *)
Theorem gather_sort_contiguous (x xs : array R) (indices js inv_order : array nat) :
  wf indices ->
  _gather_sort x indices = Some (xs, js, inv_order) ->
  data js ≡ₚ data indices /\
  forall i j k, i <= j -> j <= k -> k < size indices ->
    nth i (data js) 0 = nth k (data js) 0 -> nth j (data js) 0 = nth i (data js) 0.
Proof.
  intros Hw Hg.
  destruct (gather_sort_Some x indices xs js inv_order Hw Hg) as (-> & -> & _).
  cbn [data]. split.
  - rewrite argsort_list_perm. by rewrite fmap_nth_seq.
  - intros i j k Hij Hjk Hk Heq.
    pose proof (argsort_list_keys_sorted (data indices)) as Hs.
    assert (Hl : length ((fun i => nth i (data indices) 0) <$> mx.argsort_list (data indices))
                 = size indices).
    { by rewrite length_fmap, length_argsort_list. }
    pose proof (StronglySorted_le_nth _ i j Hs Hij ltac:(lia)).
    pose proof (StronglySorted_le_nth _ j k Hs Hjk ltac:(lia)).
    lia.
Qed.

End sort_extras.

(** ** Inputs of the wrong dimension, and tensors of any rank *)

Lemma gather_sort_xs_shape {R : Type} s a b c (dx : list R) (indices : array nat) xs js inv :
  _gather_sort (Array (s ++ [a; b; c]) dx) indices = Some (xs, js, inv) ->
  exists sh, shape xs = sh ++ [b; c].
Proof.
  unfold _gather_sort. intros Hg.
  destruct (last (shape indices)) as [K|]; [|done]. cbn [mbind option_bind] in Hg.
  destruct (mx.argsort (mx.flatten indices)) as [order|]; [|done].
  cbn [mbind option_bind] in Hg.
  destruct (mx.argsort order) as [inv'|]; [|done]. cbn [mbind option_bind] in Hg.
  rewrite flatten_axes_0_m3 in Hg. cbn [mbind option_bind] in Hg.
  destruct (mx.getitem (Array _ dx) _) as [xs'|] eqn:Hxs; [|done].
  cbn [mbind option_bind] in Hg.
  destruct (mx.getitem (mx.flatten indices) order); [|done].
  cbn [mbind option_bind] in Hg. injection Hg as <- _ _.
  unfold mx.getitem in Hxs. cbn [shape data] in Hxs.
  destruct (forallb _ _); [|done]. injection Hxs as <-. cbn [shape]. eauto.
Qed.

Section mismatch.
Context {R : Type} `{Scalar R} `{Kernels R}.

Lemma bind_None {A B} (m : M R A) (f : A -> M R B) (wd : world R) :
  m wd = None -> (m ≫= f) wd = None.
Proof. intros Hm. unfold mbind, M_bind. by rewrite Hm. Qed.

Lemma gather_mm_mismatch (a : array R) E O I (dw : list R) (idx : array nat) sorted bx m I' :
  shape a = bx ++ [m; I'] -> I' <> I ->
  mx.gather_mm a (Array [E; I; O] dw) idx sorted = None.
Proof.
  intros Ha Hne.
  rewrite gather_mm_two_axes;
    [|unfold ndim; rewrite Ha, length_app; simpl; lia|unfold ndim; simpl; lia].
  unfold mx.gather_mm_matrices. rewrite Ha, reverse_app.
  cbn [reverse rev_append app shape].
  by rewrite (proj2 (Nat.eqb_neq I' I)).
Qed.

Lemma SwitchLinear_call_mismatch (wd : world R) self w b E O I
    (x : array R) (idx : array nat) sorted bx m I' :
  unit_at wd self w b E O I ->
  shape x = bx ++ [m; I'] -> I' <> I ->
  SwitchLinear_call self x idx sorted wd = None.
Proof.
  intros (Hw & Hws & _) Hx Hne. unfold SwitchLinear_call.
  erewrite bind_Some; [|by apply item_has_param].
  erewrite bind_Some; [|apply lift_Some; by apply (swapaxes_weight w E O I)].
  apply bind_None. unfold lift.
  by rewrite (gather_mm_mismatch x E O I _ idx sorted bx m I').
Qed.

(** The shared steps raise when the projections raise on every input whose
    last axis is [D']. *)
Lemma scaffold_mismatch (wd : world R) tr experts s' D' (x : array R) (idx : array nat) sorted :
  (forall (x : array R) J bx m, shape x = bx ++ [m; D'] -> experts x J wd = None) ->
  shape x = s' ++ [D'] ->
  scaffold tr experts sorted x idx wd = None.
Proof.
  intros Hex Hx. destruct x as [shx dx]. cbn [shape] in Hx. subst shx. unfold scaffold.
  erewrite bind_Some; [|apply lift_Some, expand_dims_m2_m3]. cbn zeta.
  destruct sorted.
  - destruct (_gather_sort (Array (s' ++ [1; 1; D']) dx) idx) as [[[xs js] inv]|] eqn:Hg.
    + destruct (gather_sort_xs_shape _ _ _ _ _ _ _ _ _ Hg) as [sh Hsh].
      erewrite bind_Some; cycle 1.
      { erewrite bind_Some; [|by apply lift_Some]. apply ret_Some. }
      cbn beta iota. apply bind_None. by apply (Hex _ _ sh 1).
    + apply bind_None. by apply bind_None.
  - erewrite bind_Some; [|apply ret_Some]. cbn beta iota.
    apply bind_None. apply (Hex _ _ (s' ++ [1]) 1). cbn [shape]. by rewrite <- app_assoc.
Qed.

(** X6 — a unit rejects input of the wrong dimension.  When the last axis
    of [x] is not the unit's [input_dims], the call raises. *)
Theorem SwitchLinear_call_wrong_dims (wd : world R) (self : SwitchLinear) (w : array R)
    (b : option (array R)) (E O I : nat) (x : array R) (indices : array nat)
    (sorted_indices : bool) (bx : list nat) (m I' : nat) :
  unit_at wd self w b E O I ->
  shape x = bx ++ [m; I'] -> I' <> I ->
  SwitchLinear_call self x indices sorted_indices wd = None.
Proof. apply SwitchLinear_call_mismatch. Qed.

(** X7 — the blocks reject input of the wrong dimension.  When the last
    axis of [x] is not the block's [input_dims], [SwitchGLU] and [SwitchMLP]
    raise, whatever [indices] is and on whichever path. *)
Theorem blocks_wrong_dims (wd : world R) (glu : SwitchGLU) (mlp : SwitchMLP)
    (wg : array R) (bg : option (array R)) (wu : array R) (bu : option (array R))
    (wdn : array R) (bd : option (array R))
    (w1 : array R) (b1 : option (array R)) (w2 : array R) (b2 : option (array R))
    (E Hd Hd' D : nat) (s : list nat) (D' : nat) (x : array R) (indices : array nat) :
  glu_at wd glu wg bg wu bu wdn bd E Hd D ->
  mlp_at wd mlp w1 b1 w2 b2 E Hd' D ->
  shape x = s ++ [D'] -> D' <> D ->
  SwitchGLU_call glu x indices wd = None /\
  SwitchMLP_call mlp x indices wd = None /\
  forall sorted,
    SwitchGLU_body sorted glu x indices wd = None /\
    SwitchMLP_body sorted mlp x indices wd = None.
Proof.
  intros (Hg & Hu & Hdn) (H1 & H2) Hx Hne.
  assert (Hall : forall sorted,
            SwitchGLU_body sorted glu x indices wd = None /\
            SwitchMLP_body sorted mlp x indices wd = None).
  { intros sorted. rewrite SwitchGLU_body_scaffold, SwitchMLP_body_scaffold. split.
    - apply (scaffold_mismatch wd _ _ s D'); [|done].
      intros x' J bx m Hx'. unfold glu_experts. apply bind_None.
      by apply (SwitchLinear_call_mismatch wd _ wu bu E Hd D x' J sorted bx m D').
    - apply (scaffold_mismatch wd _ _ s D'); [|done].
      intros x' J bx m Hx'. unfold mlp_experts. apply bind_None.
      by apply (SwitchLinear_call_mismatch wd _ w1 b1 E Hd' D x' J sorted bx m D'). }
  split; [apply Hall|]. split; [apply Hall|]. done.
Qed.

Lemma wf_tabulate {A} (sh : list nat) r (f : nat -> list A) n :
  prod sh = n -> (forall p, p < n -> length (f p) = r) ->
  wf (Array (sh ++ [r]) (tabulate f n)).
Proof.
  intros Hn Hf. unfold wf, size, array_size. cbn [shape data].
  rewrite (length_tabulate f n r) by done. rewrite prod_app. cbn [prod foldr]. lia.
Qed.

(** X8 — [SwitchGLU] on tensors of any number of leading axes.  For [x] of
    shape [s ++ [input_dims]] and [indices] of shape [s ++ [K]] with values
    below [num_experts], the call returns a well-formed array of shape
    [s ++ [K; input_dims]]; row [p] is [down(act(gate(v, e)) * up(v, e), e)]
    for [e = indices[p]] and the token row [v = x[p // K]]; with no index
    at all the result is empty. *)
Theorem SwitchGLU_call_any_rank (wd : world R) (self : SwitchGLU)
    (wg : array R) (bg : option (array R)) (wu : array R) (bu : option (array R))
    (wdn : array R) (bd : option (array R)) (E Hd D : nat) (s : list nat) (K : nat)
    (x : array R) (indices : array nat) :
  glu_at wd self wg bg wu bu wdn bd E Hd D ->
  shape x = s ++ [D] -> wf x ->
  shape indices = s ++ [K] -> wf indices -> Forall (fun e => e < E) (data indices) ->
  exists y,
    SwitchGLU_call self x indices wd = Some (y, wd) /\
    shape y = s ++ [K; D] /\ wf y /\
    (size indices = 0 -> data y = []) /\
    forall p, p < size indices ->
      let e := nth p (data indices) 0 in
      let v := row D (p / K) (data x) in
      row D p (data y)
      = expert_linear wdn bd e
          (zip_with smul (glu_activation self <$> expert_linear wg bg e v)
                         (expert_linear wu bu e v)).
Proof.
  intros Hg Hx Hwx Hi Hwi Hr.
  assert (Hsz : size indices = prod s * K) by (by apply size_slots).
  assert (Hdx : length (data x) = prod s * D).
  { unfold wf in Hwx. by rewrite (size_slots x s D) in Hwx. }
  destruct (glu_rowwise wd self wg bg wu bu wdn bd E Hd D false) as [Hlen _]; [apply Hg..|].
  assert (Hrows : forall q, q < size indices ->
            length (glu_expert (glu_activation self) wg bg wu bu wdn bd
                      (nth q (data indices) 0) (row D (q / K) (data x))) = D).
  { intros q Hq. apply Hlen; [apply nth_in_range; [done|by rewrite Hwi]|].
    apply length_row. rewrite Hdx. rewrite Hsz in Hq.
    assert (q / K < prod s) by (apply Nat.Div0.div_lt_upper_bound; lia). nia. }
  eexists. split.
  { unfold SwitchGLU_call.
    by apply (SwitchGLU_body_rows wd self wg bg wu bu wdn bd E Hd D s K). }
  cbn [shape data]. split; [by rewrite Hi, <- app_assoc|]. split; [|split].
  - apply wf_tabulate; [|done]. unfold size, array_size. done.
  - by intros ->.
  - intros p Hp. cbn zeta. by rewrite (row_tabulate _ (size indices) D).
Qed.

(** X9 — [SwitchMLP] on tensors of any number of leading axes: as for
    [SwitchGLU], with row [p] equal to [fc2(act(fc1(v, e)), e)]. *)
Theorem SwitchMLP_call_any_rank (wd : world R) (self : SwitchMLP)
    (w1 : array R) (b1 : option (array R)) (w2 : array R) (b2 : option (array R))
    (E Hd D : nat) (s : list nat) (K : nat) (x : array R) (indices : array nat) :
  mlp_at wd self w1 b1 w2 b2 E Hd D ->
  shape x = s ++ [D] -> wf x ->
  shape indices = s ++ [K] -> wf indices -> Forall (fun e => e < E) (data indices) ->
  exists y,
    SwitchMLP_call self x indices wd = Some (y, wd) /\
    shape y = s ++ [K; D] /\ wf y /\
    (size indices = 0 -> data y = []) /\
    forall p, p < size indices ->
      let e := nth p (data indices) 0 in
      let v := row D (p / K) (data x) in
      row D p (data y)
      = expert_linear w2 b2 e (mlp_activation self <$> expert_linear w1 b1 e v).
Proof.
  intros Hm Hx Hwx Hi Hwi Hr.
  assert (Hsz : size indices = prod s * K) by (by apply size_slots).
  assert (Hdx : length (data x) = prod s * D).
  { unfold wf in Hwx. by rewrite (size_slots x s D) in Hwx. }
  destruct (mlp_rowwise wd self w1 b1 w2 b2 E Hd D false) as [Hlen _]; [apply Hm..|].
  assert (Hrows : forall q, q < size indices ->
            length (mlp_expert (mlp_activation self) w1 b1 w2 b2
                      (nth q (data indices) 0) (row D (q / K) (data x))) = D).
  { intros q Hq. apply Hlen; [apply nth_in_range; [done|by rewrite Hwi]|].
    apply length_row. rewrite Hdx. rewrite Hsz in Hq.
    assert (q / K < prod s) by (apply Nat.Div0.div_lt_upper_bound; lia). nia. }
  eexists. split.
  { unfold SwitchMLP_call.
    by apply (SwitchMLP_body_rows wd self w1 b1 w2 b2 E Hd D s K). }
  cbn [shape data]. split; [by rewrite Hi, <- app_assoc|]. split; [|split].
  - apply wf_tabulate; [|done]. unfold size, array_size. done.
  - by intros ->.
  - intros p Hp. cbn zeta. by rewrite (row_tabulate _ (size indices) D).
Qed.

End mismatch.

(** ** The quantized unit and the conversion *)

Section quantized_extras.
Context {R : Type} `{Scalar R} `{Kernels R}.

(** The quantized unit: the quantized product, then the bias rows. *)
Lemma QuantizedSwitchLinear_call_rows (wd : world R) (ql : QuantizedSwitchLinear)
    (w s b : array R) (bias : option (array R)) (E O : nat)
    (x : array R) (indices : array nat) (sorted : bool) (y0 : array R) :
  has_param wd (ql_params ql) "weight" w ->
  has_param wd (ql_params ql) "scales" s ->
  has_param wd (ql_params ql) "biases" b ->
  match bias with
  | Some bv => has_param wd (ql_params ql) "bias" bv /\ shape bv = [E; O] /\ wf bv
  | None => ql_params ql !! "bias" = None
  end ->
  gather_qmm x w s b indices true (group_size ql) (bits ql) sorted = Some y0 ->
  shape y0 = shape indices ++ [1; O] -> wf y0 ->
  wf indices -> Forall (fun e => e < E) (data indices) ->
  QuantizedSwitchLinear_call ql x indices sorted wd
  = Some (Array (shape indices ++ [1; O])
                (tabulate (fun p => match bias with
                                    | Some bv => zip_with sadd (row O p (data y0))
                                                   (row O (nth p (data indices) 0) (data bv))
                                    | None => row O p (data y0)
                                    end) (size indices)), wd).
Proof.
  intros Hw Hs Hb Hbias Hq Hy0 Hwy Hwi Hr. unfold QuantizedSwitchLinear_call.
  erewrite bind_Some; [|by apply item_has_param].
  erewrite bind_Some; [|by apply item_has_param].
  erewrite bind_Some; [|by apply item_has_param].
  erewrite bind_Some; [|by apply lift_Some].
  destruct y0 as [sh0 d0]. cbn [shape data] in *. subst sh0.
  assert (Hd0 : length d0 = size indices * O).
  { unfold wf, size, array_size in Hwy. cbn [shape data] in Hwy.
    rewrite Hwy, prod_rows. done. }
  assert (Hrow0 : forall p, p < size indices -> length (row O p d0) = O).
  { intros p Hp. apply length_row. rewrite Hd0. nia. }
  destruct bias as [bv|].
  - destruct Hbias as (Hbv & Hbs & Hbw).
    rewrite bool_decide_eq_true_2 by (destruct Hbv as (l & -> & _); eauto).
    erewrite bind_Some; [|by apply item_has_param].
    destruct bv as [bsh bdat]. cbn [shape data] in *. subst bsh.
    erewrite bind_Some; [|apply lift_Some; by apply getitem_rows].
    erewrite bind_Some; [|apply lift_Some; apply (expand_dims_m2 (shape indices) O)].
    apply lift_Some. unfold mx.add.
    assert (Hblen : forall p, p < size indices ->
              length (row O (nth p (data indices) 0) bdat) = O).
    { intros p Hp. apply length_row.
      assert (nth p (data indices) 0 < E) by (apply nth_in_range; [done|by rewrite Hwi]).
      unfold wf, size, array_size in Hbw. cbn [shape data prod foldr] in Hbw. nia. }
    cbn [prod foldr]. rewrite Nat.mul_1_r.
    rewrite concat_fmap_tabulate, Hwi.
    rewrite binary_same_shape; cycle 1.
    { by rewrite prod_rows. }
    { rewrite prod_rows. by apply length_tabulate. }
    f_equal. f_equal.
    rewrite <- (tabulate_rows O (size indices) d0) at 1 by done.
    rewrite tabulate_zip_with by (intros p Hp; by rewrite Hrow0, Hblen). done.
  - rewrite bool_decide_eq_false_2 by (rewrite Hbias; by intros [? ?]).
    rewrite ret_Some. f_equal. f_equal. f_equal. symmetry. by apply tabulate_rows.
Qed.

(** X10 — the quantized unit's apply.  When [mx.gather_qmm] returns [y0]
    of shape [indices.shape ++ [1; output_dims]] for the stored weight,
    scales and biases with the unit's [group_size] and [bits], the call
    returns, without touching the store, [y0] itself when the unit has no
    bias, and otherwise [y0] with [bias[indices[p]]] added to the row of
    every position [p]. *)
Theorem QuantizedSwitchLinear_call_unit (wd : world R) (ql : QuantizedSwitchLinear)
    (w s b : array R) (bias : option (array R)) (E O : nat)
    (x : array R) (indices : array nat) (sorted_indices : bool) (y0 : array R) :
  has_param wd (ql_params ql) "weight" w ->
  has_param wd (ql_params ql) "scales" s ->
  has_param wd (ql_params ql) "biases" b ->
  match bias with
  | Some bv => has_param wd (ql_params ql) "bias" bv /\ shape bv = [E; O] /\ wf bv
  | None => ql_params ql !! "bias" = None
  end ->
  gather_qmm x w s b indices true (group_size ql) (bits ql) sorted_indices = Some y0 ->
  shape y0 = shape indices ++ [1; O] -> wf y0 ->
  wf indices -> Forall (fun e => e < E) (data indices) ->
  exists y,
    QuantizedSwitchLinear_call ql x indices sorted_indices wd = Some (y, wd) /\
    shape y = shape y0 /\
    (bias = None -> y = y0) /\
    forall p, p < size indices ->
      row O p (data y)
      = match bias with
        | Some bv => zip_with sadd (row O p (data y0))
                                   (row O (nth p (data indices) 0) (data bv))
        | None => row O p (data y0)
        end.
Proof.
  intros Hw Hs Hb Hbias Hq Hy0 Hwy Hwi Hr. eexists. split.
  { by apply (QuantizedSwitchLinear_call_rows wd ql w s b bias E O x indices _ y0). }
  cbn [shape data]. split; [done|].
  assert (Hd0 : length (data y0) = size indices * O).
  { unfold wf, size, array_size in Hwy. rewrite Hwy, Hy0, prod_rows. done. }
  assert (Hrow0 : forall p, p < size indices -> length (row O p (data y0)) = O).
  { intros p Hp. apply length_row. rewrite Hd0. nia. }
  split.
  - intros ->. rewrite tabulate_rows by done. destruct y0 as [sh0 d0].
    cbn [shape data] in *. by subst.
  - intros p Hp. rewrite (row_tabulate _ (size indices) O); [done| |done].
    intros q Hlt. destruct bias as [bv|]; [|by apply Hrow0].
    destruct Hbias as (_ & Hbs & Hbw).
    rewrite length_zip_with, Hrow0 by done.
    rewrite length_row; [lia|].
    assert (nth q (data indices) 0 < E) by (apply nth_in_range; [done|by rewrite Hwi]).
    unfold wf, size, array_size in Hbw. rewrite Hbs in Hbw. cbn [prod foldr] in Hbw. nia.
Qed.

Lemma QuantizedSwitchLinear_init_None (I O E : nat) (bias : option bool)
    (gs bts : option nat) (wd : world R) :
  I = 0 \/ quantize_supported (default 64 gs) (default 4 bts) = false
        \/ I `mod` default 64 gs <> 0 ->
  QuantizedSwitchLinear_init I O E bias gs bts wd = None.
Proof.
  intros Hbad. unfold QuantizedSwitchLinear_init.
  destruct (decide (I = 0)) as [->|HI]; [by apply bind_None|].
  erewrite bind_Some; [|apply init_scale_Some; lia].
  erewrite bind_Some; [|reflexivity].
  apply bind_None. unfold lift, quantize. cbn [shape reverse rev_append].
  destruct Hbad as [?|[-> | Hm]]; [done|done|].
  rewrite (bool_decide_eq_false_2 _ Hm). by rewrite andb_false_r.
Qed.

(** [to_quantized] on a unit whose weight has three axes. *)
Lemma to_quantized_of_weight (wd : world R) (self : SwitchLinear) (w : array R)
    (E O I : nat) (gs bts : option nat) :
  has_param wd (sl_params self) "weight" w -> shape w = [E; O; I] ->
  0 < I -> quantize_supported (default 64 gs) (default 4 bts) = true ->
  I `mod` default 64 gs = 0 ->
  exists (q0 s0 b0 : array R),
    let l := length (objs wd) in
    let p : params := <["biases" := l + 5]> (<["scales" := l + 4]> (<["weight" := l + 3]>
                        (<["biases" := l + 2]> (<["scales" := l + 1]> {["weight" := l]})))) in
    let '(q, s, b') := quantized (default 64 gs) (default 4 bts) w E O I in
    to_quantized self gs bts wd
    = Some ({| ql_params := match sl_params self !! "bias" with
                            | Some lb => <["bias" := lb]> p
                            | None => p
                            end;
               group_size := default 64 gs; bits := default 4 bts |},
            World (objs wd ++ [q0; s0; b0; q; s; b']) (draws wd + prod [E; O; I])).
Proof.
  intros Hw Hws HI Hq Hm.
  set (g := default 64 gs) in *. set (bt := default 4 bts) in *.
  set (u := Array [E; O; I] ((fun k => sample (draws wd + k)) <$> seq 0 (prod [E; O; I]))).
  destruct (quantized g bt u E O I) as [[q0 s0] b0] eqn:Hqu.
  exists q0, s0, b0. cbn zeta.
  destruct (quantized g bt w E O I) as [[q s] b'] eqn:Hqw.
  unfold to_quantized. fold g bt.
  erewrite bind_Some; [|by apply item_has_param]. rewrite Hws.
  pose proof (QuantizedSwitchLinear_init_Some I O E (Some false) (Some g) (Some bt) wd) as Hinit.
  cbn zeta in Hinit. cbn [default from_option id] in Hinit.
  specialize (Hinit HI Hq Hm). fold u in Hinit. rewrite Hqu in Hinit.
  erewrite bind_Some; [|exact Hinit]. clear Hinit.
  erewrite bind_Some; cycle 1.
  { destruct Hw as (lw & Hlw & Hlo). apply (item_lookup _ _ lw w); [done|].
    cbn [objs]. by apply lookup_app_l_Some. }
  erewrite bind_Some;
    [|apply lift_Some; rewrite (quantize_Some w g bt E O I) by done; by rewrite Hqw].
  cbn beta iota.
  erewrite bind_Some; [|apply new_Some]. cbn [objs draws].
  erewrite bind_Some; [|apply new_Some]. cbn [objs draws].
  erewrite bind_Some; [|apply new_Some]. cbn [objs draws ql_params].
  rewrite !length_app. cbn [length]. rewrite <- !app_assoc. cbn [app].
  replace (length (objs wd) + 3 + 1) with (length (objs wd) + 4) by lia.
  replace (length (objs wd) + 4 + 1) with (length (objs wd) + 5) by lia.
  destruct (sl_params self !! "bias") as [lb|] eqn:Hlb.
  - rewrite bool_decide_eq_true_2 by eauto.
    erewrite bind_Some; cycle 1.
    { erewrite bind_Some; [|by apply lift_Some]. apply ret_Some. }
    done.
  - rewrite bool_decide_eq_false_2 by (by intros [? ?]).
    erewrite bind_Some; [|apply ret_Some]. done.
Qed.

(** X11 — when [to_quantized] succeeds.  On a unit holding a weight [w],
    the conversion returns a unit exactly when [w] has three axes, its
    input dimension is not zero (the constructor of the quantized unit
    divides by it), [mx.quantize] supports the group size and width, and the
    group size divides the input dimension; in every other case it raises.
    It also raises on a unit with no weight. *)
Theorem to_quantized_succeeds_iff (wd : world R) (self : SwitchLinear) (w : array R)
    (gs bts : option nat) :
  has_param wd (sl_params self) "weight" w ->
  (is_Some (to_quantized self gs bts wd) <->
   exists E O I, shape w = [E; O; I] /\ 0 < I /\
                 quantize_supported (default 64 gs) (default 4 bts) = true /\
                 I `mod` default 64 gs = 0) /\
  (forall other : SwitchLinear,
     sl_params other !! "weight" = None -> to_quantized other gs bts wd = None).
Proof.
  intros Hw. split; [split|].
  - intros Hsome. unfold to_quantized in Hsome.
    erewrite bind_Some in Hsome; [|by apply item_has_param].
    destruct (shape w) as [|E [|O [|I [|? ?]]]] eqn:Hs;
      try (by destruct Hsome as [? Hn]; cbv in Hn).
    exists E, O, I. split; [done|].
    destruct (decide (0 < I)) as [HI|HI];
      [|rewrite bind_None in Hsome;
        [by destruct Hsome|apply QuantizedSwitchLinear_init_None; lia]].
    destruct (quantize_supported (default 64 gs) (default 4 bts)) eqn:Hq;
      [|rewrite bind_None in Hsome;
        [by destruct Hsome|apply QuantizedSwitchLinear_init_None; cbn; auto]].
    destruct (decide (I `mod` default 64 gs = 0)) as [Hm|Hm]; [done|].
    rewrite bind_None in Hsome; [by destruct Hsome|].
    apply QuantizedSwitchLinear_init_None; cbn; auto.
  - intros (E & O & I & Hs & HI & Hq & Hm).
    destruct (to_quantized_of_weight wd self w E O I gs bts Hw Hs HI Hq Hm)
      as (q0 & s0 & b0 & Hto).
    cbn zeta in Hto. destruct (quantized _ _ w E O I) as [[q s] b'].
    rewrite Hto. eauto.
  - intros other Hno. unfold to_quantized. apply bind_None.
    unfold item. apply bind_None. unfold lift. by rewrite Hno.
Qed.

End quantized_extras.

(** ** What the constructors build *)

Section init_extras.
Context {R : Type} `{Scalar R} `{Kernels R}.

Lemma extends_refl (wd : world R) : extends wd wd.
Proof. by intros l a. Qed.

Lemma extends_trans (w1 w2 w3 : world R) : extends w1 w2 -> extends w2 w3 -> extends w1 w3.
Proof. intros H12 H23 l a Hl. by apply H23, H12. Qed.

Lemma extends_length (wd wd' : world R) : extends wd wd' -> length (objs wd) <= length (objs wd').
Proof.
  intros He. destruct (decide (length (objs wd) = 0)) as [->|Hne]; [lia|].
  destruct (lookup_lt_is_Some_2 (objs wd) (length (objs wd) - 1)) as [a Ha]; [lia|].
  apply He, lookup_lt_Some in Ha. lia.
Qed.

Lemma unit_at_extends (wd wd' : world R) self w b E O I :
  extends wd wd' -> unit_at wd self w b E O I -> unit_at wd' self w b E O I.
Proof.
  intros He (Hw & Hs & Hwf & Hb).
  assert (Hp : forall name a, has_param wd (sl_params self) name a ->
                              has_param wd' (sl_params self) name a).
  { intros name a (l & Hl & Ha). exists l. split; [done|by apply He]. }
  split; [by apply Hp|]. split; [done|]. split; [done|].
  destruct b as [bias|]; [|done]. destruct Hb as (Hb & ? & ?). split; [by apply Hp|done].
Qed.

(** What [SwitchLinear.__init__] leaves behind. *)
Lemma SwitchLinear_init_post (I O E : nat) (bias : option bool) (wd : world R) :
  0 < I ->
  exists self wd' w,
    SwitchLinear_init I O E bias wd = Some (self, wd') /\
    unit_at wd' self w (if default true bias then Some (mx.zeros [E; O]) else None) E O I /\
    data w = (fun k => sample (draws wd + k)) <$> seq 0 (prod [E; O; I]) /\
    extends wd wd' /\
    sl_params self !! "weight" = Some (length (objs wd)) /\
    (forall name l, sl_params self !! name = Some l ->
       length (objs wd) <= l < length (objs wd')) /\
    draws wd' = draws wd + prod [E; O; I].
Proof.
  intros HI. pose proof (SwitchLinear_init_Some I O E bias wd HI) as Hinit. cbn zeta in Hinit.
  destruct (SwitchLinear_init I O E bias wd) as [[self wd']|] eqn:Heq;
    [|by destruct (default true bias)].
  destruct (unit_at_init I O E bias wd self wd' HI Heq) as (w & Hu & Hext).
  exists self, wd', w. split; [done|]. split; [done|].
  assert (Hw : w = Array [E; O; I]
                     ((fun k => sample (draws wd + k)) <$> seq 0 (prod [E; O; I]))).
  { destruct Hu as ((l & Hl & Hlo) & _).
    destruct (default true bias); injection Hinit as -> ->; cbn [sl_params objs] in *.
    - rewrite lookup_insert_ne, lookup_singleton_eq in Hl by done. injection Hl as <-.
      rewrite lookup_app_r, Nat.sub_diag in Hlo by lia. by injection Hlo as <-.
    - rewrite lookup_singleton_eq in Hl. injection Hl as <-.
      rewrite lookup_app_r, Nat.sub_diag in Hlo by lia. by injection Hlo as <-. }
  split; [by rewrite Hw|]. split; [done|].
  destruct (default true bias); injection Hinit as -> ->; cbn [sl_params objs draws].
  - split; [by rewrite lookup_insert_ne, lookup_singleton_eq|]. split; [|done].
    intros name l Hl. rewrite length_app. cbn [length].
    destruct (decide (name = "bias")) as [->|Hnb].
    + rewrite lookup_insert_eq in Hl. injection Hl as <-. lia.
    + rewrite lookup_insert_ne in Hl by done.
      apply lookup_singleton_Some in Hl as [_ <-]. lia.
  - split; [by rewrite lookup_singleton_eq|]. split; [|done].
    intros name l Hl. rewrite length_app. cbn [length].
    apply lookup_singleton_Some in Hl as [_ <-]. lia.
Qed.

(** X12 — what [SwitchLinear.__init__] builds.  For a positive
    [input_dims] the constructor returns a unit holding a well-formed
    weight of shape [num_experts; output_dims; input_dims] filled with the
    next draws of the generator, and a bias of zeros of shape
    [num_experts; output_dims] exactly when [bias] is true (the default).
    Its arrays are new objects, and no array that existed before is
    changed. *)
Theorem SwitchLinear_init_builds (I O E : nat) (bias : option bool) (wd : world R) :
  0 < I ->
  exists self wd' w,
    SwitchLinear_init I O E bias wd = Some (self, wd') /\
    unit_at wd' self w (if default true bias then Some (mx.zeros [E; O]) else None) E O I /\
    data w = (fun k => sample (draws wd + k)) <$> seq 0 (prod [E; O; I]) /\
    (forall l a, objs wd !! l = Some a -> objs wd' !! l = Some a) /\
    (forall name l, sl_params self !! name = Some l ->
       length (objs wd) <= l < length (objs wd')) /\
    draws wd' = draws wd + prod [E; O; I].
Proof.
  intros HI.
  destruct (SwitchLinear_init_post I O E bias wd HI)
    as (self & wd' & w & Hi & Hu & Hd & He & _ & Hf & Hdr).
  by exists self, wd', w.
Qed.

(** What [SwitchGLU.__init__] leaves behind. *)
Lemma SwitchGLU_init_post (I Hd E : nat) (act : R -> R) (bias : option bool) (wd : world R) :
  0 < I -> 0 < Hd ->
  exists (glu : SwitchGLU) wd' wg wu wdn,
    SwitchGLU_init I Hd E act bias wd = Some (glu, wd') /\
    glu_at wd' glu
      wg (if default false bias then Some (mx.zeros [E; Hd]) else None)
      wu (if default false bias then Some (mx.zeros [E; Hd]) else None)
      wdn (if default false bias then Some (mx.zeros [E; I]) else None) E Hd I /\
    glu_activation glu = act /\ glu_training glu = true /\
    extends wd wd' /\
    exists lg lu ld,
      sl_params (gate_proj glu) !! "weight" = Some lg /\
      sl_params (up_proj glu) !! "weight" = Some lu /\
      sl_params (down_proj glu) !! "weight" = Some ld /\
      length (objs wd) <= lg /\ lg < lu /\ lu < ld.
Proof.
  intros HI HHd. set (bv := default false bias).
  destruct (SwitchLinear_init_post I Hd E (Some bv) wd HI)
    as (g & w1 & wg & Hg & Hug & _ & He1 & Hlg & Hfg & _).
  destruct (SwitchLinear_init_post I Hd E (Some bv) w1 HI)
    as (u & w2 & wu & Hu & Huu & _ & He2 & Hlu & Hfu & _).
  destruct (SwitchLinear_init_post Hd I E (Some bv) w2 HHd)
    as (d & w3 & wdn & Hdn & Hud & _ & He3 & Hld & Hfd & _).
  cbn [default from_option id] in Hug, Huu, Hud.
  eexists _, w3, wg, wu, wdn. split.
  { unfold SwitchGLU_init. fold bv.
    erewrite bind_Some; [|exact Hg]. erewrite bind_Some; [|exact Hu].
    erewrite bind_Some; [|exact Hdn]. apply ret_Some. }
  cbn [gate_proj up_proj down_proj glu_activation glu_training].
  split; [|split; [done|split; [done|split]]].
  - split; [|split; [|done]].
    + apply (unit_at_extends w1 w3); [by eapply extends_trans|done].
    + by apply (unit_at_extends w2 w3).
  - by eapply extends_trans; [|eapply extends_trans].
  - eexists _, _, _. split; [exact Hlg|]. split; [exact Hlu|]. split; [exact Hld|].
    pose proof (Hfg _ _ Hlg). pose proof (Hfu _ _ Hlu). pose proof (Hfd _ _ Hld). lia.
Qed.

(** What [SwitchMLP.__init__] leaves behind. *)
Lemma SwitchMLP_init_post (I Hd E : nat) (act : R -> R) (bias : option bool) (wd : world R) :
  0 < I -> 0 < Hd ->
  exists (mlp : SwitchMLP) wd' w1 w2,
    SwitchMLP_init I Hd E act bias wd = Some (mlp, wd') /\
    mlp_at wd' mlp
      w1 (if default false bias then Some (mx.zeros [E; Hd]) else None)
      w2 (if default false bias then Some (mx.zeros [E; I]) else None) E Hd I /\
    mlp_activation mlp = act /\ mlp_training mlp = true /\
    extends wd wd' /\
    exists l1 l2,
      sl_params (fc1 mlp) !! "weight" = Some l1 /\
      sl_params (fc2 mlp) !! "weight" = Some l2 /\
      length (objs wd) <= l1 /\ l1 < l2.
Proof.
  intros HI HHd. set (bv := default false bias).
  destruct (SwitchLinear_init_post I Hd E (Some bv) wd HI)
    as (f1 & wd1 & w1 & H1 & Hu1 & _ & He1 & Hl1 & Hf1 & _).
  destruct (SwitchLinear_init_post Hd I E (Some bv) wd1 HHd)
    as (f2 & wd2 & w2 & H2 & Hu2 & _ & He2 & Hl2 & Hf2 & _).
  cbn [default from_option id] in Hu1, Hu2.
  eexists _, wd2, w1, w2. split.
  { unfold SwitchMLP_init. fold bv.
    erewrite bind_Some; [|exact H1]. erewrite bind_Some; [|exact H2]. apply ret_Some. }
  cbn [fc1 fc2 mlp_activation mlp_training].
  split; [|split; [done|split; [done|split]]].
  - split; [|done]. by apply (unit_at_extends wd1 wd2).
  - by eapply extends_trans.
  - eexists _, _. split; [exact Hl1|]. split; [exact Hl2|].
    pose proof (Hf1 _ _ Hl1). pose proof (Hf2 _ _ Hl2). lia.
Qed.

End init_extras.

Section init_theorems.
Context {R : Type} `{Scalar R} `{Kernels R}.

(** X13 — what [SwitchGLU.__init__] builds.  For positive [input_dims]
    and [hidden_dims] the constructor returns a block in training mode with
    the given activation, whose gate and up units go from [input_dims] to
    [hidden_dims] and whose down unit goes back, each with a bias of zeros
    exactly when [bias] is true (it defaults to false).  The three weights
    are three different new array objects, and no array that existed before
    is changed. *)
Theorem SwitchGLU_init_builds (I Hd E : nat) (act : R -> R) (bias : option bool)
    (wd : world R) :
  0 < I -> 0 < Hd ->
  exists (glu : SwitchGLU) wd' wg wu wdn,
    SwitchGLU_init I Hd E act bias wd = Some (glu, wd') /\
    glu_at wd' glu
      wg (if default false bias then Some (mx.zeros [E; Hd]) else None)
      wu (if default false bias then Some (mx.zeros [E; Hd]) else None)
      wdn (if default false bias then Some (mx.zeros [E; I]) else None) E Hd I /\
    glu_activation glu = act /\ glu_training glu = true /\
    extends wd wd' /\
    exists lg lu ld,
      sl_params (gate_proj glu) !! "weight" = Some lg /\
      sl_params (up_proj glu) !! "weight" = Some lu /\
      sl_params (down_proj glu) !! "weight" = Some ld /\
      length (objs wd) <= lg /\ lg < lu /\ lu < ld.
Proof. apply SwitchGLU_init_post. Qed.

(** X14 — what [SwitchMLP.__init__] builds.  For positive [input_dims]
    and [hidden_dims] the constructor returns a block in training mode with
    the given activation, whose [fc1] goes from [input_dims] to
    [hidden_dims] and whose [fc2] goes back, each with a bias of zeros
    exactly when [bias] is true (it defaults to false).  The two weights are
    two different new array objects, and no array that existed before is
    changed. *)
Theorem SwitchMLP_init_builds (I Hd E : nat) (act : R -> R) (bias : option bool)
    (wd : world R) :
  0 < I -> 0 < Hd ->
  exists (mlp : SwitchMLP) wd' w1 w2,
    SwitchMLP_init I Hd E act bias wd = Some (mlp, wd') /\
    mlp_at wd' mlp
      w1 (if default false bias then Some (mx.zeros [E; Hd]) else None)
      w2 (if default false bias then Some (mx.zeros [E; I]) else None) E Hd I /\
    mlp_activation mlp = act /\ mlp_training mlp = true /\
    extends wd wd' /\
    exists l1 l2,
      sl_params (fc1 mlp) !! "weight" = Some l1 /\
      sl_params (fc2 mlp) !! "weight" = Some l2 /\
      length (objs wd) <= l1 /\ l1 < l2.
Proof. apply SwitchMLP_init_post. Qed.

(** X15 — a block can be applied as soon as it is built.  For positive
    [input_dims] and [hidden_dims], the blocks the constructors return
    accept every [x] of shape [s ++ [input_dims]] with [indices] of shape
    [s ++ [K]] and values below [num_experts]: the call returns an array of
    shape [s ++ [K; input_dims]] and leaves the store as the constructor
    left it. *)
Theorem fresh_blocks_callable (I Hd E : nat) (act : R -> R) (bias : option bool)
    (wd : world R) (s : list nat) (K : nat) (x : array R) (indices : array nat) :
  0 < I -> 0 < Hd ->
  shape x = s ++ [I] -> wf x ->
  shape indices = s ++ [K] -> wf indices -> Forall (fun e => e < E) (data indices) ->
  exists (glu : SwitchGLU) wdg (mlp : SwitchMLP) wdm yg ym,
    SwitchGLU_init I Hd E act bias wd = Some (glu, wdg) /\
    SwitchGLU_call glu x indices wdg = Some (yg, wdg) /\
    shape yg = s ++ [K; I] /\
    SwitchMLP_init I Hd E act bias wd = Some (mlp, wdm) /\
    SwitchMLP_call mlp x indices wdm = Some (ym, wdm) /\
    shape ym = s ++ [K; I].
Proof.
  intros HI HHd Hx Hwx Hi Hwi Hr.
  destruct (SwitchGLU_init_post I Hd E act bias wd HI HHd)
    as (glu & wdg & wg & wu & wdn & Hg & Hgat & _).
  destruct (SwitchMLP_init_post I Hd E act bias wd HI HHd)
    as (mlp & wdm & w1 & w2 & Hm & Hmat & _).
  eexists glu, wdg, mlp, wdm, _, _. split; [exact Hg|]. split.
  { unfold SwitchGLU_call.
    by apply (SwitchGLU_body_rows wdg glu _ _ _ _ _ _ E Hd I s K x indices _ Hgat). }
  cbn [shape]. split; [by rewrite Hi, <- app_assoc|]. split; [exact Hm|]. split.
  { unfold SwitchMLP_call.
    by apply (SwitchMLP_body_rows wdm mlp _ _ _ _ E Hd I s K x indices _ Hmat). }
  cbn [shape]. by rewrite Hi, <- app_assoc.
Qed.

Lemma SwitchLinear_init_zero (O E : nat) (bias : option bool) (wd : world R) :
  SwitchLinear_init 0 O E bias wd = None.
Proof. unfold SwitchLinear_init. by apply bind_None. Qed.

(** X16 — when the constructors succeed.  [SwitchLinear] needs a positive
    [input_dims] (it takes the square root of [1 / input_dims]); the blocks
    need positive [input_dims] and [hidden_dims], since each is the input
    dimension of one of their units; [QuantizedSwitchLinear] needs, besides
    a positive [input_dims], a group size and width [mx.quantize] supports
    and a group size that divides [input_dims].  In every other case the
    constructor raises. *)
Theorem constructors_succeed_iff (I O Hd E : nat) (act : R -> R) (bias : option bool)
    (gs bts : option nat) (wd : world R) :
  (is_Some (SwitchLinear_init I O E bias wd) <-> 0 < I) /\
  (is_Some (QuantizedSwitchLinear_init I O E bias gs bts wd) <->
     0 < I /\ quantize_supported (default 64 gs) (default 4 bts) = true /\
     I `mod` default 64 gs = 0) /\
  (is_Some (SwitchGLU_init I Hd E act bias wd) <-> 0 < I /\ 0 < Hd) /\
  (is_Some (SwitchMLP_init I Hd E act bias wd) <-> 0 < I /\ 0 < Hd).
Proof.
  split; [|split; [|split]].
  - split.
    + intros Hs. destruct I; [|lia]. rewrite SwitchLinear_init_zero in Hs. by destruct Hs.
    + intros HI. destruct (SwitchLinear_init_post I O E bias wd HI) as (? & ? & ? & -> & _).
      eauto.
  - split.
    + intros Hs.
      destruct (decide (0 < I)) as [HI|HI];
        [|rewrite QuantizedSwitchLinear_init_None in Hs; [by destruct Hs|lia]].
      destruct (quantize_supported (default 64 gs) (default 4 bts)) eqn:Hq;
        [|rewrite QuantizedSwitchLinear_init_None in Hs; [by destruct Hs|auto]].
      destruct (decide (I `mod` default 64 gs = 0)) as [Hm|Hm]; [done|].
      rewrite QuantizedSwitchLinear_init_None in Hs; [by destruct Hs|auto].
    + intros (HI & Hq & Hm).
      pose proof (QuantizedSwitchLinear_init_Some I O E bias gs bts wd HI Hq Hm) as Hinit.
      cbn zeta in Hinit. destruct (quantized _ _ _ E O I) as [[q s] b].
      rewrite Hinit. destruct (default true bias); eauto.
  - split.
    + intros Hs. unfold SwitchGLU_init in Hs.
      destruct I as [|I]; [rewrite bind_None in Hs by apply SwitchLinear_init_zero;
                           by destruct Hs|].
      destruct Hd as [|Hd]; [|lia].
      destruct (SwitchLinear_init_post (S I) 0 E (Some (default false bias)) wd)
        as (g & w1 & ? & Hg & _); [lia|].
      destruct (SwitchLinear_init_post (S I) 0 E (Some (default false bias)) w1)
        as (u & w2 & ? & Hu & _); [lia|].
      erewrite bind_Some in Hs by exact Hg. erewrite bind_Some in Hs by exact Hu.
      rewrite bind_None in Hs by apply SwitchLinear_init_zero. by destruct Hs.
    + intros [HI HHd].
      destruct (SwitchGLU_init_post I Hd E act bias wd HI HHd) as (? & ? & ? & ? & ? & -> & _).
      eauto.
  - split.
    + intros Hs. unfold SwitchMLP_init in Hs.
      destruct I as [|I]; [rewrite bind_None in Hs by apply SwitchLinear_init_zero;
                           by destruct Hs|].
      destruct Hd as [|Hd]; [|lia].
      destruct (SwitchLinear_init_post (S I) 0 E (Some (default false bias)) wd)
        as (g & w1 & ? & Hg & _); [lia|].
      erewrite bind_Some in Hs by exact Hg.
      rewrite bind_None in Hs by apply SwitchLinear_init_zero. by destruct Hs.
    + intros [HI HHd].
      destruct (SwitchMLP_init_post I Hd E act bias wd HI HHd) as (? & ? & ? & ? & -> & _).
      eauto.
Qed.

(** X17 — conversion followed by apply.  After [to_quantized] the new
    unit applies [mx.gather_qmm] to the quantization [(q, s, b')] of the
    source's weight, with the group size and width asked for (64 and 4 when
    left out), and adds the source's own bias: when the quantized product
    returns [y0], the call of the new unit returns [y0] for a source without
    bias and [y0] plus [bias[indices[p]]] at every position [p] for a source
    with bias, in the store the conversion left. *)
Theorem to_quantized_then_call (wd : world R) (self : SwitchLinear) (w : array R)
    (b : option (array R)) (E O I : nat) (gs bts : option nat)
    (q s b' : array R) (x : array R) (indices : array nat) (sorted_indices : bool)
    (y0 : array R) :
  unit_at wd self w b E O I ->
  0 < I -> quantize_supported (default 64 gs) (default 4 bts) = true ->
  I `mod` default 64 gs = 0 ->
  quantized (default 64 gs) (default 4 bts) w E O I = (q, s, b') ->
  gather_qmm x q s b' indices true (default 64 gs) (default 4 bts) sorted_indices = Some y0 ->
  shape y0 = shape indices ++ [1; O] -> wf y0 ->
  wf indices -> Forall (fun e => e < E) (data indices) ->
  exists ql wd' y,
    to_quantized self gs bts wd = Some (ql, wd') /\
    group_size ql = default 64 gs /\ bits ql = default 4 bts /\
    QuantizedSwitchLinear_call ql x indices sorted_indices wd' = Some (y, wd') /\
    shape y = shape indices ++ [1; O] /\
    forall p, p < size indices ->
      row O p (data y)
      = match b with
        | Some bias => zip_with sadd (row O p (data y0))
                                     (row O (nth p (data indices) 0) (data bias))
        | None => row O p (data y0)
        end.
Proof.
  intros Hu HI Hq Hm Hqw Hg Hy0 Hwy Hwi Hr.
  destruct Hu as (Hw & Hws & Hwf & Hb).
  destruct (to_quantized_of_weight wd self w E O I gs bts Hw Hws HI Hq Hm)
    as (q0 & s0 & b0 & Hto).
  cbn zeta in Hto. rewrite Hqw in Hto.
  destruct (to_quantized_params (length (objs wd)) (sl_params self !! "bias"))
    as (Hpw & Hps & Hpb & Hpbias).
  eexists _, _, _. split; [exact Hto|]. cbn [group_size bits].
  split; [done|]. split; [done|].
  assert (Hd0 : length (data y0) = size indices * O).
  { unfold wf, size, array_size in Hwy. rewrite Hwy, Hy0, prod_rows. done. }
  assert (Hrow0 : forall p, p < size indices -> length (row O p (data y0)) = O).
  { intros p Hp. apply length_row. rewrite Hd0. nia. }
  split.
  { apply (QuantizedSwitchLinear_call_rows _ _ q s b' b E O x indices _ y0); try done.
    - eexists. split; [exact Hpw|]. cbn [objs]. by rewrite lookup_fresh.
    - eexists. split; [exact Hps|]. cbn [objs]. by rewrite lookup_fresh.
    - eexists. split; [exact Hpb|]. cbn [objs]. by rewrite lookup_fresh.
    - cbn [ql_params]. destruct b as [bias|].
      + destruct Hb as ((lb & Hlb & Hob) & Hbs & Hbw). split; [|done].
        exists lb. split; [by rewrite Hpbias|]. cbn [objs]. by apply lookup_app_l_Some.
      + by rewrite Hpbias. }
  cbn [shape data]. split; [done|].
  intros p Hp. rewrite (row_tabulate _ (size indices) O); [done| |done].
  intros k Hk. destruct b as [bias|]; [|by apply Hrow0].
  destruct Hb as (_ & Hbs & Hbw).
  rewrite length_zip_with, Hrow0 by done. rewrite length_row; [lia|].
  assert (nth k (data indices) 0 < E) by (apply nth_in_range; [done|by rewrite Hwi]).
  unfold wf, size, array_size in Hbw. rewrite Hbs in Hbw. cbn [prod foldr] in Hbw. nia.
Qed.

End init_theorems.

(** ** Allocation leaves the modules alone *)

Section frame_extras.
Context {R : Type} `{Scalar R} `{Kernels R}.



(** X19 — what [QuantizedSwitchLinear.__init__] builds.  For a positive
    [input_dims] that the group size divides and a configuration
    [mx.quantize] supports, the constructor returns a unit whose weight,
    scales and biases are the quantization of a random tensor of shape
    [num_experts; output_dims; input_dims], whose bias is zeros of shape
    [num_experts; output_dims] exactly when [bias] is true (the default),
    and which records the group size and width, 64 and 4 when left out; no
    array that existed before is changed. *)
Theorem QuantizedSwitchLinear_init_builds (I O E : nat) (bias : option bool)
    (gs bts : option nat) (wd : world R) :
  0 < I -> quantize_supported (default 64 gs) (default 4 bts) = true ->
  I `mod` default 64 gs = 0 ->
  exists ql wd' q s b,
    QuantizedSwitchLinear_init I O E bias gs bts wd = Some (ql, wd') /\
    quantized (default 64 gs) (default 4 bts)
      (Array [E; O; I] ((fun k => sample (draws wd + k)) <$> seq 0 (prod [E; O; I]))) E O I
    = (q, s, b) /\
    has_param wd' (ql_params ql) "weight" q /\
    has_param wd' (ql_params ql) "scales" s /\
    has_param wd' (ql_params ql) "biases" b /\
    (if default true bias
     then has_param wd' (ql_params ql) "bias" (mx.zeros [E; O])
     else ql_params ql !! "bias" = None) /\
    group_size ql = default 64 gs /\ bits ql = default 4 bts /\
    extends wd wd'.
Proof.
  intros HI Hq Hm.
  pose proof (QuantizedSwitchLinear_init_Some I O E bias gs bts wd HI Hq Hm) as Hinit.
  cbn zeta in Hinit. destruct (quantized _ _ _ E O I) as [[q s] b].
  destruct (default true bias); eexists _, _, q, s, b; (split; [exact Hinit|]);
    (split; [done|]); cbn [ql_params group_size bits objs]; unfold has_param, extends;
    cbn [objs].
  - split; [|split; [|split; [|split; [|split; [done|split; [done|]]]]]].
    + eexists. split; [by rewrite !lookup_insert_ne, lookup_singleton_eq|].
      by rewrite lookup_app_r, Nat.sub_diag.
    + eexists. split; [by rewrite lookup_insert_ne, lookup_insert_ne, lookup_insert_eq|].
      by rewrite lookup_fresh.
    + eexists. split; [by rewrite lookup_insert_ne, lookup_insert_eq|].
      by rewrite lookup_fresh.
    + eexists. split; [by rewrite lookup_insert_eq|]. by rewrite lookup_fresh.
    + intros l a Hl. by apply lookup_app_l_Some.
  - split; [|split; [|split; [|split; [|split; [done|split; [done|]]]]]].
    + eexists. split; [by rewrite !lookup_insert_ne, lookup_singleton_eq|].
      by rewrite lookup_app_r, Nat.sub_diag.
    + eexists. split; [by rewrite lookup_insert_ne, lookup_insert_eq|].
      by rewrite lookup_fresh.
    + eexists. split; [by rewrite lookup_insert_eq|]. by rewrite lookup_fresh.
    + by rewrite !lookup_insert_ne, lookup_singleton_ne.
    + intros l a Hl. by apply lookup_app_l_Some.
Qed.

End frame_extras.

(** ** The further properties at concrete inputs *)

Lemma scatter_unsort_restores_order_witness :
  exists order : list nat,
    data ex_sorted_indices = (fun i => nth i (data ex_indices) 0) <$> order /\
    _scatter_unsort (Array [4; 1] (tabulate (fun p => [Z.of_nat (nth p order 0)]) 4))
                    ex_inv_order (Some [1; 2; 2])
    = Some (Array [1; 2; 2; 1] [0; 1; 2; 3]%Z).
Proof.
  destruct (scatter_unsort_restores_order ex_x5 ex_sorted_x ex_indices ex_sorted_indices
              ex_inv_order (fun p => [Z.of_nat p]) [1])
    as (order & _ & Hjs & Hun); [reflexivity|reflexivity|reflexivity|].
  by exists order.
Defined.

Lemma gather_sort_indices_round_trip_witness :
  _scatter_unsort ex_sorted_indices ex_inv_order (Some [1; 2; 2]) = Some ex_indices.
Proof.
  apply (gather_sort_indices_round_trip ex_x5 ex_sorted_x ex_indices); reflexivity.
Defined.

Lemma gather_sort_rows_round_trip_witness :
  exists xs js inv_order,
    _gather_sort ex_x5 ex_indices = Some (xs, js, inv_order) /\
    _scatter_unsort xs inv_order (Some [1; 2; 2])
    = Some (Array [1; 2; 2; 1; 2] [1; 2; 1; 2; 3; 4; 3; 4]%Z).
Proof.
  destruct (gather_sort_rows_round_trip [1; 2] 1 1 2 ex_x5 [1; 2] 2 ex_indices)
    as (xs & js & inv & Hg & Hun);
    [reflexivity|reflexivity|reflexivity|reflexivity|vm_compute; lia|].
  by exists xs, js, inv.
Defined.


Lemma gather_sort_contiguous_witness :
  data ex_sorted_indices ≡ₚ data ex_indices.
Proof.
  destruct (gather_sort_contiguous ex_x5 ex_sorted_x ex_indices ex_sorted_indices ex_inv_order)
    as [Hp _]; [reflexivity|reflexivity|].
  exact Hp.
Defined.

Lemma SwitchLinear_call_wrong_dims_witness :
  SwitchLinear_call ex_biased (Array [1; 2; 1; 1; 3] [1; 2; 3; 4; 5; 6]%Z) ex_indices false
    ex_world = None.
Proof.
  apply (SwitchLinear_call_wrong_dims ex_world ex_biased
           (Array [2; 1; 2] [1; 2; 3; 4]%Z) (Some (Array [2; 1] [10; 20]%Z))
           2 1 2 _ _ _ [1; 2; 1] 1 3); [holds|reflexivity|lia].
Defined.

Lemma blocks_wrong_dims_witness :
  SwitchGLU_call ex_glu ex_x_wide ex_indices ex_world = None /\
  SwitchMLP_call ex_mlp ex_x_wide ex_indices ex_world = None.
Proof.
  destruct (blocks_wrong_dims ex_world ex_glu ex_mlp
              (Array [2; 1; 2] [1; 2; 3; 4]%Z) None (Array [2; 1; 2] [5; 6; 7; 8]%Z) None
              (Array [2; 2; 1] [1; -1; 2; 3]%Z) None
              (Array [2; 1; 2] [1; 2; 3; 4]%Z) None (Array [2; 2; 1] [1; -1; 2; 3]%Z) None
              2 1 1 2 [1; 2] 3 ex_x_wide ex_indices)
    as (Hg & Hm & _); [holds|holds|reflexivity|lia|].
  by split.
Defined.

Lemma SwitchGLU_call_any_rank_witness :
  exists y, SwitchGLU_call ex_glu ex_x_flat ex_indices_flat ex_world = Some (y, ex_world) /\
            shape y = [2; 2; 2] /\ wf y.
Proof.
  destruct (SwitchGLU_call_any_rank ex_world ex_glu
              (Array [2; 1; 2] [1; 2; 3; 4]%Z) None (Array [2; 1; 2] [5; 6; 7; 8]%Z) None
              (Array [2; 2; 1] [1; -1; 2; 3]%Z) None 2 1 2 [2] 2 ex_x_flat ex_indices_flat)
    as (y & Hy & Hs & Hw & _); [holds|reflexivity|reflexivity|reflexivity|reflexivity|decided|].
  by exists y.
Defined.

Lemma SwitchMLP_call_any_rank_witness :
  exists y, SwitchMLP_call ex_mlp ex_x_flat ex_indices_flat ex_world = Some (y, ex_world) /\
            shape y = [2; 2; 2] /\ wf y.
Proof.
  destruct (SwitchMLP_call_any_rank ex_world ex_mlp
              (Array [2; 1; 2] [1; 2; 3; 4]%Z) None (Array [2; 2; 1] [1; -1; 2; 3]%Z) None
              2 1 2 [2] 2 ex_x_flat ex_indices_flat)
    as (y & Hy & Hs & Hw & _); [holds|reflexivity|reflexivity|reflexivity|reflexivity|decided|].
  by exists y.
Defined.

Lemma QuantizedSwitchLinear_call_unit_witness :
  exists y, QuantizedSwitchLinear_call ex_qlb ex_x5 ex_indices false ex_world
            = Some (y, ex_world) /\
            data y = [20; 10; 10; 10]%Z.
Proof.
  destruct (QuantizedSwitchLinear_call_unit ex_world ex_qlb
              (Array [2; 1; 2] [1; 2; 3; 4]%Z) (Array [2; 1; 2] [5; 6; 7; 8]%Z)
              (Array [2; 2; 1] [1; -1; 2; 3]%Z) (Some (Array [2; 1] [10; 20]%Z))
              2 1 ex_x5 ex_indices false (mx.zeros [1; 2; 2; 1; 1]))
    as (y & Hy & _); [holds|holds|holds|holds|reflexivity|reflexivity|reflexivity
                      |reflexivity|decided|].
  exists y. split; [exact Hy|].
  vm_compute in Hy. by injection Hy as <-.
Defined.

Lemma to_quantized_succeeds_iff_witness :
  is_Some (to_quantized ex_wide (Some 32) None ex_world32) /\
  to_quantized ex_wide (Some 5) None ex_world32 = None.
Proof.
  split.
  - destruct (to_quantized_succeeds_iff ex_world32 ex_wide
                (Array [1; 1; 32] (replicate 32 1%Z)) (Some 32) None) as [[_ Hyes] _];
      [holds|].
    apply Hyes. exists 1, 1, 32. repeat split; vm_compute; lia.
  - destruct (to_quantized_succeeds_iff ex_world32 ex_wide
                (Array [1; 1; 32] (replicate 32 1%Z)) (Some 5) None) as [[Hno _] _];
      [holds|].
    destruct (to_quantized ex_wide (Some 5) None ex_world32) as [r|] eqn:Hto; [|reflexivity].
    destruct Hno as (E & O & I & Hs & _ & Hq & _); [eauto|].
    vm_compute in Hq. discriminate.
Defined.

Lemma SwitchLinear_init_builds_witness :
  exists self wd' w,
    SwitchLinear_init 2 3 2 None world0 = Some (self, wd') /\
    unit_at wd' self w (Some (mx.zeros [2; 3])) 2 3 2 /\
    draws wd' = 12.
Proof.
  destruct (SwitchLinear_init_builds 2 3 2 None world0)
    as (self & wd' & w & Hi & Hu & _ & _ & _ & Hd); [vm_compute; lia|].
  by exists self, wd', w.
Defined.

Lemma SwitchGLU_init_builds_witness :
  exists (glu : @SwitchGLU Z) wd' wg wu wdn,
    SwitchGLU_init 2 3 2 (fun z => (z * z)%Z) None world0 = Some (glu, wd') /\
    glu_at wd' glu wg None wu None wdn None 2 3 2.
Proof.
  destruct (SwitchGLU_init_builds 2 3 2 (fun z => (z * z)%Z) None world0)
    as (glu & wd' & wg & wu & wdn & Hi & Hat & _); [vm_compute; lia|vm_compute; lia|].
  by exists glu, wd', wg, wu, wdn.
Defined.

Lemma SwitchMLP_init_builds_witness :
  exists (mlp : @SwitchMLP Z) wd' w1 w2,
    SwitchMLP_init 2 3 2 (fun z => (z * z)%Z) (Some true) world0 = Some (mlp, wd') /\
    mlp_at wd' mlp w1 (Some (mx.zeros [2; 3])) w2 (Some (mx.zeros [2; 2])) 2 3 2.
Proof.
  destruct (SwitchMLP_init_builds 2 3 2 (fun z => (z * z)%Z) (Some true) world0)
    as (mlp & wd' & w1 & w2 & Hi & Hat & _); [vm_compute; lia|vm_compute; lia|].
  by exists mlp, wd', w1, w2.
Defined.

Lemma fresh_blocks_callable_witness :
  exists (glu : @SwitchGLU Z) wdg yg,
    SwitchGLU_init 2 3 2 (fun z => (z * z)%Z) None world0 = Some (glu, wdg) /\
    SwitchGLU_call glu ex_x ex_indices wdg = Some (yg, wdg) /\
    shape yg = [1; 2; 2; 2].
Proof.
  destruct (fresh_blocks_callable 2 3 2 (fun z => (z * z)%Z) None world0 [1; 2] 2
              ex_x ex_indices)
    as (glu & wdg & _ & _ & yg & _ & Hi & Hc & Hs & _);
    [vm_compute; lia|vm_compute; lia|reflexivity|reflexivity|reflexivity|reflexivity|decided|].
  by exists glu, wdg, yg.
Defined.

Lemma to_quantized_then_call_witness :
  exists ql wd' y,
    to_quantized ex_wide (Some 32) None ex_world32 = Some (ql, wd') /\
    QuantizedSwitchLinear_call ql ex_x32 ex_index32 false wd' = Some (y, wd') /\
    data y = [5%Z].
Proof.
  destruct (to_quantized_then_call ex_world32 ex_wide
              (Array [1; 1; 32] (replicate 32 1%Z)) (Some (Array [1; 1] [5]%Z))
              1 1 32 (Some 32) None
              (Array [1; 1; 4] (replicate 4 0%Z)) (Array [1; 1; 1] [1%Z]) (Array [1; 1; 1] [0%Z])
              ex_x32 ex_index32 false (mx.zeros [1; 1; 1]))
    as (ql & wd' & y & Hto & _ & _ & Hc & _ & Hrow);
    [holds|vm_compute; lia|reflexivity|reflexivity|reflexivity|reflexivity|reflexivity
    |reflexivity|reflexivity|decided|].
  exists ql, wd', y. split; [exact Hto|]. split; [exact Hc|].
  vm_compute in Hto. injection Hto as <- <-. vm_compute in Hc. by injection Hc as <-.
Defined.


Lemma QuantizedSwitchLinear_init_builds_witness :
  exists ql wd',
    QuantizedSwitchLinear_init 64 3 2 None None (Some 8) world0 = Some (ql, wd') /\
    group_size ql = 64 /\ bits ql = 8.
Proof.
  destruct (QuantizedSwitchLinear_init_builds 64 3 2 None None (Some 8) world0)
    as (ql & wd' & q & s & b & Hi & _ & _ & _ & _ & _ & Hg & Hb & _);
    [vm_compute; lia|reflexivity|reflexivity|].
  by exists ql, wd'.
Defined.
